(** * Charity: Water Drop Game -- the game engine of [script.js]

    A shallow embedding of class [CharityWaterGame]: the fields of the
    game object, the part of the page the methods read and write, the
    browser's timer table and the console.  Every method is a function
    over that state; a method that can raise a [TypeError] returns a
    [Completion].  The browser is the environment: it delivers clicks,
    timer firings, clock and random values and element positions. *)

From Stdlib Require Import ZArith DecimalString Ascii Lia.
From Stdlib Require DecimalZ DecimalPos.
From stdpp Require Import base option list strings gmap.

Local Open Scope Z_scope.
Set Primitive Projections.
#[local] Set Warnings "-clear-no-such-hyp".

(** ** Values of the host language *)

(** Reading a property: a value, [undefined], or a [TypeError] because
    the object read from is itself [undefined]. *)
Inductive Read (A : Type) : Type :=
  | Val (a : A)
  | Undef
  | TypeError.
Arguments Val {A} a.
Arguments Undef {A}.
Arguments TypeError {A}.

(** What the script assigns to a property of a page element. *)
Inductive Value : Type :=
  | Str (s : string)
  | Num (z : Z)
  | Flag (b : bool)
  | Undefined.

(** Number to string conversion, as string concatenation does it. *)
Definition dec (z : Z) : string := NilZero.string_of_int (Z.to_int z).

(** ** Difficulty settings *)

Record DifficultySetting : Type := mkSetting {
  dropSpeed : Z;
  spawnRate : Z;
  targetScore : Z;
  name : string
}.

Definition easy : DifficultySetting := mkSetting 3000 1500 15 "Easy".
Definition normal : DifficultySetting := mkSetting 2000 1000 25 "Normal".
Definition hard : DifficultySetting := mkSetting 1200 800 40 "Hard".

(** The own properties of [this.difficultySettings]. *)
Definition difficultySettings : gmap string DifficultySetting :=
  {[ "easy" := easy; "normal" := normal; "hard" := hard ]}.

(** [difficultySettings] is an object literal, so a key that is not an own
    property is looked up on [Object.prototype]. *)
Definition objectPrototype : list string :=
  [ "constructor"; "hasOwnProperty"; "isPrototypeOf"; "propertyIsEnumerable";
    "toLocaleString"; "toString"; "valueOf"; "__proto__";
    "__defineGetter__"; "__defineSetter__"; "__lookupGetter__";
    "__lookupSetter__" ].

Inductive Settings : Type :=
  | Own (d : DifficultySetting)
  | Inherited
  | Missing.

(** [this.difficultySettings[key]] *)
Definition settingsOf (key : string) : Settings :=
  match difficultySettings !! key with
  | Some d => Own d
  | None => if bool_decide (key ∈ objectPrototype) then Inherited else Missing
  end.

(** [settings.f] for one of the numeric fields: a member of
    [Object.prototype] has none of them, [undefined] has no properties. *)
Definition field (f : DifficultySetting → Z) (s : Settings) : Read Z :=
  match s with
  | Own d => Val (f d)
  | Inherited => Undef
  | Missing => TypeError
  end.

(** [this.milestones] *)
Definition milestones : list Z := [10; 20; 30].

(** ** The game object *)

Definition elem := nat.      (* identity of a DOM element *)
Definition handle := nat.    (* identifier returned by setInterval / setTimeout *)

Record Drop : Type := mkDrop {
  id : string;
  element : elem;
  collected : bool
}.

Record Game : Type := mkGame {
  isPlaying : bool;
  isPaused : bool;
  score : Z;
  gameTime : Z;
  drops : list Drop;
  gameInterval : option handle;
  dropSpawnInterval : option handle;
  timerInterval : option handle;
  difficulty : string;
  achievedMilestones : list Z
}.

(** ** The page *)

(** A [div.water-drop] attached to the game area. *)
Record DropElement : Type := mkDropElement {
  node : elem;
  dataId : string;
  animationDuration : string;
  clicked : bool;                     (* class 'clicked' *)
  pointerEvents : option string;
  animationPlayState : option string
}.

(** Content of the game-over dialog, by the template that produced it and
    the values interpolated into it. *)
Inductive Message : Type :=
  | WonMessage (key : string) (finalScore time : Z)
  | KeepTryingMessage (key : string) (finalScore time : Z).

Record Page : Type := mkPage {
  waterDrops : list DropElement;      (* .water-drop children of the game area *)
  milestoneDisplay : list (elem * Z); (* messages inside #milestoneDisplay *)
  nextElem : elem;                    (* document.createElement *)
  props : list (string * string * Value); (* assignments to element properties, latest first *)
  gameOverMessage : option Message;
  hasInstructions : bool;             (* the game area holds an .instructions element *)
  areaListeners : nat                 (* click listeners on the game area *)
}.

(** ** Timers *)

Inductive Callback : Type := SpawnTick | LoopTick | TimerTick.

Inductive Timeout : Type :=
  | DropCleanup (dropElement : elem) (dropId : string)
  | MessageRemoval (message : elem).

Record Timers : Type := mkTimers {
  intervals : list (handle * (Callback * Read Z));
  timeouts : list (handle * (Timeout * Z));
  nextHandle : handle
}.

(** ** Console *)

Inductive Log : Type :=
  | LogInitialized
  | LogGoal
  | LogClickDrops
  | LogStarted (key : string)
  | LogHowTo
  | LogDropClicked (dropId : string)
  | LogAreaClicked
  | LogSpawned (dropId : string) (total : nat)
  | LogAttempt (dropId : string)
  | LogNotFound (dropId : string)
  | LogAlreadyCollected (dropId : string)
  | LogCollecting (before after : Z)
  | LogCollected (newScore : Z)
  | LogMilestone (milestone : Z)
  | LogPaused
  | LogResumed.

(** ** The whole state *)

Record World : Type := mkWorld {
  game : Game;
  page : Page;
  timers : Timers;
  console : list Log;
  played : list string                (* sounds started, oldest first *)
}.

(** What the browser supplies when a callback runs; positions are in the
    layout's fixed-point units, so that they compare as integers. *)
Record Env : Type := mkEnv {
  now : Z;                            (* Date.now() *)
  random1000 : Z;                     (* Math.floor(Math.random() * 1000) *)
  rectTop : elem → Z;                 (* getBoundingClientRect().top of an element *)
  areaBottom : Z                      (* getBoundingClientRect().bottom of the game area *)
}.

(** A method call completes normally or by throwing; the state reached is
    kept in both cases. *)
Inductive Completion : Type :=
  | Normal (w : World)
  | Throws (w : World).

Definition after (c : Completion) : World :=
  match c with Normal w => w | Throws w => w end.

Definition andThen (c : Completion) (k : World → Completion) : Completion :=
  match c with Normal w => k w | Throws w => Throws w end.

Notation "c ;;; k" := (andThen c k) (at level 61, left associativity).

(** ** Field updates *)

Definition withGame (f : Game → Game) (w : World) : World :=
  mkWorld (f (game w)) (page w) (timers w) (console w) (played w).
Definition withPage (f : Page → Page) (w : World) : World :=
  mkWorld (game w) (f (page w)) (timers w) (console w) (played w).
Definition withTimers (f : Timers → Timers) (w : World) : World :=
  mkWorld (game w) (page w) (f (timers w)) (console w) (played w).

Definition set_isPlaying (b : bool) (g : Game) : Game :=
  mkGame b (isPaused g) (score g) (gameTime g) (drops g) (gameInterval g)
    (dropSpawnInterval g) (timerInterval g) (difficulty g) (achievedMilestones g).
Definition set_isPaused (b : bool) (g : Game) : Game :=
  mkGame (isPlaying g) b (score g) (gameTime g) (drops g) (gameInterval g)
    (dropSpawnInterval g) (timerInterval g) (difficulty g) (achievedMilestones g).
Definition set_score (z : Z) (g : Game) : Game :=
  mkGame (isPlaying g) (isPaused g) z (gameTime g) (drops g) (gameInterval g)
    (dropSpawnInterval g) (timerInterval g) (difficulty g) (achievedMilestones g).
Definition set_gameTime (z : Z) (g : Game) : Game :=
  mkGame (isPlaying g) (isPaused g) (score g) z (drops g) (gameInterval g)
    (dropSpawnInterval g) (timerInterval g) (difficulty g) (achievedMilestones g).
Definition set_drops (l : list Drop) (g : Game) : Game :=
  mkGame (isPlaying g) (isPaused g) (score g) (gameTime g) l (gameInterval g)
    (dropSpawnInterval g) (timerInterval g) (difficulty g) (achievedMilestones g).
Definition set_gameInterval (h : option handle) (g : Game) : Game :=
  mkGame (isPlaying g) (isPaused g) (score g) (gameTime g) (drops g) h
    (dropSpawnInterval g) (timerInterval g) (difficulty g) (achievedMilestones g).
Definition set_dropSpawnInterval (h : option handle) (g : Game) : Game :=
  mkGame (isPlaying g) (isPaused g) (score g) (gameTime g) (drops g) (gameInterval g)
    h (timerInterval g) (difficulty g) (achievedMilestones g).
Definition set_timerInterval (h : option handle) (g : Game) : Game :=
  mkGame (isPlaying g) (isPaused g) (score g) (gameTime g) (drops g) (gameInterval g)
    (dropSpawnInterval g) h (difficulty g) (achievedMilestones g).
Definition set_difficulty (k : string) (g : Game) : Game :=
  mkGame (isPlaying g) (isPaused g) (score g) (gameTime g) (drops g) (gameInterval g)
    (dropSpawnInterval g) (timerInterval g) k (achievedMilestones g).
Definition set_achievedMilestones (l : list Z) (g : Game) : Game :=
  mkGame (isPlaying g) (isPaused g) (score g) (gameTime g) (drops g) (gameInterval g)
    (dropSpawnInterval g) (timerInterval g) (difficulty g) l.

Definition set_waterDrops (l : list DropElement) (p : Page) : Page :=
  mkPage l (milestoneDisplay p) (nextElem p) (props p) (gameOverMessage p)
    (hasInstructions p) (areaListeners p).
Definition set_milestoneDisplay (l : list (elem * Z)) (p : Page) : Page :=
  mkPage (waterDrops p) l (nextElem p) (props p) (gameOverMessage p)
    (hasInstructions p) (areaListeners p).
Definition set_nextElem (n : elem) (p : Page) : Page :=
  mkPage (waterDrops p) (milestoneDisplay p) n (props p) (gameOverMessage p)
    (hasInstructions p) (areaListeners p).
Definition set_props (m : list (string * string * Value)) (p : Page) : Page :=
  mkPage (waterDrops p) (milestoneDisplay p) (nextElem p) m (gameOverMessage p)
    (hasInstructions p) (areaListeners p).
Definition set_gameOverMessage (m : option Message) (p : Page) : Page :=
  mkPage (waterDrops p) (milestoneDisplay p) (nextElem p) (props p) m
    (hasInstructions p) (areaListeners p).
Definition set_areaListeners (n : nat) (p : Page) : Page :=
  mkPage (waterDrops p) (milestoneDisplay p) (nextElem p) (props p)
    (gameOverMessage p) (hasInstructions p) n.

(** [this.elements.el.prop = v] *)
Definition assign (el prop : string) (v : Value) (w : World) : World :=
  withPage (λ p, set_props ((el, prop, v) :: props p) p) w.

(** The value of [el.prop], if the script has assigned one. *)
Definition propOf (el prop : string) (w : World) : option Value :=
  snd <$> head (filter (λ a, a.1 = (el, prop)) (props (page w))).

(** [console.log(...)] *)
Definition log (entry : Log) (w : World) : World :=
  mkWorld (game w) (page w) (timers w) (console w ++ [entry]) (played w).

(** [document.createElement('div')]: a fresh element. *)
Definition createElement (w : World) : elem * World :=
  (nextElem (page w), withPage (λ p, set_nextElem (S (nextElem p)) p) w).

(** [el.parentNode] is set, for a drop element. *)
Definition attached (n : elem) (w : World) : bool :=
  bool_decide (n ∈ node <$> waterDrops (page w)).

(** [el.remove()] for a drop element. *)
Definition removeElement (n : elem) (w : World) : World :=
  withPage (λ p, set_waterDrops (filter (λ e, node e ≠ n) (waterDrops p)) p) w.

(** An update of the drop element [n]; nothing to record once it is detached. *)
Definition alterElement (n : elem) (f : DropElement → DropElement) (w : World) : World :=
  withPage (λ p, set_waterDrops
    ((λ e, if bool_decide (node e = n) then f e else e) <$> waterDrops p) p) w.

Definition markClicked (e : DropElement) : DropElement :=
  mkDropElement (node e) (dataId e) (animationDuration e) true (Some "none")
    (animationPlayState e).
Definition setPlayState (s : string) (e : DropElement) : DropElement :=
  mkDropElement (node e) (dataId e) (animationDuration e) (clicked e)
    (pointerEvents e) (Some s).

(** [setInterval(cb, delay)]; identifiers are positive and never reused. *)
Definition setInterval (cb : Callback) (delay : Read Z) (w : World) : handle * World :=
  let h := nextHandle (timers w) in
  (h, withTimers (λ t, mkTimers (intervals t ++ [(h, (cb, delay))]) (timeouts t) (S h)) w).

(** [setTimeout(cb, delay)] *)
Definition setTimeout (cb : Timeout) (delay : Z) (w : World) : World :=
  withTimers (λ t, mkTimers (intervals t)
    (timeouts t ++ [(nextHandle t, (cb, delay))]) (S (nextHandle t))) w.

(** [clearInterval(h)] *)
Definition clearInterval (h : handle) (w : World) : World :=
  withTimers (λ t, mkTimers (filter (λ i, i.1 ≠ h) (intervals t)) (timeouts t)
    (nextHandle t)) w.

(** ** The methods of [CharityWaterGame] *)

(** The constructor's assignments; [init] follows below. *)
Definition newGame : Game :=
  mkGame false false 0 0 [] None None None "normal" [].

(** [this.sounds[soundName]] exists and can be played. *)
Definition hasSound (soundName : string) : bool :=
  bool_decide (soundName ∈ ["gameStart"; "gameOver"; "collect"]).

Definition playSound (soundName : string) (w : World) : World :=
  mkWorld (game w) (page w) (timers w) (console w)
    (if hasSound soundName then played w ++ [soundName] else played w).

Definition updateDifficultyDisplay (w : World) : Completion :=
  match field targetScore (settingsOf (difficulty (game w))) with
  | Val t => Normal (assign "target" "textContent" (Num t) w)
  | Undef => Normal (assign "target" "textContent" Undefined w)
  | TypeError => Throws w
  end.

(** A stored identifier is cleared when it is truthy, that is not 0. *)
Definition clearStored (stored : Game → option handle)
    (reset : option handle → Game → Game) (w : World) : World :=
  match stored (game w) with
  | Some (S h) => withGame (reset None) (clearInterval (S h) w)
  | _ => w
  end.

Definition clearIntervals (w : World) : World :=
  let w := clearStored gameInterval set_gameInterval w in
  let w := clearStored dropSpawnInterval set_dropSpawnInterval w in
  clearStored timerInterval set_timerInterval w.

Definition resetGame (w : World) : World :=
  let w := withGame (set_score 0) w in
  let w := withGame (set_gameTime 0) w in
  let w := withGame (set_achievedMilestones []) w in
  let w := withGame (set_drops []) w in
  (* every .water-drop in the game area is removed *)
  let w := withPage (set_waterDrops []) w in
  let w := assign "score" "textContent" (Str "0") w in
  let w := assign "timer" "textContent" (Str "0s") w in
  let w := withPage (set_milestoneDisplay []) w in
  clearIntervals w.

Definition startGameLoop (w : World) : Completion :=
  let settings := settingsOf (difficulty (game w)) in
  match field spawnRate settings with
  | TypeError => Throws w
  | rate =>
      let '(h, w) := setInterval SpawnTick rate w in
      let w := withGame (set_dropSpawnInterval (Some h)) w in
      let '(h, w) := setInterval LoopTick (Val 50) w in
      Normal (withGame (set_gameInterval (Some h)) w)
  end.

Definition startTimer (w : World) : World :=
  let '(h, w) := setInterval TimerTick (Val 1000) w in
  withGame (set_timerInterval (Some h)) w.

Definition startGame (w : World) : Completion :=
  if isPlaying (game w) then Normal w else
  let w := resetGame w in
  let w := withGame (set_isPlaying true) w in
  let w := withGame (set_isPaused false) w in
  let w := playSound "gameStart" w in
  let w := assign "startBtn" "style.display" (Str "none") w in
  let w := assign "pauseBtn" "style.display" (Str "inline-block") w in
  let w := assign "difficultySelect" "disabled" (Flag true) w in
  let w := if hasInstructions (page w)
           then assign "instructions" "style.display" (Str "none") w else w in
  let w := withPage (λ p, set_areaListeners (S (areaListeners p)) p) w in
  startGameLoop w ;;; λ w,
  let w := startTimer w in
  match settingsOf (difficulty (game w)) with
  | Missing => Throws w
  | _ => Normal (log LogHowTo (log (LogStarted (difficulty (game w))) w))
  end.

(** ['drop_' + Date.now() + '_' + Math.floor(Math.random() * 1000)] *)
Definition freshDropId (env : Env) : string :=
  "drop_" +:+ dec (now env) +:+ "_" +:+ dec (random1000 env).

(** The horizontal position, a second random number, is not recorded. *)
Definition spawnDrop (env : Env) (w : World) : Completion :=
  let '(drop, w) := createElement w in
  let dropId := freshDropId env in
  match field dropSpeed (settingsOf (difficulty (game w))) with
  | TypeError => Throws w
  | speed =>
      let duration := match speed with Val z => dec z | _ => "undefined" end +:+ "ms" in
      let w := withPage (λ p, set_waterDrops
                 (waterDrops p ++ [mkDropElement drop dropId duration false None None]) p) w in
      let w := withGame (λ g, set_drops (drops g ++ [mkDrop dropId drop false]) g) w in
      Normal (log (LogSpawned dropId (length (drops (game w)))) w)
  end.

Definition showMilestone (milestone : Z) (w : World) : World :=
  let '(message, w) := createElement w in
  let w := withPage (set_milestoneDisplay []) w in
  let w := withPage (set_milestoneDisplay [(message, milestone)]) w in
  let w := setTimeout (MessageRemoval message) 3000 w in
  log (LogMilestone milestone) w.

(** The body of the [forEach] callback in [checkMilestones]. *)
Definition checkMilestone (milestone : Z) (w : World) : World :=
  if bool_decide (milestone ≤ score (game w))
     && negb (bool_decide (milestone ∈ achievedMilestones (game w)))
  then
    let w := withGame (λ g, set_achievedMilestones (achievedMilestones g ++ [milestone]) g) w in
    showMilestone milestone w
  else w.

Definition forEach {A : Type} (l : list A) (f : A → World → World) (w : World) : World :=
  fold_left (λ w a, f a w) l w.

Definition checkMilestones (w : World) : World :=
  forEach milestones checkMilestone w.

Definition markCollected (d : Drop) : Drop := mkDrop (id d) (element d) true.

(** The [event] argument only has its default action and propagation
    stopped. *)
Definition collectDrop (dropId : string) (w : World) : World :=
  let w := log (LogAttempt dropId) w in
  match list_find (λ drop, id drop = dropId) (drops (game w)) with
  | None => log (LogNotFound dropId) w
  | Some (dropIndex, drop) =>
      if collected drop then log (LogAlreadyCollected dropId) w else
      let w := withGame (λ g, set_drops (<[dropIndex := markCollected drop]> (drops g)) g) w in
      let w := log (LogCollecting (score (game w)) (score (game w) + 1)) w in
      let w := withGame (λ g, set_score (score g + 1) g) w in
      let w := assign "score" "textContent" (Num (score (game w))) w in
      let w := playSound "collect" w in
      let w := alterElement (element drop) markClicked w in
      let w := checkMilestones w in
      let w := setTimeout (DropCleanup (element drop) dropId) 300 w in
      log (LogCollected (score (game w))) w
  end.

(** The timeout scheduled by [collectDrop]. *)
Definition dropCleanup (dropElement : elem) (dropId : string) (w : World) : World :=
  let w := if attached dropElement w then removeElement dropElement w else w in
  match list_find (λ d, id d = dropId) (drops (game w)) with
  | Some (currentIndex, _) =>
      withGame (λ g, set_drops (delete currentIndex (drops g)) g) w
  | None => w
  end.

(** The timeout scheduled by [showMilestone]. *)
Definition messageRemoval (message : elem) (w : World) : World :=
  withPage (λ p, set_milestoneDisplay
    (filter (λ m, m.1 ≠ message) (milestoneDisplay p)) p) w.

(** The [filter] of [updateDrops]: the callback removes the element of a
    drop that has fallen past the game area. *)
Fixpoint filterDrops (env : Env) (l : list Drop) (w : World) : list Drop * World :=
  match l with
  | [] => ([], w)
  | drop :: rest =>
      if collected drop then filterDrops env rest w
      else if bool_decide (areaBottom env < rectTop env (element drop)) then
        filterDrops env rest (removeElement (element drop) w)
      else
        let '(kept, w) := filterDrops env rest w in (drop :: kept, w)
  end.

Definition updateDrops (env : Env) (w : World) : World :=
  let '(kept, w) := filterDrops env (drops (game w)) w in
  withGame (set_drops kept) w.

Definition showModal (w : World) : World :=
  assign "gameOverModal" "style.display" (Str "block") w.

Definition hideModal (w : World) : World :=
  assign "gameOverModal" "style.display" (Str "none") w.

Definition showWinModal (w : World) : Completion :=
  let settings := settingsOf (difficulty (game w)) in
  let w := assign "gameOverTitle" "textContent" (Str "🎉 Congratulations!") w in
  match settings with
  | Missing => Throws w
  | _ =>
      let w := withPage (set_gameOverMessage (Some
                 (WonMessage (difficulty (game w)) (score (game w)) (gameTime (game w))))) w in
      Normal (showModal w)
  end.

Definition showGameOverModal (w : World) : Completion :=
  let settings := settingsOf (difficulty (game w)) in
  match settings with
  | Missing => Throws w
  | _ =>
      let w := assign "gameOverTitle" "textContent" (Str "💧 Keep Trying!") w in
      let w := withPage (set_gameOverMessage (Some
                 (KeepTryingMessage (difficulty (game w)) (score (game w)) (gameTime (game w))))) w in
      Normal (showModal w)
  end.

Definition endGame (won : bool) (w : World) : Completion :=
  let w := withGame (set_isPlaying false) w in
  let w := clearIntervals w in
  let w := playSound "gameOver" w in
  (if won then showWinModal w else showGameOverModal w) ;;; λ w,
  let w := assign "startBtn" "style.display" (Str "inline-block") w in
  let w := assign "pauseBtn" "style.display" (Str "none") w in
  let w := assign "difficultySelect" "disabled" (Flag false) w in
  Normal (if hasInstructions (page w)
          then assign "instructions" "style.display" (Str "block") w else w).

Definition checkWinCondition (w : World) : Completion :=
  match field targetScore (settingsOf (difficulty (game w))) with
  | TypeError => Throws w
  | Val target =>
      if bool_decide (target ≤ score (game w)) then endGame true w else Normal w
  | Undef => Normal w   (* a comparison with undefined is false *)
  end.

Definition playAgain (w : World) : Completion :=
  startGame (hideModal w).

Definition changeDifficulty (w : World) : World :=
  hideModal w.

Definition togglePause (w : World) : World :=
  if negb (isPlaying (game w)) then w else
  let w := withGame (λ g, set_isPaused (negb (isPaused g)) g) w in
  let w := assign "pauseBtn" "textContent"
             (Str (if isPaused (game w) then "Resume" else "Pause")) w in
  let w := if isPaused (game w)
           then withPage (λ p, set_waterDrops (setPlayState "paused" <$> waterDrops p) p) w
           else withPage (λ p, set_waterDrops (setPlayState "running" <$> waterDrops p) p) w in
  log (if isPaused (game w) then LogPaused else LogResumed) w.

(** ** The page's events *)

Inductive Event : Type :=
  | ClickStart
  | ClickPause
  | ChangeSelect (value : string)
  | ClickPlayAgain
  | ClickChangeDifficulty
  | ClickModal (onBackdrop : bool)
  | ClickGameArea
  | DropGesture (dropId : string)      (* click, mousedown or touchstart on a drop *)
  | IntervalFires (h : handle) (env : Env)
  | TimeoutFires (h : handle).

(** The three callbacks given to [setInterval]. *)
Definition runCallback (cb : Callback) (env : Env) (w : World) : Completion :=
  match cb with
  | SpawnTick =>
      if negb (isPaused (game w)) && isPlaying (game w) then spawnDrop env w else Normal w
  | LoopTick =>
      if negb (isPaused (game w)) && isPlaying (game w)
      then checkWinCondition (updateDrops env w) else Normal w
  | TimerTick =>
      if negb (isPaused (game w)) && isPlaying (game w) then
        let w := withGame (λ g, set_gameTime (gameTime g + 1) g) w in
        Normal (assign "timer" "textContent" (Str (dec (gameTime (game w)) +:+ "s")) w)
      else Normal w
  end.

Definition runTimeout (cb : Timeout) (w : World) : World :=
  match cb with
  | DropCleanup dropElement dropId => dropCleanup dropElement dropId w
  | MessageRemoval message => messageRemoval message w
  end.

(** The listeners bound in [bindEvents], [startGame] and [spawnDrop], and
    the browser running a timer that is still scheduled. *)
Definition handler (e : Event) (w : World) : Completion :=
  match e with
  | ClickStart => startGame w
  | ClickPause => Normal (togglePause w)
  | ChangeSelect value =>
      updateDifficultyDisplay (withGame (set_difficulty value) w)
  | ClickPlayAgain => playAgain w
  | ClickChangeDifficulty => Normal (changeDifficulty w)
  | ClickModal onBackdrop => Normal (if onBackdrop then hideModal w else w)
  | ClickGameArea =>
      Normal (Nat.iter (areaListeners (page w)) (log LogAreaClicked) w)
  | DropGesture dropId =>
      Normal (collectDrop dropId (log (LogDropClicked dropId) w))
  | IntervalFires h env =>
      match list_find (λ i, i.1 = h) (intervals (timers w)) with
      | Some (_, (_, (cb, _))) => runCallback cb env w
      | None => Normal w
      end
  | TimeoutFires h =>
      match list_find (λ t, t.1 = h) (timeouts (timers w)) with
      | Some (k, (_, (cb, _))) =>
          Normal (runTimeout cb
            (withTimers (λ t, mkTimers (intervals t) (delete k (timeouts t)) (nextHandle t)) w))
      | None => Normal w
      end
  end.

(** An exception thrown by a listener is reported and the page goes on. *)
Definition step (w : World) (e : Event) : World := after (handler e w).

Definition run (es : list Event) (w : World) : World := fold_left step es w.

(** The page once the script has loaded: [new CharityWaterGame()] on the
    document [p]. *)
Definition init (p : Page) : World :=
  after (updateDifficultyDisplay
    (mkWorld newGame p (mkTimers [] [] 1%nat) [LogInitialized; LogGoal; LogClickDrops] [])).

(** A document with no drops, no milestone message and nothing assigned yet. *)
Definition blankPage : Page := mkPage [] [] 0%nat [] None true 0%nat.

(** Symbolic simplification leaves string and map computations alone. *)
Arguments hasSound : simpl never.
Arguments settingsOf : simpl never.
Arguments dec : simpl never.
Arguments freshDropId : simpl never.
Arguments checkMilestones : simpl never.

(** * Notions used in the statements *)

(** ** Views of the state *)

(** The fields of the game object other than the three interval identifiers. *)
Definition core (g : Game) : bool * bool * Z * Z * list Drop * string * list Z :=
  (isPlaying g, isPaused g, score g, gameTime g, drops g, difficulty g,
   achievedMilestones g).

(** The part of the state that [checkMilestones] never writes: the game
    object up to its achieved list, and on the side of the browser the drop
    elements, the assigned properties, the dialog and the intervals. *)
Definition besidesMilestones (w : World) :=
  (set_achievedMilestones [] (game w),
   (waterDrops (page w), props (page w), gameOverMessage (page w),
    hasInstructions (page w), areaListeners (page w), intervals (timers w), played w)).

(** Whether a session is being played, whether it is paused, its clock, its
    difficulty and the intervals the browser has scheduled. *)
Definition control (w : World) :=
  (isPlaying (game w), isPaused (game w), gameTime (game w), difficulty (game w),
   intervals (timers w)).

(** Playing, paused, the clock and the scheduled intervals. *)
Definition clock (w : World) :=
  (isPlaying (game w), isPaused (game w), gameTime (game w), intervals (timers w)).

(** The drops, the score and the number of elements created so far. *)
Definition registry (w : World) := (drops (game w), score (game w), nextElem (page w)).

(** The callback the browser runs when the interval [h] fires. *)
Definition scheduled (h : handle) (cb : Callback) (w : World) : Prop :=
  ∃ k delay, list_find (λ i, i.1 = h) (intervals (timers w)) = Some (k, (h, (cb, delay))).

(** A session is being played and is not paused. *)
Definition running (w : World) : Prop :=
  isPlaying (game w) = true ∧ isPaused (game w) = false.

(** What the game-over dialog shows, what it shows once [showWinModal] has
    run in the state [w], and that it shows the text of [showWinModal]. *)
Definition dialog (w : World) :=
  (gameOverMessage (page w), propOf "gameOverTitle" "textContent" w).

Definition wonDialog (w : World) :=
  (Some (WonMessage (difficulty (game w)) (score (game w)) (gameTime (game w))),
   Some (Str "🎉 Congratulations!")).

Definition congratulates (w : World) : Prop :=
  ∃ key finalScore time,
    dialog w = (Some (WonMessage key finalScore time), Some (Str "🎉 Congratulations!")).

(** ** Collecting *)

(** The three ways through [collectDrop], named after what each logs. *)
Inductive Outcome : Type :=
  | NotFound
  | AlreadyCollected
  | Collected (dropIndex : nat) (drop : Drop).

Definition collectOutcome (dropId : string) (w : World) : Outcome :=
  match list_find (λ drop, id drop = dropId) (drops (game w)) with
  | None => NotFound
  | Some (dropIndex, drop) =>
      if collected drop then AlreadyCollected else Collected dropIndex drop
  end.

(** ** Milestones *)

(** [checkMilestones] at a given score, and what a call adds to
    [achievedMilestones]: the thresholds it reports through [showMilestone]. *)
Definition evaluate (s : Z) (w : World) : World :=
  checkMilestones (withGame (set_score s) w).

Definition newlyAchieved (before after : World) : list Z :=
  drop (length (achievedMilestones (game before))) (achievedMilestones (game after)).

(** The batches reported over a sequence of scores, and the state reached. *)
Fixpoint batches (scores : list Z) (w : World) : list (list Z) :=
  match scores with
  | [] => []
  | s :: rest => newlyAchieved w (evaluate s w) :: batches rest (evaluate s w)
  end.

Definition evaluateAll (scores : list Z) (w : World) : World :=
  fold_left (λ w s, evaluate s w) scores w.

(** ** The fate of every drop *)

(** The drops whose element [updateDrops] removes: not collected, and the
    top of the element below the bottom of the game area. *)
Definition fallen (env : Env) (l : list Drop) : list Drop :=
  filter (λ d, collected d = false ∧ areaBottom env < rectTop env (element d)) l.

(** The drop [spawnDrop] pushes. *)
Definition newDrop (env : Env) (w : World) : Drop :=
  mkDrop (freshDropId env) (nextElem (page w)) false.

(** A ledger kept beside a run: the drops pushed onto [this.drops], the
    drops a successful [collectDrop] has marked (since the last start of a
    session, and ever), and the drops whose element [updateDrops] has
    removed for having fallen past the game area.  Each drop is entered as
    it was found, that is not yet marked. *)
Record Ledger : Type := mkLedger {
  spawned : list Drop;
  collectedNow : list Drop;
  collectedEver : list Drop;
  expired : list Drop
}.

Definition emptyLedger : Ledger := mkLedger [] [] [] [].

(** The entry an event makes, by the branch of the code it takes. *)
Definition record (w : World) (e : Event) (l : Ledger) : Ledger :=
  match e with
  | ClickStart | ClickPlayAgain =>
      if isPlaying (game w) then l
      else mkLedger (spawned l) [] (collectedEver l) (expired l)
  | DropGesture dropId =>
      match collectOutcome dropId w with
      | Collected _ d =>
          mkLedger (spawned l) (collectedNow l ++ [d]) (collectedEver l ++ [d]) (expired l)
      | _ => l
      end
  | IntervalFires h env =>
      match list_find (λ i, i.1 = h) (intervals (timers w)) with
      | Some (_, (_, (cb, _))) =>
          if negb (isPaused (game w)) && isPlaying (game w) then
            match cb with
            | SpawnTick =>
                match settingsOf (difficulty (game w)) with
                | Missing => l
                | _ => mkLedger (spawned l ++ [newDrop env w]) (collectedNow l)
                         (collectedEver l) (expired l)
                end
            | LoopTick =>
                mkLedger (spawned l) (collectedNow l) (collectedEver l)
                  (expired l ++ fallen env (drops (game w)))
            | TimerTick => l
            end
          else l
      | None => l
      end
  | _ => l
  end.

Fixpoint ledger (es : list Event) (w : World) (l : Ledger) : Ledger :=
  match es with
  | [] => l
  | e :: es => ledger es (step w e) (record w e l)
  end.

(** What one event does to the drops, the score and the ledger. *)
Inductive Effect (w w' : World) (l l' : Ledger) : Prop :=
  | Restarted :
      drops (game w') = [] → score (game w') = 0 →
      nextElem (page w') = nextElem (page w) →
      l' = mkLedger (spawned l) [] (collectedEver l) (expired l) →
      Effect w w' l l'
  | HasCollected (i : nat) (d : Drop) :
      drops (game w) !! i = Some d → collected d = false →
      drops (game w') = <[i := markCollected d]> (drops (game w)) →
      score (game w') = score (game w) + 1 →
      (nextElem (page w) ≤ nextElem (page w'))%nat →
      l' = mkLedger (spawned l) (collectedNow l ++ [d]) (collectedEver l ++ [d]) (expired l) →
      Effect w w' l l'
  | HasSpawned (env : Env) :
      drops (game w') = drops (game w) ++ [newDrop env w] →
      score (game w') = score (game w) →
      nextElem (page w') = S (nextElem (page w)) →
      l' = mkLedger (spawned l ++ [newDrop env w]) (collectedNow l) (collectedEver l)
             (expired l) →
      Effect w w' l l'
  | HasExpired (env : Env) :
      drops (game w')
      = filter (λ d, collected d = false ∧ rectTop env (element d) ≤ areaBottom env)
          (drops (game w)) →
      score (game w') = score (game w) →
      nextElem (page w') = nextElem (page w) →
      l' = mkLedger (spawned l) (collectedNow l) (collectedEver l)
             (expired l ++ fallen env (drops (game w))) →
      Effect w w' l l'
  | NothingNew :
      drops (game w') `sublist_of` drops (game w) →
      score (game w') = score (game w) →
      (nextElem (page w) ≤ nextElem (page w'))%nat →
      l' = l →
      Effect w w' l l'.

(** The score is the number of drops collected since the last start, and
    every drop spawned has an element of its own. *)
Definition counted (w : World) (l : Ledger) : Prop :=
  score (game w) = Z.of_nat (length (collectedNow l))
  ∧ (∀ d, d ∈ spawned l → (element d < nextElem (page w))%nat)
  ∧ NoDup (element <$> spawned l).

(** Collected and expired exclude each other, for a way [key] of telling
    drops apart: the drops in [this.drops] have different keys, every key
    in sight belongs to a spawned drop, no drop in [this.drops] has expired,
    none that is not marked has been collected, no key was collected twice,
    and none was both collected and expired. *)
Definition exclusive {K : Type} (key : Drop → K) (w : World) (l : Ledger) : Prop :=
  NoDup (key <$> drops (game w))
  ∧ (∀ d, d ∈ drops (game w) → key d ∈ key <$> spawned l)
  ∧ (∀ d, d ∈ collectedEver l → key d ∈ key <$> spawned l)
  ∧ (∀ d, d ∈ expired l → key d ∈ key <$> spawned l)
  ∧ (∀ d, d ∈ drops (game w) → key d ∉ key <$> expired l)
  ∧ (∀ d, d ∈ drops (game w) → collected d = false → key d ∉ key <$> collectedEver l)
  ∧ NoDup (key <$> collectedEver l)
  ∧ (∀ d d', d ∈ collectedEver l → d' ∈ expired l → key d ≠ key d').

(** ** The ledger and the console *)

(** What the console tells of drops: the ids logged by [spawnDrop] and the
    scores logged by a successful [collectDrop]. *)
Definition spawnedIds (c : list Log) : list string :=
  omap (λ entry, match entry with LogSpawned dropId _ => Some dropId | _ => None end) c.

Definition collectedScores (c : list Log) : list Z :=
  omap (λ entry, match entry with LogCollected newScore => Some newScore | _ => None end) c.

(** A line that tells of neither. *)
Definition quiet (entry : Log) : Prop :=
  match entry with LogSpawned _ _ | LogCollected _ => False | _ => True end.

(** The ledger agrees with the console. *)
Definition logged (w : World) (l : Ledger) : Prop :=
  spawnedIds (console w) = id <$> spawned l
  ∧ length (collectedScores (console w)) = length (collectedEver l).

(** * Notions used in the further properties *)

(** ** Drop ids *)

(** No character of the string is an underscore. *)
Fixpoint plain (s : string) : bool :=
  match s with
  | EmptyString => true
  | String c rest => negb (bool_decide (c = "_"%char)) && plain rest
  end.

(** ** Timers *)

(** What [clearIntervals] does to a stored identifier and to the browser's
    table for it: a truthy identifier is cancelled and nulled. *)
Definition cleared (stored : option handle) : option handle :=
  match stored with Some (S _) => None | other => other end.

Definition cancel (stored : option handle)
    (l : list (handle * (Callback * Read Z))) : list (handle * (Callback * Read Z)) :=
  match stored with Some (S h) => filter (λ i, i.1 ≠ S h) l | _ => l end.






(** ** Milestones and the score *)

Definition tally (w : World) := (score (game w), achievedMilestones (game w)).

(** The achieved milestones are the thresholds the score has reached. *)
Definition abreast (w : World) : Prop :=
  achievedMilestones (game w) = filter (λ m, m ≤ score (game w)) milestones.

(** The milestone display is empty, or it holds one message: that of the
    milestone achieved last, with its removal pending. *)
Definition shown (w : World) : Prop :=
  milestoneDisplay (page w) = []
  ∨ ∃ message m h,
      milestoneDisplay (page w) = [(message, m)]
      ∧ last (achievedMilestones (game w)) = Some m
      ∧ (h, (MessageRemoval message, 3000)) ∈ timeouts (timers w).

Definition notice (w : World) :=
  (milestoneDisplay (page w), achievedMilestones (game w), timeouts (timers w)).

(** ** What the page shows *)

(** The figures the page shows. *)
Definition figures (w : World) := (score (game w), gameTime (game w), difficulty (game w)).

(** The score, the timer and the target on the page are those of the game
    object: the score element holds the score (or the string '0' written by
    [resetGame]), the timer element the elapsed seconds, the target element
    the target of the difficulty selected if the table has it.  An element
    the script has not written yet goes with a zero. *)
Definition mirrored (w : World) : Prop :=
  match propOf "score" "textContent" w with
  | None => score (game w) = 0
  | Some v => v = Num (score (game w)) ∨ (v = Str "0" ∧ score (game w) = 0)
  end
  ∧ match propOf "timer" "textContent" w with
    | None => gameTime (game w) = 0
    | Some v => v = Str (dec (gameTime (game w)) +:+ "s")
    end
  ∧ ∀ d, settingsOf (difficulty (game w)) = Own d →
         propOf "target" "textContent" w = Some (Num (targetScore d)).

(** The controls are those of the session's state: while a session is
    being played the start button is hidden, the pause button shown and the
    difficulty select disabled, and otherwise the other way round (or not
    written yet); the pause button reads 'Resume' exactly while the session
    is paused, which it is only while it is being played. *)
Definition controls (w : World) : Prop :=
  (isPaused (game w) = true → isPlaying (game w) = true)
  ∧ (if isPlaying (game w)
     then propOf "startBtn" "style.display" w = Some (Str "none")
          ∧ propOf "pauseBtn" "style.display" w = Some (Str "inline-block")
          ∧ propOf "difficultySelect" "disabled" w = Some (Flag true)
     else propOf "startBtn" "style.display" w ∈ [None; Some (Str "inline-block")]
          ∧ propOf "pauseBtn" "style.display" w ∈ [None; Some (Str "none")]
          ∧ propOf "difficultySelect" "disabled" w ∈ [None; Some (Flag false)])
  ∧ (if isPaused (game w)
     then propOf "pauseBtn" "textContent" w = Some (Str "Resume")
     else propOf "pauseBtn" "textContent" w ∈ [None; Some (Str "Pause")]).

(** The assignments [startGame] makes when it starts a session and those of
    [endGame], latest first. *)
Definition startAssignments (instructions : bool) : list (string * string * Value) :=
  (if instructions then [("instructions", "style.display", Str "none")] else [])
  ++ [("difficultySelect", "disabled", Flag true);
      ("pauseBtn", "style.display", Str "inline-block");
      ("startBtn", "style.display", Str "none");
      ("timer", "textContent", Str "0s");
      ("score", "textContent", Str "0")].

Definition winAssignments (instructions : bool) : list (string * string * Value) :=
  (if instructions then [("instructions", "style.display", Str "block")] else [])
  ++ [("difficultySelect", "disabled", Flag false);
      ("pauseBtn", "style.display", Str "none");
      ("startBtn", "style.display", Str "inline-block");
      ("gameOverModal", "style.display", Str "block");
      ("gameOverTitle", "textContent", Str "🎉 Congratulations!")].

(** ** Sounds and listeners *)

(** How often the sound [soundName] has been played. *)
Definition sounds (soundName : string) (w : World) : nat :=
  length (filter (λ s, s = soundName) (played w)).

(** ** Drop elements *)

(** The drop elements are frozen exactly while the session is paused, which
    it is only while it is being played. *)
Definition frozen (w : World) : Prop :=
  (isPaused (game w) = true → isPlaying (game w) = true)
  ∧ ∀ e, e ∈ waterDrops (page w) →
         if isPaused (game w) then animationPlayState e = Some "paused"
         else animationPlayState e ≠ Some "paused".

Definition stage (w : World) :=
  (isPlaying (game w), isPaused (game w), waterDrops (page w)).

(** ** The dialog *)

(** The game-over dialog is empty or holds the text of a win, on a
    difficulty of the table with a score that has reached its target; it
    never holds the text of a loss. *)
Definition honest (w : World) : Prop :=
  match gameOverMessage (page w) with
  | None => True
  | Some (WonMessage key finalScore _) =>
      ∃ d, settingsOf key = Own d ∧ targetScore d ≤ finalScore
  | Some (KeepTryingMessage _ _ _) => False
  end.

(** ** The flags *)

(** The session's two flags set from outside. *)
Definition withFlags (playing paused : bool) (w : World) : World :=
  withGame (λ g, set_isPaused paused (set_isPlaying playing g)) w.

(** ** Drops and their elements *)

(** The element [spawnDrop] appends to the game area. *)
Definition newElement (env : Env) (w : World) (duration : string) : DropElement :=
  mkDropElement (nextElem (page w)) (freshDropId env) duration false None None.

(** What one event does to the drops, to their elements on the page and to
    the pending timeouts, beside the entry it makes in the ledger. *)
Inductive Change (w w' : World) (l l' : Ledger) : Prop :=
  | Cleared :
      drops (game w') = [] → waterDrops (page w') = [] →
      timeouts (timers w') = timeouts (timers w) →
      l' = mkLedger (spawned l) [] (collectedEver l) (expired l) →
      Change w w' l l'
  | Marked (i : nat) (d : Drop) :
      drops (game w) !! i = Some d → collected d = false →
      drops (game w') = <[i := markCollected d]> (drops (game w)) →
      waterDrops (page w')
      = (λ e, if bool_decide (node e = element d) then markClicked e else e)
          <$> waterDrops (page w) →
      (∀ t, t ∈ timeouts (timers w') →
         t ∈ timeouts (timers w) ∨ (∃ message, t.2.1 = MessageRemoval message)
         ∨ t.2.1 = DropCleanup (element d) (id d)) →
      l' = mkLedger (spawned l) (collectedNow l ++ [d]) (collectedEver l ++ [d]) (expired l) →
      Change w w' l l'
  | Added (env : Env) (duration : string) :
      drops (game w') = drops (game w) ++ [newDrop env w] →
      waterDrops (page w') = waterDrops (page w) ++ [newElement env w duration] →
      timeouts (timers w') = timeouts (timers w) →
      l' = mkLedger (spawned l ++ [newDrop env w]) (collectedNow l) (collectedEver l)
             (expired l) →
      Change w w' l l'
  | Fell (env : Env) :
      drops (game w')
      = filter (λ d, collected d = false ∧ rectTop env (element d) ≤ areaBottom env)
          (drops (game w)) →
      waterDrops (page w')
      = filter (λ e, node e ∉ element <$> fallen env (drops (game w)))
          (waterDrops (page w)) →
      timeouts (timers w') = timeouts (timers w) →
      l' = mkLedger (spawned l) (collectedNow l) (collectedEver l)
             (expired l ++ fallen env (drops (game w))) →
      Change w w' l l'
  | Cleaned (h : handle) (n : elem) (dropId : string) (delay : Z) :
      (h, (DropCleanup n dropId, delay)) ∈ timeouts (timers w) →
      drops (game w')
      = match list_find (λ d, id d = dropId) (drops (game w)) with
        | Some (j, _) => delete j (drops (game w))
        | None => drops (game w)
        end →
      waterDrops (page w') = filter (λ e, node e ≠ n) (waterDrops (page w)) →
      (∀ t, t ∈ timeouts (timers w') → t ∈ timeouts (timers w)) →
      l' = l →
      Change w w' l l'
  | Restyled (f : DropElement → DropElement) :
      (∀ e, node (f e) = node e ∧ dataId (f e) = dataId e ∧ clicked (f e) = clicked e) →
      drops (game w') = drops (game w) →
      waterDrops (page w') = f <$> waterDrops (page w) →
      (∀ t, t ∈ timeouts (timers w') → t ∈ timeouts (timers w)) →
      l' = l →
      Change w w' l l'.

(** Every drop in [this.drops] and every pending clean-up is of a drop that
    was spawned, a clean-up of one that was collected; and every drop not
    yet collected has its element in the game area, not clicked and carrying
    the drop's id. *)
Definition placed (w : World) (l : Ledger) : Prop :=
  (∀ d, d ∈ drops (game w) → mkDrop (id d) (element d) false ∈ spawned l)
  ∧ (∀ d, d ∈ collectedEver l → d ∈ spawned l)
  ∧ (∀ h n dropId delay, (h, (DropCleanup n dropId, delay)) ∈ timeouts (timers w) →
       mkDrop dropId n false ∈ collectedEver l)
  ∧ (∀ d, d ∈ drops (game w) → collected d = false →
       ∃ e, e ∈ waterDrops (page w) ∧ node e = element d ∧ dataId e = id d
            ∧ clicked e = false).

(** Every element in the game area that is not clicked is the element of a
    drop in [this.drops] that is not collected and has the id the element
    carries. *)
Definition clickable (w : World) : Prop :=
  ∀ e, e ∈ waterDrops (page w) → clicked e = false →
    ∃ d, d ∈ drops (game w) ∧ collected d = false ∧ element d = node e
         ∧ id d = dataId e.

(** * States used as examples *)

Definition still : Env := mkEnv 0 0 (λ _, 0) 500.
Definition at_time (t r : Z) : Env := mkEnv t r (λ _, 0) 500.

(** A freshly loaded page, and the same page after a click on Start: the
    spawn, loop and timer intervals get the identifiers 1, 2 and 3. *)
Definition loaded : World := init blankPage.
Definition started : World := run [ClickStart] loaded.

(** The [k]-th drop of a game, spawned at second [k], and a click on it. *)
Definition spawnAt (k : Z) : Event := IntervalFires 1%nat (at_time (1000 * k) 7).
Definition clickAt (k : Z) : Event := DropGesture (freshDropId (at_time (1000 * k) 7)).

(** Every pending timeout runs, oldest first. *)
Definition flush (w : World) : World :=
  run (TimeoutFires <$> (fst <$> timeouts (timers w))) w.

(** One second of play: a drop is spawned and clicked, the game loop and
    the timer run, the scheduled clean-ups run. *)
Definition second (w : World) (k : Z) : World :=
  flush (run [spawnAt k; clickAt k; IntervalFires 2%nat still; IntervalFires 3%nat still] w).

(** Normal difficulty: 24 seconds of play, then the 25th drop is spawned and
    clicked, then the game loop runs again. *)
Definition after24 : World := fold_left second (Z.of_nat <$> seq 1 24) started.
Definition atTarget : World := run [spawnAt 25; clickAt 25] after24.
Definition finished : World := step atTarget (IntervalFires 2%nat still).

(** One drop on the page, to be clicked twice. *)
Definition oneDrop : World := run [spawnAt 1] started.

(** A drop spawned at time 1000, the game paused and resumed, and the game
    loop running at time 9000 with every element at height 100 above a game
    area that ends at 500. *)
Definition afterPause : World := run [spawnAt 1; ClickPause; ClickPause] started.
Definition lateLoop : Event := IntervalFires 2%nat (mkEnv 9000 0 (λ _, 100) 500).

(** The session of [after24] with its 25th drop on the page. *)
Definition lastDrop : World := run [spawnAt 25] after24.

(** A freshly loaded page on which the key "extreme" has been selected. *)
Definition extreme : World := step loaded (ChangeSelect "extreme").

(** A pause of three seconds by the timer's count, with a drop spawned
    before it and clicked during it. *)
Definition beforePause : World := run [spawnAt 1; IntervalFires 3%nat still] started.
Definition duringPause : list Event :=
  [IntervalFires 3%nat still; clickAt 1; IntervalFires 3%nat still;
   IntervalFires 2%nat still; IntervalFires 3%nat still].

(** A session in which the first drop is collected and the second falls
    past the game area. *)
Definition twoFates : list Event :=
  [ClickStart; spawnAt 1; spawnAt 2; clickAt 1;
   IntervalFires 2%nat (mkEnv 2500 0 (λ _, 600) 500)].


(** A session with one drop on the page, paused. *)
Definition pausedWithDrop : list Event := [ClickStart; spawnAt 1; ClickPause].

(** A session with two drops on the page. *)
Definition twoDrops : list Event := [ClickStart; spawnAt 1; spawnAt 2].

(** * Properties *)

(** ** The model at work *)

Example settings_by_key :
  settingsOf "hard" = Own hard ∧ settingsOf "toString" = Inherited
  ∧ settingsOf "extreme" = Missing.
Proof. vm_compute. split_and!; reflexivity. Qed.

Example fresh_id : freshDropId (at_time 1000 7) = "drop_1000_7".
Proof. vm_compute. reflexivity. Qed.

Example started_game :
  game started
  = mkGame true false 0 0 [] (Some 2%nat) (Some 1%nat) (Some 3%nat) "normal" []
  ∧ intervals (timers started)
    = [(1%nat, (SpawnTick, Val 1000)); (2%nat, (LoopTick, Val 50));
       (3%nat, (TimerTick, Val 1000))].
Proof. vm_compute. split; reflexivity. Qed.

Example after24_game :
  game after24
  = mkGame true false 24 24 [] (Some 2%nat) (Some 1%nat) (Some 3%nat) "normal" [10; 20]
  ∧ timeouts (timers after24) = [] ∧ waterDrops (page after24) = [].
Proof. vm_compute. split_and!; reflexivity. Qed.

Example finished_game :
  game finished = mkGame false false 25 24 [] None None None "normal" [10; 20]
  ∧ intervals (timers finished) = []
  ∧ dialog finished
    = (Some (WonMessage "normal" 25 24), Some (Str "🎉 Congratulations!"))
  ∧ propOf "gameOverModal" "style.display" finished = Some (Str "block").
Proof. vm_compute. split_and!; reflexivity. Qed.

(** ** No-ops *)

(** C6: the pause button's method does nothing while no session is being
    played ([pause()] and [resume()] are the one method [togglePause]; in a
    session that is being played it flips the paused flag, see
    [togglePause_frame]), and [startGame] does nothing while a session is
    being played, paused or not: each returns normally with the whole state
    (game object, page, timers, console and sounds) unchanged. *)
Theorem pause_and_start_are_silent_noops (w : World) :
  (isPlaying (game w) = false →
     togglePause w = w ∧ handler ClickPause w = Normal w) ∧
  (isPlaying (game w) = true →
     startGame w = Normal w ∧ handler ClickStart w = Normal w).
Proof.
  split; intros Hplaying.
  - assert (togglePause w = w) as Heq
      by (unfold togglePause; now rewrite Hplaying).
    split; [exact Heq | simpl; now rewrite Heq].
  - assert (startGame w = Normal w) as Heq
      by (unfold startGame; now rewrite Hplaying).
    split; [exact Heq | exact Heq].
Qed.

Lemma pause_and_start_are_silent_noops_witness :
  (isPlaying (game loaded) = false
   ∧ togglePause loaded = loaded ∧ handler ClickPause loaded = Normal loaded) ∧
  (isPlaying (game started) = true
   ∧ startGame started = Normal started ∧ handler ClickStart started = Normal started).
Proof.
  split; (split; [reflexivity|]).
  - apply (proj1 (pause_and_start_are_silent_noops loaded)). reflexivity.
  - apply (proj2 (pause_and_start_are_silent_noops started)). reflexivity.
Defined.

(** ** What the timer bookkeeping leaves alone *)

Lemma clearStored_core stored reset w :
  (∀ h g, core (reset h g) = core g) →
  core (game (clearStored stored reset w)) = core (game w)
  ∧ page (clearStored stored reset w) = page w
  ∧ timeouts (timers (clearStored stored reset w)) = timeouts (timers w).
Proof.
  intros Hreset. unfold clearStored.
  destruct (stored (game w)) as [[|h]|]; simpl; auto.
Qed.

Lemma clearIntervals_core w :
  core (game (clearIntervals w)) = core (game w)
  ∧ page (clearIntervals w) = page w
  ∧ timeouts (timers (clearIntervals w)) = timeouts (timers w).
Proof.
  unfold clearIntervals.
  destruct (clearStored_core gameInterval set_gameInterval w) as (g1 & p1 & t1);
    [reflexivity|].
  destruct (clearStored_core dropSpawnInterval set_dropSpawnInterval
              (clearStored gameInterval set_gameInterval w)) as (g2 & p2 & t2);
    [reflexivity|].
  destruct (clearStored_core timerInterval set_timerInterval
              (clearStored dropSpawnInterval set_dropSpawnInterval
                 (clearStored gameInterval set_gameInterval w))) as (g3 & p3 & t3);
    [reflexivity|].
  rewrite g3, g2, g1, p3, p2, p1, t3, t2, t1. auto.
Qed.

(** [resetGame] zeroes the session and keeps the flags. *)
Lemma resetGame_core w :
  core (game (resetGame w))
  = (isPlaying (game w), isPaused (game w), 0, 0, [], difficulty (game w), [])
  ∧ waterDrops (page (resetGame w)) = []
  ∧ milestoneDisplay (page (resetGame w)) = [].
Proof.
  unfold resetGame.
  match goal with |- context [clearIntervals ?x] =>
    destruct (clearIntervals_core x) as (g & p & _); rewrite g, p end.
  auto.
Qed.

(** [startGame] on a session that is not being played, whether or not it
    then throws for want of a setting. *)
Lemma startGame_core w :
  isPlaying (game w) = false →
  core (game (after (startGame w))) = (true, false, 0, 0, [], difficulty (game w), [])
  ∧ waterDrops (page (after (startGame w))) = [].
Proof.
  intros Hended.
  destruct (resetGame_core w) as (Hcore & Hdrops & _).
  unfold startGame. rewrite Hended.
  match goal with |- context [startGameLoop ?x] => set (w2 := x) end.
  assert (core (game w2) = (true, false, 0, 0, [], difficulty (game w), [])
          ∧ waterDrops (page w2) = []) as [Hg Hp].
  { subst w2. destruct (hasInstructions _); cbn.
    all: unfold core in *; cbn; injection Hcore as Hplay _ Hscore Htime Hd Hdiff Hach.
    all: rewrite Hscore, Htime, Hd, Hdiff, Hach, Hdrops; auto. }
  clearbody w2. unfold startGameLoop, startTimer.
  destruct (settingsOf (difficulty (game w2))) eqn:Hsettings; cbn;
    rewrite ?Hsettings; cbn; auto.
Qed.

(** ** Restart *)

(** C7: [startGame] on a session that is not being played (a finished one in
    particular) first resets -- score 0, no drops, no achieved milestones,
    elapsed time 0, no drop element left in the game area, while the session
    is still not playing -- and ends with the session playing, not paused,
    and those values still reset. *)
Theorem startGame_resets_session (w : World) :
  isPlaying (game w) = false →
  let reset := resetGame w in
  let w' := after (startGame w) in
  (isPlaying (game reset) = false
   ∧ score (game reset) = 0 ∧ drops (game reset) = []
   ∧ achievedMilestones (game reset) = [] ∧ gameTime (game reset) = 0
   ∧ waterDrops (page reset) = [])
  ∧ (isPlaying (game w') = true ∧ isPaused (game w') = false
     ∧ score (game w') = 0 ∧ drops (game w') = []
     ∧ achievedMilestones (game w') = [] ∧ gameTime (game w') = 0
     ∧ waterDrops (page w') = []).
Proof.
  intros Hended reset w'.
  destruct (resetGame_core w) as (Hcore & Hdrops & _).
  destruct (startGame_core w Hended) as (Hcore' & Hdrops').
  unfold core in Hcore, Hcore'.
  injection Hcore as Hplay _ Hscore Htime Hd _ Hach.
  injection Hcore' as Hplay' Hpause' Hscore' Htime' Hd' _ Hach'.
  subst reset w'. rewrite Hplay, Hended. split_and!; solve [assumption | reflexivity].
Qed.

Lemma startGame_resets_session_witness :
  isPlaying (game finished) = false
  ∧ score (game finished) = 25
  ∧ score (game (after (startGame finished))) = 0
  ∧ isPlaying (game (after (startGame finished))) = true.
Proof.
  split; [vm_compute; reflexivity|]. split; [vm_compute; reflexivity|].
  pose proof (startGame_resets_session finished ltac:(vm_compute; reflexivity))
    as (_ & Hplay & _ & Hscore & _).
  split; [exact Hscore | exact Hplay].
Defined.

(** ** Milestones leave the rest of the state alone *)

Lemma checkMilestone_besides m w :
  besidesMilestones (checkMilestone m w) = besidesMilestones w.
Proof.
  unfold checkMilestone.
  destruct (_ && _); reflexivity.
Qed.

Lemma forEach_besides l w :
  besidesMilestones (forEach l checkMilestone w) = besidesMilestones w.
Proof.
  unfold forEach. revert w.
  induction l as [|m l IH]; intros w; simpl; [reflexivity|].
  rewrite IH. apply checkMilestone_besides.
Qed.

Lemma checkMilestones_besides w :
  besidesMilestones (checkMilestones w) = besidesMilestones w.
Proof. apply forEach_besides. Qed.

Lemma set_achievedMilestones_eq g g' :
  set_achievedMilestones [] g' = set_achievedMilestones [] g →
  g' = set_achievedMilestones (achievedMilestones g') g.
Proof.
  intros H.
  change g' with
    (set_achievedMilestones (achievedMilestones g') (set_achievedMilestones [] g')).
  rewrite H. reflexivity.
Qed.

Lemma checkMilestones_game w :
  game (checkMilestones w)
  = set_achievedMilestones (achievedMilestones (game (checkMilestones w))) (game w).
Proof.
  apply set_achievedMilestones_eq.
  exact (f_equal fst (checkMilestones_besides w)).
Qed.

(** ** Collecting a drop *)

(** The two failing ways change the console only. *)
Lemma collectDrop_not_found dropId w :
  collectOutcome dropId w = NotFound →
  collectDrop dropId w = log (LogNotFound dropId) (log (LogAttempt dropId) w).
Proof.
  unfold collectOutcome, collectDrop. cbn.
  destruct (list_find _ _) as [[i d]|]; [destruct (collected d)|]; congruence.
Qed.

Lemma collectDrop_already dropId w :
  collectOutcome dropId w = AlreadyCollected →
  collectDrop dropId w = log (LogAlreadyCollected dropId) (log (LogAttempt dropId) w).
Proof.
  unfold collectOutcome, collectDrop. cbn.
  destruct (list_find _ _) as [[i d]|]; [destruct (collected d)|]; congruence.
Qed.

(** The successful way: the drop found is marked, the score goes up by one,
    milestones are checked, and the last line logged is the new score. *)
Lemma collectDrop_collected dropId w i d :
  collectOutcome dropId w = Collected i d →
  game (collectDrop dropId w)
  = set_achievedMilestones (achievedMilestones (game (collectDrop dropId w)))
      (set_score (score (game w) + 1)
         (set_drops (<[i := markCollected d]> (drops (game w))) (game w)))
  ∧ last (console (collectDrop dropId w)) = Some (LogCollected (score (game w) + 1)).
Proof.
  unfold collectOutcome, collectDrop. cbn.
  destruct (list_find _ _) as [[j e]|]; [destruct (collected e) eqn:He|]; try congruence.
  intros [= -> ->].
  match goal with |- context [checkMilestones ?x] => set (w1 := x) end. simpl.
  pose proof (checkMilestones_game w1) as Hgame.
  assert (score (game (checkMilestones w1)) = score (game w) + 1) as Hscore
    by (rewrite Hgame; reflexivity).
  split; [exact Hgame|]. rewrite last_snoc, Hscore. reflexivity.
Qed.

Lemma collectOutcome_found dropId w i d :
  collectOutcome dropId w = Collected i d →
  drops (game w) !! i = Some d ∧ id d = dropId ∧ collected d = false
  ∧ ∀ j e, drops (game w) !! j = Some e → (j < i)%nat → id e ≠ dropId.
Proof.
  unfold collectOutcome.
  destruct (list_find _ _) as [[j e]|] eqn:Hfind; [destruct (collected e) eqn:He|];
    try congruence.
  intros [= -> ->]. apply list_find_Some in Hfind as (Hi & Hid & Hleast). auto.
Qed.

(** C3: when a call of [collectDrop] collects a drop, the score goes up by
    exactly one, and a second call with the same id finds the drop already
    collected: it logs that and changes nothing else, neither the game object
    (score, drops) nor the page nor the timers.  Over the two calls the score
    has gone up by one. *)
Theorem collectDrop_twice (dropId : string) (w : World) (i : nat) (d : Drop) :
  collectOutcome dropId w = Collected i d →
  let w1 := collectDrop dropId w in
  let w2 := collectDrop dropId w1 in
  score (game w1) = score (game w) + 1
  ∧ last (console w1) = Some (LogCollected (score (game w) + 1))
  ∧ collectOutcome dropId w1 = AlreadyCollected
  ∧ w2 = log (LogAlreadyCollected dropId) (log (LogAttempt dropId) w1)
  ∧ game w2 = game w1 ∧ page w2 = page w1 ∧ timers w2 = timers w1
  ∧ score (game w2) = score (game w) + 1.
Proof.
  intros Hfirst w1 w2.
  destruct (collectDrop_collected dropId w i d Hfirst) as [Hgame Hlog].
  destruct (collectOutcome_found dropId w i d Hfirst) as (Hi & Hid & _ & Hleast).
  assert (Hscore : score (game w1) = score (game w) + 1).
  { subst w1. rewrite Hgame. reflexivity. }
  assert (Hsecond : collectOutcome dropId w1 = AlreadyCollected).
  { unfold collectOutcome. subst w1. rewrite Hgame. cbn.
    rewrite (proj2 (list_find_insert_Some (λ drop, id drop = dropId)
      (drops (game w)) i i (markCollected d) (markCollected d))); [reflexivity|].
    right; left. split_and!; try done.
    eapply lookup_lt_Some; eassumption. }
  assert (Hw2 : w2 = log (LogAlreadyCollected dropId) (log (LogAttempt dropId) w1)).
  { subst w2. now apply collectDrop_already. }
  split_and!; try done.
  all: rewrite Hw2; try reflexivity. exact Hscore.
Qed.

Lemma collectDrop_twice_witness :
  collectOutcome "drop_1000_7" oneDrop = Collected 0%nat (mkDrop "drop_1000_7" 0%nat false)
  ∧ score (game oneDrop) = 0
  ∧ score (game (collectDrop "drop_1000_7" oneDrop)) = 1
  ∧ score (game (collectDrop "drop_1000_7" (collectDrop "drop_1000_7" oneDrop))) = 1.
Proof.
  assert (collectOutcome "drop_1000_7" oneDrop
          = Collected 0%nat (mkDrop "drop_1000_7" 0%nat false)) as Hfirst
    by (vm_compute; reflexivity).
  pose proof (collectDrop_twice "drop_1000_7" oneDrop 0%nat _ Hfirst)
    as (Hone & _ & _ & _ & _ & _ & _ & Htwo).
  split; [exact Hfirst|]. split; [reflexivity|]. split; [exact Hone | exact Htwo].
Defined.

(** ** Milestones *)

Lemma checkMilestone_achieved m w :
  score (game (checkMilestone m w)) = score (game w)
  ∧ achievedMilestones (game (checkMilestone m w))
    = achievedMilestones (game w)
      ++ (if bool_decide (m ≤ score (game w))
             && negb (bool_decide (m ∈ achievedMilestones (game w)))
          then [m] else []).
Proof.
  unfold checkMilestone. destruct (_ && _); simpl; [done|].
  now rewrite app_nil_r.
Qed.

(** One pass over the thresholds [l]: what is appended is new, free of
    repetitions and reached, in the order of [l], and every reached
    threshold is achieved afterwards. *)
Lemma forEach_achieved l w :
  ∃ new,
    achievedMilestones (game (forEach l checkMilestone w))
    = achievedMilestones (game w) ++ new
    ∧ NoDup new
    ∧ new `sublist_of` l
    ∧ (∀ m, m ∈ new → m ∈ l ∧ m ≤ score (game w) ∧ m ∉ achievedMilestones (game w))
    ∧ (∀ m, m ∈ l → m ≤ score (game w) → m ∈ achievedMilestones (game w) ++ new).
Proof.
  unfold forEach. revert w. induction l as [|m l IH]; intros w; simpl.
  - exists []. rewrite app_nil_r. split_and!; [done|constructor|constructor|..].
    + intros m Hm. inversion Hm.
    + intros m Hm. inversion Hm.
  - destruct (checkMilestone_achieved m w) as [Hscore Hach].
    destruct (IH (checkMilestone m w)) as (new & Heq & Hnodup & Hsub & Hnew & Hall).
    rewrite Hscore in Hnew, Hall. rewrite Hach in Heq, Hnew, Hall.
    destruct (bool_decide (m ≤ score (game w))
              && negb (bool_decide (m ∈ achievedMilestones (game w)))) eqn:Hcond.
    + apply andb_true_iff in Hcond as [Hle Hnotin].
      apply bool_decide_eq_true in Hle.
      apply negb_true_iff, bool_decide_eq_false in Hnotin.
      exists (m :: new). rewrite Heq, <- app_assoc. simpl.
      split_and!; [done| |now apply sublist_skip|..].
      * constructor; [|done]. intros Hin. apply Hnew in Hin as (_ & _ & Hin).
        apply Hin. set_solver.
      * intros x [->|Hx]%elem_of_cons; [set_solver|].
        apply Hnew in Hx as (? & ? & Hx). set_solver.
      * intros x [->|Hx]%elem_of_cons Hle'; [set_solver|].
        specialize (Hall x Hx Hle'). rewrite <- app_assoc in Hall. exact Hall.
    + rewrite app_nil_r in Heq, Hnew, Hall. exists new.
      split_and!; [done|done|now apply sublist_cons|..].
      * intros x Hx. apply Hnew in Hx as (? & ? & ?). set_solver.
      * intros x [->|Hx]%elem_of_cons Hle'; [|auto].
        apply andb_false_iff in Hcond as [Hc|Hc].
        -- apply bool_decide_eq_false in Hc. lia.
        -- apply negb_false_iff, bool_decide_eq_true in Hc. set_solver.
Qed.

Lemma checkMilestone_logged m w :
  console (checkMilestone m w)
  = console w ++ (LogMilestone <$> newlyAchieved w (checkMilestone m w)).
Proof.
  unfold newlyAchieved. destruct (checkMilestone_achieved m w) as [_ ->].
  rewrite drop_app_length. unfold checkMilestone.
  destruct (_ && _); simpl; [done|]. now rewrite app_nil_r.
Qed.

(** What a pass reports on the console is what it appends to the achieved
    list. *)
Lemma forEach_logged l w :
  console (forEach l checkMilestone w)
  = console w ++ (LogMilestone <$> newlyAchieved w (forEach l checkMilestone w)).
Proof.
  unfold forEach. revert w. induction l as [|m l IH]; intros w; simpl.
  - unfold newlyAchieved. rewrite drop_all. simpl. now rewrite app_nil_r.
  - rewrite IH, checkMilestone_logged. unfold newlyAchieved.
    destruct (forEach_achieved l (checkMilestone m w)) as (new & Heq & _).
    unfold forEach in Heq. rewrite Heq.
    destruct (checkMilestone_achieved m w) as [_ ->].
    rewrite !drop_app_length, <- !app_assoc, drop_app_length, fmap_app.
    reflexivity.
Qed.

(** A pass in which every reached threshold is already achieved changes
    nothing at all. *)
Lemma forEach_idle l w :
  (∀ m, m ∈ l → m ≤ score (game w) → m ∈ achievedMilestones (game w)) →
  forEach l checkMilestone w = w.
Proof.
  unfold forEach. induction l as [|m l IH]; intros Hall; simpl; [done|].
  assert (checkMilestone m w = w) as ->.
  { unfold checkMilestone.
    destruct (bool_decide (m ≤ score (game w))) eqn:Hle; simpl; [|done].
    apply bool_decide_eq_true in Hle.
    rewrite bool_decide_eq_true_2; [done|]. apply Hall; [set_solver|done]. }
  apply IH. intros x Hx. apply Hall. set_solver.
Qed.

Lemma evaluate_achieved s w :
  ∃ new,
    newlyAchieved w (evaluate s w) = new
    ∧ achievedMilestones (game (evaluate s w)) = achievedMilestones (game w) ++ new
    ∧ NoDup new
    ∧ new `sublist_of` milestones
    ∧ (∀ m, m ∈ new → m ∈ milestones ∧ m ≤ s ∧ m ∉ achievedMilestones (game w))
    ∧ (∀ m, m ∈ milestones → m ≤ s → m ∈ achievedMilestones (game (evaluate s w))).
Proof.
  destruct (forEach_achieved milestones (withGame (set_score s) w))
    as (new & Heq & Hnodup & Hsub & Hnew & Hall).
  change (achievedMilestones (game (withGame (set_score s) w)))
    with (achievedMilestones (game w)) in Heq, Hnew, Hall.
  change (score (game (withGame (set_score s) w))) with s in Hnew, Hall.
  exists new. unfold newlyAchieved, evaluate, checkMilestones.
  rewrite Heq, drop_app_length. split_and!; done.
Qed.

Lemma evaluateAll_keeps scores w m :
  m ∈ achievedMilestones (game w) →
  m ∈ achievedMilestones (game (evaluateAll scores w)).
Proof.
  unfold evaluateAll. revert w. induction scores as [|s scores IH]; intros w Hm; simpl; [done|].
  apply IH. destruct (evaluate_achieved s w) as (new & _ & -> & _).
  apply elem_of_app. now left.
Qed.

Lemma batches_fresh scores w :
  NoDup (concat (batches scores w))
  ∧ (∀ m, m ∈ concat (batches scores w) → m ∉ achievedMilestones (game w))
  ∧ Forall (λ batch, batch `sublist_of` milestones) (batches scores w).
Proof.
  revert w. induction scores as [|s scores IH]; intros w; simpl.
  - split_and!; [constructor| |constructor]. intros m Hm. inversion Hm.
  - destruct (evaluate_achieved s w) as (new & -> & Hach & Hnodup & Hsub & Hnew & _).
    destruct (IH (evaluate s w)) as (IHnodup & IHfresh & IHsub). rewrite Hach in IHfresh.
    split_and!.
    + apply NoDup_app. split_and!; [done| |done].
      intros m Hm Hm'. apply IHfresh in Hm'. apply Hm', elem_of_app. now right.
    + intros m [Hm|Hm]%elem_of_app.
      * now apply Hnew in Hm.
      * apply IHfresh in Hm. intros Hin. apply Hm, elem_of_app. now left.
    + now constructor.
Qed.

(** C5: over any sequence of evaluations (non-decreasing or not, from any
    state) no threshold is reported twice, and none that was achieved
    before, every batch lists its thresholds in the order of
    [this.milestones], which is ascending, and a batch is what the call logs
    as achieved; once a score [s] has been
    evaluated, evaluating a score [s'] that is lower or equal is a no-op of
    [checkMilestones], also after further evaluations in between; and from a
    fresh game the scores 5, 10, 15, 25, 30 report nothing, 10, nothing, 20
    and 30. *)
Theorem milestones_reported_once (scores later : list Z) (w : World) (s s' : Z) :
  (NoDup (concat (batches scores w))
   ∧ (∀ m, m ∈ concat (batches scores w) → m ∉ achievedMilestones (game w))
   ∧ Forall (λ batch, batch `sublist_of` [10; 20; 30]) (batches scores w)
   ∧ console (evaluate s w)
     = console w ++ (LogMilestone <$> newlyAchieved w (evaluate s w)))
  ∧ (s' ≤ s →
     let w1 := withGame (set_score s') (evaluateAll later (evaluate s w)) in
     checkMilestones w1 = w1)
  ∧ batches [5; 10; 15; 25; 30] loaded = [[]; [10]; []; [20]; [30]].
Proof.
  split.
  { destruct (batches_fresh scores w) as (? & ? & ?). split_and!; [done..|].
    apply (forEach_logged milestones (withGame (set_score s) w)). }
  split; [|vm_compute; reflexivity].
  intros Hle w1. apply forEach_idle. subst w1. simpl. intros m Hm Hms.
  apply evaluateAll_keeps.
  destruct (evaluate_achieved s w) as (new & _ & _ & _ & _ & _ & Hall).
  apply Hall; [done|lia].
Qed.

Lemma milestones_reported_once_witness :
  10 ≤ 15
  ∧ checkMilestones (withGame (set_score 10) (evaluateAll [12] (evaluate 15 loaded)))
    = withGame (set_score 10) (evaluateAll [12] (evaluate 15 loaded)).
Proof.
  split; [lia|].
  apply (proj1 (proj2 (milestones_reported_once [] [12] loaded 15 10))). lia.
Defined.

(** ** Drops that leave the game area *)

Lemma filter_all {A : Type} (P : A → Prop) `{!∀ x, Decision (P x)} (l : list A) :
  (∀ x, x ∈ l → P x) → filter P l = l.
Proof.
  induction l as [|x l IH]; intros Hall; [done|].
  rewrite filter_cons_True by (apply Hall; left).
  rewrite IH; [done|]. intros y Hy. apply Hall. now right.
Qed.

Lemma filterDrops_spec env l w :
  filterDrops env l w
  = (filter (λ d, collected d = false ∧ rectTop env (element d) ≤ areaBottom env) l,
     withPage (set_waterDrops
       (filter (λ e, node e ∉ element <$> fallen env l) (waterDrops (page w)))) w).
Proof.
  revert w. induction l as [|d l IH]; intros w.
  - simpl. f_equal. unfold fallen. simpl.
    rewrite filter_all; [done|]. intros e _ Hin. inversion Hin.
  - simpl. unfold fallen. rewrite !filter_cons.
    destruct (collected d) eqn:Hc.
    + rewrite IH.
      rewrite decide_False by (intros [? _]; congruence).
      rewrite decide_False by (intros [? _]; congruence). done.
    + case_bool_decide as Hfall.
      * rewrite IH.
        rewrite decide_False by (intros [_ ?]; lia).
        rewrite decide_True by done. fold (fallen env l).
        assert (filter (λ e, node e ∉ element <$> fallen env l)
                  (filter (λ e, node e ≠ element d) (waterDrops (page w)))
                = filter (λ e, node e ∉ element <$> d :: fallen env l)
                    (waterDrops (page w))) as Hfilter.
        { rewrite list_filter_filter. apply list_filter_iff.
          intros e. rewrite fmap_cons, not_elem_of_cons. naive_solver. }
        unfold removeElement, withPage. simpl. rewrite Hfilter. reflexivity.
      * rewrite IH.
        rewrite decide_True by (split; [done|lia]).
        rewrite decide_False by (intros [_ ?]; lia). done.
Qed.

Lemma updateDrops_spec env w :
  updateDrops env w
  = withGame (set_drops
      (filter (λ d, collected d = false ∧ rectTop env (element d) ≤ areaBottom env)
         (drops (game w))))
      (withPage (set_waterDrops
         (filter (λ e, node e ∉ element <$> fallen env (drops (game w)))
            (waterDrops (page w)))) w).
Proof. unfold updateDrops. now rewrite filterDrops_spec. Qed.

(** C2, amended: [updateDrops] keeps a drop exactly when it is not marked
    collected and the top of its element is not below the bottom of the game
    area; it detaches the elements of the uncollected drops that are below
    and of no other; the clock and the random source have no part in it, no
    other field of the game object changes, and a drop has no field in which
    an expiry could be recorded. *)
Theorem updateDrops_by_position (env : Env) (w : World) :
  (∀ d, d ∈ drops (game (updateDrops env w)) ↔
          d ∈ drops (game w) ∧ collected d = false
          ∧ rectTop env (element d) ≤ areaBottom env)
  ∧ (∀ e, e ∈ waterDrops (page (updateDrops env w)) ↔
          e ∈ waterDrops (page w)
          ∧ ∀ d, d ∈ drops (game w) → collected d = false →
                 areaBottom env < rectTop env (element d) → element d ≠ node e)
  ∧ (∀ t r, updateDrops (mkEnv t r (rectTop env) (areaBottom env)) w
            = updateDrops env w)
  ∧ game (updateDrops env w)
    = set_drops (drops (game (updateDrops env w))) (game w).
Proof.
  rewrite updateDrops_spec. simpl. split_and!.
  - intros d. rewrite list_elem_of_filter. naive_solver.
  - intros e. rewrite list_elem_of_filter, list_elem_of_fmap. unfold fallen.
    split.
    + intros [Hnot He]. split; [done|]. intros d Hd Hc Hfall Heq.
      apply Hnot. exists d. split; [done|]. apply list_elem_of_filter. done.
    + intros [He Hnone]. split; [|done]. intros (d & Heq & Hd).
      apply list_elem_of_filter in Hd as [[Hc Hfall] Hd].
      now apply (Hnone d).
  - intros t r. now rewrite updateDrops_spec.
  - reflexivity.
Qed.

(** C2 as stated fails: a drop spawned at time 1000 on normal difficulty
    (2000 ms to fall), the game paused for a while and resumed, and the game
    loop running at time 9000 while the element is still above the bottom of
    the game area.  The fall duration has long elapsed and the drop stays. *)
Lemma expiry_not_by_elapsed_time :
  drops (game afterPause) = [mkDrop "drop_1000_7" 0%nat false]
  ∧ isPlaying (game afterPause) = true ∧ isPaused (game afterPause) = false
  ∧ field dropSpeed (settingsOf (difficulty (game afterPause))) = Val 2000
  ∧ 2000 ≤ 9000 - 1000
  ∧ drops (game (step afterPause lateLoop)) = [mkDrop "drop_1000_7" 0%nat false]
  ∧ node <$> waterDrops (page (step afterPause lateLoop)) = [0%nat].
Proof. vm_compute. split_and!; try reflexivity. discriminate. Qed.

(** ** The session's control state and the dialog *)

(** Assignments to other properties leave the dialog as it is. *)
Ltac dialog_frame :=
  unfold dialog, propOf; simpl;
  repeat (rewrite filter_cons_False by (simpl; discriminate));
  try reflexivity.

Lemma checkMilestones_control w : control (checkMilestones w) = control w.
Proof.
  pose proof (checkMilestones_besides w) as H. unfold besidesMilestones in H.
  unfold control. inversion H. congruence.
Qed.

Lemma checkMilestones_dialog w : dialog (checkMilestones w) = dialog w.
Proof.
  pose proof (checkMilestones_besides w) as H. unfold besidesMilestones in H.
  unfold dialog, propOf. inversion H. congruence.
Qed.

Lemma collectDrop_control dropId w : control (collectDrop dropId w) = control w.
Proof.
  unfold collectDrop. simpl.
  destruct (list_find _ _) as [[i d]|]; [destruct (collected d)|]; try reflexivity.
  match goal with |- context [checkMilestones ?x] => set (w1 := x) end.
  change (control (checkMilestones w1) = control w).
  now rewrite checkMilestones_control.
Qed.

Lemma collectDrop_dialog dropId w : dialog (collectDrop dropId w) = dialog w.
Proof.
  unfold collectDrop. simpl.
  destruct (list_find _ _) as [[i d]|]; [destruct (collected d)|]; try reflexivity.
  match goal with |- context [checkMilestones ?x] => set (w1 := x) end.
  change (dialog (checkMilestones w1) = dialog w).
  rewrite checkMilestones_dialog. subst w1.
  dialog_frame.
Qed.

Lemma clearIntervals_dialog w : dialog (clearIntervals w) = dialog w.
Proof.
  destruct (clearIntervals_core w) as (_ & Hpage & _).
  unfold dialog, propOf. now rewrite Hpage.
Qed.

Lemma resetGame_dialog w : dialog (resetGame w) = dialog w.
Proof. unfold resetGame. rewrite clearIntervals_dialog. dialog_frame. Qed.

Lemma startGame_dialog w : dialog (after (startGame w)) = dialog w.
Proof.
  unfold startGame. destruct (isPlaying (game w)); [reflexivity|].
  match goal with |- context [startGameLoop ?x] => set (w2 := x) end.
  assert (dialog w2 = dialog w) as <-.
  { subst w2. rewrite <- (resetGame_dialog w).
    destruct (hasInstructions _); dialog_frame. }
  clearbody w2. unfold startGameLoop, startTimer.
  destruct (settingsOf (difficulty (game w2))) eqn:Hsettings; simpl;
    rewrite ?Hsettings; reflexivity.
Qed.

Lemma updateDifficultyDisplay_frame w :
  control (after (updateDifficultyDisplay w)) = control w
  ∧ dialog (after (updateDifficultyDisplay w)) = dialog w.
Proof.
  unfold updateDifficultyDisplay.
  destruct (field _ _); split; try reflexivity; dialog_frame.
Qed.

Lemma spawnDrop_frame env w :
  control (after (spawnDrop env w)) = control w
  ∧ dialog (after (spawnDrop env w)) = dialog w.
Proof.
  unfold spawnDrop. simpl.
  destruct (field _ _); split; reflexivity.
Qed.

Lemma updateDrops_frame env w :
  control (updateDrops env w) = control w ∧ dialog (updateDrops env w) = dialog w
  ∧ score (game (updateDrops env w)) = score (game w).
Proof. rewrite updateDrops_spec. split_and!; reflexivity. Qed.

Lemma dropCleanup_frame dropElement dropId w :
  control (dropCleanup dropElement dropId w) = control w
  ∧ dialog (dropCleanup dropElement dropId w) = dialog w.
Proof.
  unfold dropCleanup.
  destruct (attached dropElement w); destruct (list_find _ _) as [[i d]|];
    split; reflexivity.
Qed.

Lemma togglePause_frame w :
  isPlaying (game (togglePause w)) = isPlaying (game w)
  ∧ gameTime (game (togglePause w)) = gameTime (game w)
  ∧ difficulty (game (togglePause w)) = difficulty (game w)
  ∧ intervals (timers (togglePause w)) = intervals (timers w)
  ∧ isPaused (game (togglePause w))
    = (if isPlaying (game w) then negb (isPaused (game w)) else isPaused (game w))
  ∧ dialog (togglePause w) = dialog w.
Proof.
  unfold togglePause.
  destruct (isPlaying (game w)) eqn:Hplaying; simpl;
    [|rewrite ?Hplaying; split_and!; reflexivity].
  destruct (isPaused (game w)) eqn:Hpaused; simpl; rewrite ?Hplaying, ?Hpaused;
    split_and!; try reflexivity; dialog_frame.
Qed.

(** ** Ending a session *)

(** [endGame(true)] with a setting to show: the session stops playing, the
    dialog congratulates, and score, clock and difficulty stay. *)
Lemma endGame_won w :
  settingsOf (difficulty (game w)) ≠ Missing →
  ∃ w', endGame true w = Normal w'
    ∧ isPlaying (game w') = false
    ∧ (isPaused (game w'), score (game w'), gameTime (game w'), difficulty (game w'))
      = (isPaused (game w), score (game w), gameTime (game w), difficulty (game w))
    ∧ dialog w' = wonDialog w.
Proof.
  intros Hsettings. unfold endGame, showWinModal.
  match goal with |- context [clearIntervals ?x] => set (w1 := x) end.
  destruct (clearIntervals_core w1) as (Hcore & Hpage & _).
  pose proof (clearIntervals_dialog w1) as Hdialog.
  unfold core in Hcore. injection Hcore as Hplay Hpause Hscore Htime _ Hdiff _.
  set (w2 := clearIntervals w1) in *. clearbody w2. simpl.
  rewrite Hdiff. subst w1. simpl.
  destruct (settingsOf (difficulty (game w))) eqn:Hs; [| |done]; simpl.
  all: eexists; split; [reflexivity|].
  all: destruct (hasInstructions (page w2)); simpl.
  all: rewrite Hplay, Hpause, Hscore, Htime, Hdiff; simpl.
  all: split_and!; try reflexivity.
  all: unfold wonDialog; dialog_frame.
  all: rewrite filter_cons_True by reflexivity; reflexivity.
Qed.

(** The win check either ends the session as won, the score having reached
    the target of the current difficulty, or does nothing at all. *)
Lemma checkWinCondition_cases w :
  (∃ d, settingsOf (difficulty (game w)) = Own d
        ∧ targetScore d ≤ score (game w)
        ∧ isPlaying (game (after (checkWinCondition w))) = false
        ∧ dialog (after (checkWinCondition w)) = wonDialog w)
  ∨ ((∀ d, settingsOf (difficulty (game w)) = Own d → score (game w) < targetScore d)
     ∧ after (checkWinCondition w) = w).
Proof.
  unfold checkWinCondition.
  destruct (settingsOf (difficulty (game w))) as [d| |] eqn:Hs; simpl.
  - case_bool_decide as Hle.
    + left. exists d.
      destruct (endGame_won w) as (w' & -> & Hplay & _ & Hdialog); [congruence|].
      simpl. auto.
    + right. split; [|done]. intros d' [= <-]. lia.
  - right. split; [|done]. intros d' [=].
  - right. split; [|done]. intros d' [=].
Qed.

(** ** Reaching the target *)

(** C1, amended: a call of [collectDrop] that collects a drop and brings the
    score to the target of the current difficulty, in a session that is
    playing and not paused, leaves the session playing, with the same
    intervals scheduled and the dialog untouched; the next run of the game
    loop callback ends it: the session stops playing and the dialog
    congratulates with the score reached. *)
Theorem win_detected_by_next_loop (dropId : string) (w : World) (i : nat) (d : Drop)
    (setting : DifficultySetting) (env : Env) :
  collectOutcome dropId w = Collected i d →
  isPlaying (game w) = true →
  isPaused (game w) = false →
  settingsOf (difficulty (game w)) = Own setting →
  targetScore setting ≤ score (game w) + 1 →
  let w1 := collectDrop dropId w in
  let w2 := after (runCallback LoopTick env w1) in
  score (game w1) = score (game w) + 1
  ∧ control w1 = control w
  ∧ dialog w1 = dialog w
  ∧ isPlaying (game w2) = false
  ∧ dialog w2
    = (Some (WonMessage (difficulty (game w)) (score (game w) + 1) (gameTime (game w))),
       Some (Str "🎉 Congratulations!")).
Proof.
  intros Hcollected Hplaying Hpaused Hsetting Htarget w1 w2.
  destruct (collectDrop_collected dropId w i d Hcollected) as [Hgame _].
  pose proof (collectDrop_control dropId w) as Hcontrol.
  pose proof (collectDrop_dialog dropId w) as Hdialog.
  fold w1 in Hgame, Hcontrol, Hdialog.
  assert (score (game w1) = score (game w) + 1) as Hscore by (rewrite Hgame; reflexivity).
  split_and!; try done.
  all: unfold control in Hcontrol; injection Hcontrol as Hplay1 Hpause1 Htime1 Hdiff1 _.
  all: subst w2; unfold runCallback; rewrite Hplay1, Hpause1, Hplaying, Hpaused; simpl.
  all: destruct (updateDrops_frame env w1) as (Hctl & _ & Hscore').
  all: unfold control in Hctl; injection Hctl as _ _ Htime2 Hdiff2 _.
  all: destruct (checkWinCondition_cases (updateDrops env w1))
         as [(d' & _ & _ & Hended & Hwon)|[Hbelow _]].
  all: try (exfalso; specialize (Hbelow setting);
            rewrite Hdiff2, Hdiff1, Hscore', Hscore in Hbelow;
            specialize (Hbelow Hsetting); lia).
  - exact Hended.
  - rewrite Hwon. unfold wonDialog.
    now rewrite Hdiff2, Hdiff1, Hscore', Hscore, Htime2, Htime1.
Qed.

Lemma win_detected_by_next_loop_witness :
  collectOutcome "drop_25000_7" lastDrop
    = Collected 0%nat (mkDrop "drop_25000_7" 26%nat false)
  ∧ isPlaying (game lastDrop) = true
  ∧ isPaused (game lastDrop) = false
  ∧ settingsOf (difficulty (game lastDrop)) = Own normal
  ∧ targetScore normal ≤ score (game lastDrop) + 1
  ∧ isPlaying (game (collectDrop "drop_25000_7" lastDrop)) = true
  ∧ isPlaying (game (after (runCallback LoopTick still
                              (collectDrop "drop_25000_7" lastDrop)))) = false.
Proof.
  assert (collectOutcome "drop_25000_7" lastDrop
          = Collected 0%nat (mkDrop "drop_25000_7" 26%nat false)) as H1
    by (vm_compute; reflexivity).
  assert (isPlaying (game lastDrop) = true) as H2 by (vm_compute; reflexivity).
  assert (isPaused (game lastDrop) = false) as H3 by (vm_compute; reflexivity).
  assert (settingsOf (difficulty (game lastDrop)) = Own normal) as H4
    by (vm_compute; reflexivity).
  assert (targetScore normal ≤ score (game lastDrop) + 1) as H5
    by (vm_compute; discriminate).
  pose proof (win_detected_by_next_loop "drop_25000_7" lastDrop _ _ normal still
                H1 H2 H3 H4 H5) as (_ & _ & _ & Hended & _).
  split_and!; [exact H1|exact H2|exact H3|exact H4|exact H5| |exact Hended].
  vm_compute. reflexivity.
Defined.

(** C1 as stated fails: on normal difficulty (target 25) with 24 drops
    collected, the call of [collectDrop] that collects the 25th brings the
    score to 25 and returns with the session still playing, its three
    intervals still scheduled and no dialog shown. *)
Lemma collect_at_target_keeps_playing :
  isPlaying (game lastDrop) = true ∧ isPaused (game lastDrop) = false
  ∧ score (game lastDrop) = 24
  ∧ field targetScore (settingsOf (difficulty (game lastDrop))) = Val 25
  ∧ collectOutcome "drop_25000_7" lastDrop
    = Collected 0%nat (mkDrop "drop_25000_7" 26%nat false)
  ∧ score (game (collectDrop "drop_25000_7" lastDrop)) = 25
  ∧ isPlaying (game (collectDrop "drop_25000_7" lastDrop)) = true
  ∧ length (intervals (timers (collectDrop "drop_25000_7" lastDrop))) = 3%nat
  ∧ gameOverMessage (page (collectDrop "drop_25000_7" lastDrop)) = None
  ∧ propOf "gameOverModal" "style.display" (collectDrop "drop_25000_7" lastDrop) = None.
Proof. vm_compute. split_and!; reflexivity. Qed.

(** ** A difficulty that is not in the table *)

Lemma settingsOf_missing key :
  settingsOf key = Missing ↔ difficultySettings !! key = None ∧ key ∉ objectPrototype.
Proof.
  unfold settingsOf. destruct (difficultySettings !! key); [naive_solver|].
  case_bool_decide; naive_solver.
Qed.

(** C8, amended: looking up a key that is neither in the table nor a member
    of [Object.prototype] yields [undefined] and raises nothing.  Selecting
    such a key throws after [this.difficulty] has been assigned, and
    [startGame] on a session that is not being played then throws too, but
    only in [startGameLoop]: the session has been reset and is left playing
    and not paused, the start sound has been played and the start button
    hidden, and no interval has been scheduled. *)
Theorem startGame_unknown_difficulty (key : string) (w0 : World) :
  difficultySettings !! key = None →
  key ∉ objectPrototype →
  isPlaying (game w0) = false →
  let w := withGame (set_difficulty key) w0 in
  settingsOf key = Missing
  ∧ handler (ChangeSelect key) w0 = Throws w
  ∧ ∃ w', startGame w = Throws w'
      ∧ core (game w') = (true, false, 0, 0, [], key, [])
      ∧ intervals (timers w') = intervals (timers (resetGame w))
      ∧ played w' = played (resetGame w) ++ ["gameStart"]
      ∧ propOf "startBtn" "style.display" w' = Some (Str "none").
Proof.
  intros Hnone Hproto Hidle w.
  assert (settingsOf key = Missing) as Hmissing by now apply settingsOf_missing.
  split; [done|]. split.
  { simpl. unfold updateDifficultyDisplay. simpl. now rewrite Hmissing. }
  destruct (resetGame_core w) as (Hcore & Hdrops & _).
  unfold core in Hcore. injection Hcore as Hplay Hpause Hscore Htime Hd Hdiff Hach.
  unfold startGame. change (isPlaying (game w)) with (isPlaying (game w0)).
  rewrite Hidle. unfold startGameLoop.
  set (w1 := resetGame w) in *. clearbody w1. simpl in Hdiff. simpl.
  destruct (hasInstructions (page w1)) eqn:Hi; simpl;
    rewrite Hdiff; simpl; rewrite Hmissing; simpl;
    (eexists; split; [reflexivity|]); unfold core; simpl;
    rewrite ?Hscore, ?Htime, ?Hd, ?Hdiff, ?Hach; simpl;
    (split_and!; try reflexivity);
    unfold propOf; simpl;
    repeat (rewrite filter_cons_False by (simpl; discriminate));
    rewrite filter_cons_True by reflexivity; reflexivity.
Qed.

Lemma startGame_unknown_difficulty_witness :
  difficultySettings !! "extreme" = None
  ∧ ("extreme" ∉ objectPrototype)
  ∧ isPlaying (game loaded) = false
  ∧ ∃ w', startGame (withGame (set_difficulty "extreme") loaded) = Throws w'
      ∧ core (game w') = (true, false, 0, 0, [], "extreme", []).
Proof.
  assert (difficultySettings !! "extreme" = None) as H1 by (vm_compute; reflexivity).
  assert ("extreme" ∉ objectPrototype) as H2
    by (apply (bool_decide_unpack _); vm_compute; exact I).
  assert (isPlaying (game loaded) = false) as H3 by reflexivity.
  destruct (startGame_unknown_difficulty "extreme" loaded H1 H2 H3)
    as (_ & _ & w' & Hthrows & Hcore & _).
  split_and!; [exact H1|exact H2|exact H3|].
  exists w'. split; [exact Hthrows | exact Hcore].
Defined.

(** C8 as stated fails: with the key "extreme" selected on a freshly loaded
    page, [startGame] throws and leaves the session playing, with the start
    sound played; the state is not the one before the call. *)
Lemma unknown_difficulty_starts_anyway :
  difficultySettings !! "extreme" = None
  ∧ isPlaying (game extreme) = false
  ∧ difficulty (game extreme) = "extreme"
  ∧ (∃ w', startGame extreme = Throws w')
  ∧ isPlaying (game (after (startGame extreme))) = true
  ∧ played (after (startGame extreme)) = ["gameStart"]
  ∧ intervals (timers (after (startGame extreme))) = []
  ∧ after (startGame extreme) ≠ extreme.
Proof.
  split_and!; try (vm_compute; reflexivity).
  - eexists. vm_compute. reflexivity.
  - intros Heq. apply (f_equal (λ w, isPlaying (game w))) in Heq.
    vm_compute in Heq. discriminate.
Qed.

(** ** One event at a time *)

Lemma control_clock w w' : control w' = control w → clock w' = clock w.
Proof. unfold control, clock. intros H. inversion H. congruence. Qed.

Lemma iter_log_frame n entry w :
  clock (Nat.iter n (log entry) w) = clock w
  ∧ dialog (Nat.iter n (log entry) w) = dialog w.
Proof. induction n as [|n IH]; [done|]. simpl. exact IH. Qed.

Lemma guard_running w :
  negb (isPaused (game w)) && isPlaying (game w) = true ↔ running w.
Proof.
  unfold running. destruct (isPaused (game w)), (isPlaying (game w)); naive_solver.
Qed.

(** Every event is a pass of the game loop in a running session, or a tick
    of the timer in a running session, or a click on the pause button, or a
    start of a session that was not being played, or else leaves the clock,
    the flags, the intervals and the dialog as they were. *)
Lemma step_cases w e :
  (∃ h env, e = IntervalFires h env ∧ scheduled h LoopTick w ∧ running w
            ∧ step w e = after (checkWinCondition (updateDrops env w)))
  ∨ (∃ h env, e = IntervalFires h env ∧ scheduled h TimerTick w ∧ running w
              ∧ clock (step w e)
                = (true, false, gameTime (game w) + 1, intervals (timers w))
              ∧ dialog (step w e) = dialog w)
  ∨ (e = ClickPause ∧ step w e = togglePause w)
  ∨ ((e = ClickStart ∨ e = ClickPlayAgain) ∧ isPlaying (game w) = false
     ∧ isPlaying (game (step w e)) = true ∧ dialog (step w e) = dialog w)
  ∨ (e ≠ ClickPause ∧ clock (step w e) = clock w ∧ dialog (step w e) = dialog w).
Proof.
  destruct e as [| |value| | |onBackdrop| |dropId|h env|h]; unfold step; simpl.
  - (* ClickStart *)
    destruct (isPlaying (game w)) eqn:Hplaying.
    + do 4 right. unfold startGame. rewrite Hplaying. done.
    + do 3 right. left. split; [auto|]. split; [done|].
      destruct (startGame_core w Hplaying) as [Hcore _].
      unfold core in Hcore. injection Hcore as -> _ _ _ _ _ _.
      split; [done|apply startGame_dialog].
  - (* ClickPause *) right; right; left. done.
  - (* ChangeSelect *)
    do 4 right. split; [done|].
    destruct (updateDifficultyDisplay_frame (withGame (set_difficulty value) w))
      as [Hcontrol Hdialog].
    split; [|now rewrite Hdialog]. apply control_clock in Hcontrol. now rewrite Hcontrol.
  - (* ClickPlayAgain *)
    unfold playAgain.
    destruct (isPlaying (game w)) eqn:Hplaying.
    + do 4 right. unfold startGame. simpl. rewrite Hplaying. simpl.
      split; [done|]. split; [reflexivity|dialog_frame].
    + do 3 right. left. split; [auto|]. split; [done|].
      destruct (startGame_core (hideModal w) Hplaying) as [Hcore _].
      unfold core in Hcore. injection Hcore as -> _ _ _ _ _ _.
      split; [done|]. rewrite startGame_dialog. dialog_frame.
  - (* ClickChangeDifficulty *)
    do 4 right. split; [done|]. split; [reflexivity|dialog_frame].
  - (* ClickModal *)
    do 4 right. split; [done|].
    destruct onBackdrop; split; try reflexivity; dialog_frame.
  - (* ClickGameArea *)
    do 4 right. split; [done|]. apply iter_log_frame.
  - (* DropGesture *)
    do 4 right. split; [done|].
    pose proof (collectDrop_control dropId (log (LogDropClicked dropId) w)) as Hcontrol.
    pose proof (collectDrop_dialog dropId (log (LogDropClicked dropId) w)) as Hdialog.
    apply control_clock in Hcontrol. now rewrite Hcontrol, Hdialog.
  - (* IntervalFires *)
    destruct (list_find _ _) as [[k [h' [cb delay]]]|] eqn:Hfind;
      [|do 4 right; done].
    assert (h' = h) as -> by (apply list_find_Some in Hfind as (_ & ? & _); done).
    unfold runCallback.
    destruct (negb (isPaused (game w)) && isPlaying (game w)) eqn:Hguard.
    2: { do 4 right. destruct cb; done. }
    apply guard_running in Hguard. destruct cb.
    + do 4 right. split; [done|].
      destruct (spawnDrop_frame env w) as [Hcontrol Hdialog].
      apply control_clock in Hcontrol. now rewrite Hcontrol, Hdialog.
    + left. exists h, env. split_and!; try done. now exists k, delay.
    + right; left. exists h, env. split; [done|]. split; [now exists k, delay|].
      split; [done|]. destruct Hguard as [Hplaying Hpaused].
      split; [unfold clock; simpl; now rewrite Hplaying, Hpaused | dialog_frame].
  - (* TimeoutFires *)
    do 4 right. split; [done|].
    destruct (list_find _ _) as [[k [h' [cb delay]]]|]; [|done]. simpl.
    destruct cb as [dropElement dropId|message]; simpl.
    + match goal with |- context [dropCleanup _ _ ?x] =>
        destruct (dropCleanup_frame dropElement dropId x) as [Hcontrol Hdialog] end.
      apply control_clock in Hcontrol. now rewrite Hcontrol, Hdialog.
    + done.
Qed.

(** ** Pause *)

(** While a session is paused, no event but a click on the pause button
    moves the clock, the flags or the intervals. *)
Lemma run_while_paused es w :
  isPlaying (game w) = true → isPaused (game w) = true → ClickPause ∉ es →
  clock (run es w) = clock w.
Proof.
  revert w. induction es as [|e es IH]; intros w Hplaying Hpaused Hnot; [done|].
  apply not_elem_of_cons in Hnot as [Hne Hnot].
  assert (clock (step w e) = clock w) as Hstep.
  { destruct (step_cases w e)
      as [(h & env & _ & _ & [_ Hrun] & _)|[(h & env & _ & _ & [_ Hrun] & _)
         |[[-> _]|[(_ & Hidle & _)|(_ & Hclock & _)]]]]; congruence. }
  simpl. rewrite IH; [done|..|done].
  all: unfold clock in Hstep; injection Hstep as H1 H2 _ _; congruence.
Qed.

Lemma timerTick_running h env w :
  scheduled h TimerTick w → running w →
  clock (step w (IntervalFires h env))
  = (true, false, gameTime (game w) + 1, intervals (timers w)).
Proof.
  intros (k & delay & Hfind) [Hplaying Hpaused].
  unfold step. simpl. rewrite Hfind. simpl. rewrite Hplaying, Hpaused. simpl.
  unfold clock. simpl. now rewrite Hplaying, Hpaused.
Qed.

(** C9: from the click that pauses a running session to the click that
    resumes it, whatever happens in between -- timers firing for any length
    of time, clicks on drops and on the other buttons -- the elapsed seconds
    keep the value they had; the session stays paused and its intervals
    stay scheduled.  The resuming click leaves that value in place, and the
    next tick of the timer counts one second on top of it. *)
Theorem pause_freezes_clock (w : World) (es : list Event) (h : handle) (env : Env) :
  running w →
  scheduled h TimerTick w →
  ClickPause ∉ es →
  let paused := run es (step w ClickPause) in
  let resumed := step paused ClickPause in
  clock paused = (true, true, gameTime (game w), intervals (timers w))
  ∧ clock resumed = (true, false, gameTime (game w), intervals (timers w))
  ∧ gameTime (game (step resumed (IntervalFires h env))) = gameTime (game w) + 1.
Proof.
  intros [Hplaying Hpaused] Htimer Hnot paused resumed.
  destruct (togglePause_frame w) as (Hp1 & Ht1 & _ & Hi1 & Hs1 & _).
  rewrite Hplaying, Hpaused in Hs1. simpl in Hs1. rewrite Hplaying in Hp1.
  assert (clock paused = (true, true, gameTime (game w), intervals (timers w)))
    as Hclock.
  { subst paused. rewrite run_while_paused; [|done..].
    unfold clock, step. simpl. now rewrite Hp1, Hs1, Ht1, Hi1. }
  unfold clock in Hclock. injection Hclock as Hp2 Hs2 Ht2 Hi2.
  destruct (togglePause_frame paused) as (Hp3 & Ht3 & _ & Hi3 & Hs3 & _).
  rewrite Hp2, Hs2 in Hs3. simpl in Hs3.
  assert (clock resumed = (true, false, gameTime (game w), intervals (timers w)))
    as Hclock.
  { subst resumed. unfold clock, step. simpl. now rewrite Hp3, Hs3, Ht3, Hi3, Hp2, Ht2, Hi2. }
  split_and!.
  - unfold clock. now rewrite Hp2, Hs2, Ht2, Hi2.
  - exact Hclock.
  - unfold clock in Hclock. injection Hclock as Hp4 Hs4 Ht4 Hi4.
    assert (clock (step resumed (IntervalFires h env))
            = (true, false, gameTime (game resumed) + 1, intervals (timers resumed)))
      as Htick.
    { apply timerTick_running; [|done].
      destruct Htimer as (k & delay & Hfind). exists k, delay. now rewrite Hi4. }
    unfold clock in Htick. injection Htick as _ _ -> _. now rewrite Ht4.
Qed.

Lemma pause_freezes_clock_witness :
  running beforePause ∧ scheduled 3%nat TimerTick beforePause
  ∧ (ClickPause ∉ duringPause)
  ∧ gameTime (game beforePause) = 1
  ∧ clock (run duringPause (step beforePause ClickPause))
    = (true, true, gameTime (game beforePause), intervals (timers beforePause))
  ∧ gameTime (game (step (step (run duringPause (step beforePause ClickPause)) ClickPause)
                          (IntervalFires 3%nat still)))
    = gameTime (game beforePause) + 1.
Proof.
  assert (running beforePause) as H1 by (split; vm_compute; reflexivity).
  assert (scheduled 3%nat TimerTick beforePause) as H2
    by (exists 2%nat, (Val 1000); vm_compute; reflexivity).
  assert (ClickPause ∉ duringPause) as H3.
  { unfold duringPause. rewrite !not_elem_of_cons.
    split_and!; try discriminate. apply not_elem_of_nil. }
  destruct (pause_freezes_clock beforePause duringPause 3%nat still H1 H2 H3)
    as (Hpaused & _ & Htick).
  split_and!; [exact H1|exact H2|exact H3|vm_compute; reflexivity
              |exact Hpaused|exact Htick].
Defined.

(** ** How a session ends *)

Lemma loopTick_running h env w :
  scheduled h LoopTick w → running w →
  step w (IntervalFires h env) = after (checkWinCondition (updateDrops env w)).
Proof.
  intros (k & delay & Hfind) [Hplaying Hpaused].
  unfold step. simpl. rewrite Hfind. simpl. now rewrite Hplaying, Hpaused.
Qed.

(** A pass of the game loop in a running session: the session ends, won,
    exactly when the score has reached the target. *)
Lemma loop_pass env w d :
  isPlaying (game w) = true →
  settingsOf (difficulty (game w)) = Own d →
  let w' := after (checkWinCondition (updateDrops env w)) in
  (targetScore d ≤ score (game w) ∧ isPlaying (game w') = false ∧ dialog w' = wonDialog w)
  ∨ (score (game w) < targetScore d ∧ isPlaying (game w') = true ∧ dialog w' = dialog w).
Proof.
  intros Hplaying Hsetting w'.
  destruct (updateDrops_frame env w) as (Hcontrol & Hdialog & Hscore).
  unfold control in Hcontrol. injection Hcontrol as Hplay _ Htime Hdiff _.
  destruct (checkWinCondition_cases (updateDrops env w))
    as [(d' & Hd' & Hle & Hended & Hwon)|[Hbelow Hsame]].
  - left. rewrite Hdiff, Hsetting in Hd'. injection Hd' as <-.
    rewrite Hscore in Hle. split_and!; [done..|].
    subst w'. rewrite Hwon. unfold wonDialog. now rewrite Hdiff, Hscore, Htime.
  - right. rewrite Hdiff, Hscore in Hbelow. subst w'. rewrite Hsame.
    split_and!; [auto|congruence|done].
Qed.

Lemma step_dialog w e : dialog (step w e) = dialog w ∨ congratulates (step w e).
Proof.
  destruct (step_cases w e)
    as [(h & env & _ & _ & [Hplaying _] & ->)|[(h & env & _ & _ & _ & _ & ?)
       |[[_ ->]|[(_ & _ & _ & ?)|(_ & _ & ?)]]]]; auto.
  - destruct (updateDrops_frame env w) as (_ & Hdialog & _).
    destruct (checkWinCondition_cases (updateDrops env w))
      as [(d' & _ & _ & _ & Hwon)|[_ Hsame]].
    + right. unfold congratulates, wonDialog in *. eauto.
    + left. now rewrite Hsame.
  - left. apply togglePause_frame.
Qed.

Lemma run_dialog es w : dialog (run es w) = dialog w ∨ congratulates (run es w).
Proof.
  revert w. induction es as [|e es IH]; intros w; [now left|]. simpl.
  destruct (IH (step w e)) as [Hsame|Hwon]; [|now right].
  destruct (step_dialog w e) as [Hsame'|Hwon].
  - left. congruence.
  - right. unfold congratulates in *. now rewrite Hsame.
Qed.

(** C10: a step takes a session from playing to not playing only if it is a
    pass of the game loop, in a session that is not paused, with the score at
    or above the target of the current difficulty, and the dialog then
    congratulates; such a pass ends the session exactly when the score has
    reached the target, whatever the elapsed time; and over any sequence of
    events the dialog stays as it was or congratulates: the text of
    [showGameOverModal] is never put there. *)
Theorem only_a_win_ends_a_session :
  (∀ w e, isPlaying (game w) = true → isPlaying (game (step w e)) = false →
     ∃ h env d, e = IntervalFires h env ∧ scheduled h LoopTick w
       ∧ isPaused (game w) = false
       ∧ settingsOf (difficulty (game w)) = Own d
       ∧ targetScore d ≤ score (game w)
       ∧ dialog (step w e) = wonDialog w)
  ∧ (∀ w h env d, running w → scheduled h LoopTick w →
       settingsOf (difficulty (game w)) = Own d →
       (isPlaying (game (step w (IntervalFires h env))) = false
        ↔ targetScore d ≤ score (game w)))
  ∧ (∀ w es, dialog (run es w) = dialog w ∨ congratulates (run es w)).
Proof.
  split_and!.
  - intros w e Hplaying Hended.
    destruct (step_cases w e)
      as [(h & env & -> & Hloop & [_ Hpaused] & Hstep)|[(h & env & _ & _ & _ & Hclock & _)
         |[[_ Hstep]|[(_ & Hidle & _)|(_ & Hclock & _)]]]].
    + rewrite Hstep in Hended |- *.
      destruct (updateDrops_frame env w) as (Hcontrol & _ & Hscore).
      unfold control in Hcontrol. injection Hcontrol as Hplay _ Htime Hdiff _.
      destruct (checkWinCondition_cases (updateDrops env w))
        as [(d & Hd & Hle & _ & Hwon)|[_ Hsame]].
      * exists h, env, d. rewrite Hdiff in Hd. rewrite Hscore in Hle.
        split_and!; [done..|].
        rewrite Hwon. unfold wonDialog. now rewrite Hdiff, Hscore, Htime.
      * rewrite Hsame in Hended. congruence.
    + unfold clock in Hclock. injection Hclock as ? _ _ _. congruence.
    + rewrite Hstep in Hended. destruct (togglePause_frame w) as (? & _). congruence.
    + congruence.
    + unfold clock in Hclock. injection Hclock as ? _ _ _. congruence.
  - intros w h env d Hrunning Hloop Hsetting.
    rewrite (loopTick_running h env w Hloop Hrunning).
    destruct Hrunning as [Hplaying _].
    destruct (loop_pass env w d Hplaying Hsetting) as [(? & ? & _)|(? & ? & _)].
    + split; auto.
    + split; [congruence|lia].
  - intros w es. apply run_dialog.
Qed.

Lemma only_a_win_ends_a_session_witness :
  isPlaying (game atTarget) = true
  ∧ isPlaying (game (step atTarget (IntervalFires 2%nat still))) = false
  ∧ ∃ h env d, IntervalFires 2%nat still = IntervalFires h env
      ∧ scheduled h LoopTick atTarget
      ∧ isPaused (game atTarget) = false
      ∧ settingsOf (difficulty (game atTarget)) = Own d
      ∧ targetScore d ≤ score (game atTarget)
      ∧ dialog (step atTarget (IntervalFires 2%nat still)) = wonDialog atTarget.
Proof.
  assert (isPlaying (game atTarget) = true) as H1 by (vm_compute; reflexivity).
  assert (isPlaying (game (step atTarget (IntervalFires 2%nat still))) = false) as H2
    by (vm_compute; reflexivity).
  split; [exact H1|]. split; [exact H2|].
  exact (proj1 only_a_win_ends_a_session atTarget (IntervalFires 2%nat still) H1 H2).
Defined.

(** ** The drops, the score and the elements created *)

Lemma clearIntervals_registry w : registry (clearIntervals w) = registry w.
Proof.
  destruct (clearIntervals_core w) as (Hcore & Hpage & _).
  unfold core in Hcore. injection Hcore as _ _ Hscore _ Hdrops _ _.
  unfold registry. now rewrite Hscore, Hdrops, Hpage.
Qed.

Lemma startGame_registry w :
  isPlaying (game w) = false →
  registry (after (startGame w)) = ([], 0, nextElem (page w)).
Proof.
  intros Hidle. unfold startGame. rewrite Hidle.
  match goal with |- context [startGameLoop ?x] => set (w2 := x) end.
  assert (registry w2 = ([], 0, nextElem (page w))) as <-.
  { subst w2. unfold resetGame.
    match goal with |- context [clearIntervals ?x] =>
      pose proof (clearIntervals_registry x) as Hclear end.
    unfold registry in *. injection Hclear as Hd Hs Hn.
    destruct (hasInstructions _); simpl; now rewrite Hd, Hs, Hn. }
  clearbody w2. unfold startGameLoop, startTimer.
  destruct (settingsOf (difficulty (game w2))) eqn:Hsettings; simpl;
    rewrite ?Hsettings; reflexivity.
Qed.

Lemma togglePause_registry w : registry (togglePause w) = registry w.
Proof.
  unfold togglePause.
  destruct (isPlaying (game w)); simpl; [|reflexivity].
  destruct (isPaused (game w)); reflexivity.
Qed.

Lemma updateDifficultyDisplay_registry w :
  registry (after (updateDifficultyDisplay w)) = registry w.
Proof. unfold updateDifficultyDisplay. destruct (field _ _); reflexivity. Qed.

Lemma checkMilestones_nextElem w :
  (nextElem (page w) ≤ nextElem (page (checkMilestones w)))%nat.
Proof.
  unfold checkMilestones, forEach. generalize milestones as l. intros l. revert w.
  induction l as [|m l IH]; intros w; simpl; [lia|].
  etrans; [|apply IH]. unfold checkMilestone.
  destruct (_ && _); simpl; lia.
Qed.

(** The drop [collectDrop] marks, the score it adds, the elements
    [showMilestone] may create. *)
Lemma collectDrop_registry dropId w :
  match collectOutcome dropId w with
  | Collected i d =>
      drops (game (collectDrop dropId w)) = <[i := markCollected d]> (drops (game w))
      ∧ score (game (collectDrop dropId w)) = score (game w) + 1
      ∧ (nextElem (page w) ≤ nextElem (page (collectDrop dropId w)))%nat
  | _ => registry (collectDrop dropId w) = registry w
  end.
Proof.
  destruct (collectOutcome dropId w) as [| |i d] eqn:Houtcome.
  - now rewrite collectDrop_not_found.
  - now rewrite collectDrop_already.
  - destruct (collectDrop_collected dropId w i d Houtcome) as [Hgame _].
    rewrite Hgame. simpl. split; [done|]. split; [done|].
    unfold collectDrop, collectOutcome in *.
    change (drops (game (log (LogAttempt dropId) w))) with (drops (game w)).
    destruct (list_find _ _) as [[j e]|]; [destruct (collected e)|]; try done.
    simpl. match goal with |- context [checkMilestones ?x] =>
      pose proof (checkMilestones_nextElem x) as Hle end.
    exact Hle.
Qed.

Lemma spawnDrop_registry env w :
  registry (after (spawnDrop env w))
  = (match settingsOf (difficulty (game w)) with
     | Missing => drops (game w)
     | _ => drops (game w) ++ [newDrop env w]
     end, score (game w), S (nextElem (page w))).
Proof.
  unfold spawnDrop. simpl.
  destruct (settingsOf (difficulty (game w))); reflexivity.
Qed.

Lemma endGame_registry won w : registry (after (endGame won w)) = registry w.
Proof.
  unfold endGame.
  match goal with |- context [clearIntervals ?x] => set (w1 := x) end.
  pose proof (clearIntervals_registry w1) as Hclear.
  change (registry w1) with (registry w) in Hclear. rewrite <- Hclear.
  destruct (clearIntervals_core w1) as (Hcore & _).
  unfold core in Hcore. injection Hcore as _ _ _ _ _ Hdiff _.
  set (w2 := clearIntervals w1) in *. clearbody w2.
  destruct won; unfold showWinModal, showGameOverModal; simpl;
    destruct (settingsOf (difficulty (game w2))); simpl; try reflexivity;
    destruct (hasInstructions (page w2)); reflexivity.
Qed.

Lemma checkWinCondition_registry w :
  registry (after (checkWinCondition w)) = registry w.
Proof.
  unfold checkWinCondition. destruct (field _ _) as [target| |]; try reflexivity.
  case_bool_decide; [apply endGame_registry|reflexivity].
Qed.

Lemma dropCleanup_registry dropElement dropId w :
  drops (game (dropCleanup dropElement dropId w)) `sublist_of` drops (game w)
  ∧ score (game (dropCleanup dropElement dropId w)) = score (game w)
  ∧ nextElem (page (dropCleanup dropElement dropId w)) = nextElem (page w).
Proof.
  unfold dropCleanup.
  destruct (attached dropElement w); simpl;
    destruct (list_find _ _) as [[k d]|] eqn:Hfind; simpl; split_and!; try done.
  all: apply sublist_delete.
Qed.

(** ** The fate of every drop *)

Lemma registry_nothing_new w w' l :
  registry w' = registry w → Effect w w' l l.
Proof.
  unfold registry. intros [= Hd Hs Hn].
  apply NothingNew; [now rewrite Hd|done|lia|done].
Qed.

Lemma step_effect w e l : Effect w (step w e) l (record w e l).
Proof.
  destruct e as [| |value| | |onBackdrop| |dropId|h env|h]; unfold step; simpl.
  - (* ClickStart *)
    destruct (isPlaying (game w)) eqn:Hplaying.
    + unfold startGame. rewrite Hplaying. now apply registry_nothing_new.
    + pose proof (startGame_registry w Hplaying) as [= Hd Hs Hn].
      now apply Restarted.
  - (* ClickPause *) apply registry_nothing_new, togglePause_registry.
  - (* ChangeSelect *)
    apply registry_nothing_new.
    now rewrite updateDifficultyDisplay_registry.
  - (* ClickPlayAgain *)
    unfold playAgain. destruct (isPlaying (game w)) eqn:Hplaying.
    + unfold startGame. simpl. rewrite Hplaying. now apply registry_nothing_new.
    + pose proof (startGame_registry (hideModal w) Hplaying) as [= Hd Hs Hn].
      now apply Restarted.
  - (* ClickChangeDifficulty *) now apply registry_nothing_new.
  - (* ClickModal *) destruct onBackdrop; now apply registry_nothing_new.
  - (* ClickGameArea *)
    apply registry_nothing_new.
    induction (areaListeners (page w)) as [|n IH]; [done|]. simpl. exact IH.
  - (* DropGesture *)
    pose proof (collectDrop_registry dropId (log (LogDropClicked dropId) w)) as Hreg.
    change (collectOutcome dropId (log (LogDropClicked dropId) w))
      with (collectOutcome dropId w) in Hreg.
    destruct (collectOutcome dropId w) as [| |i d] eqn:Houtcome.
    + now apply registry_nothing_new.
    + now apply registry_nothing_new.
    + destruct Hreg as (Hd & Hs & Hn).
      destruct (collectOutcome_found dropId w i d Houtcome) as (Hi & _ & Hc & _).
      now apply (HasCollected _ _ _ _ i d).
  - (* IntervalFires *)
    destruct (list_find _ _) as [[k [h' [cb delay]]]|]; [|now apply registry_nothing_new].
    unfold runCallback.
    destruct (negb (isPaused (game w)) && isPlaying (game w));
      [|destruct cb; now apply registry_nothing_new].
    destruct cb.
    + pose proof (spawnDrop_registry env w) as Hreg.
      destruct (settingsOf (difficulty (game w))); injection Hreg as Hd Hs Hn.
      * now apply (HasSpawned _ _ _ _ env).
      * now apply (HasSpawned _ _ _ _ env).
      * apply NothingNew; [now rewrite Hd|done|lia|done].
    + pose proof (checkWinCondition_registry (updateDrops env w)) as [= Hd Hs Hn].
      apply (HasExpired _ _ _ _ env); [rewrite Hd|rewrite Hs|rewrite Hn|done];
        now rewrite updateDrops_spec.
    + now apply registry_nothing_new.
  - (* TimeoutFires *)
    destruct (list_find _ _) as [[k [h' [cb delay]]]|]; [|now apply registry_nothing_new].
    simpl. destruct cb as [dropElement dropId|message]; simpl.
    + match goal with |- context [dropCleanup _ _ ?x] =>
        destruct (dropCleanup_registry dropElement dropId x) as (Hd & Hs & Hn) end.
      apply NothingNew; [done|done| |done]. simpl in Hn. lia.
    + now apply registry_nothing_new.
Qed.

(** The invariant [exclusive] is kept by every event, for any way [key] of
    telling drops apart that never repeats among the drops spawned: the
    identity of the drop's element, or the drop's id. *)
Section Exclusive.
Context {K : Type} (key : Drop → K).

Hypothesis key_markCollected : ∀ d, key (markCollected d) = key d.

Lemma NoDup_key_lookup (l : list Drop) i j d d' :
  NoDup (key <$> l) → l !! i = Some d → l !! j = Some d' → key d = key d' → i = j.
Proof.
  intros Hnodup Hi Hj Hkey.
  apply (NoDup_lookup (key <$> l) i j (key d) Hnodup).
  - now rewrite list_lookup_fmap, Hi.
  - now rewrite list_lookup_fmap, Hj, Hkey.
Qed.

Lemma key_elem_of (l : list Drop) d : d ∈ l → key d ∈ key <$> l.
Proof. apply list_elem_of_fmap_2. Qed.

Lemma key_insert_marked (l : list Drop) i d :
  l !! i = Some d → key <$> <[i := markCollected d]> l = key <$> l.
Proof.
  intros Hi. rewrite list_fmap_insert, key_markCollected.
  apply list_insert_id. now rewrite list_lookup_fmap, Hi.
Qed.

Lemma exclusive_effect w w' l l' :
  Effect w w' l l' → NoDup (key <$> spawned l') →
  exclusive key w l → exclusive key w' l'.
Proof.
  intros Heffect Hfresh (Hnodup & Hdrops & Hcol & Hexp & Hlive & Hopen & Honce & Hexcl).
  destruct Heffect as [Hd _ _ ->|i d Hi Hc Hd _ _ ->|env Hd _ _ ->|env Hd _ _ ->
                      |Hsub _ _ ->]; unfold exclusive; simpl in *.
  - (* a new session *)
    rewrite Hd. split_and!; try done.
    + constructor.
    + intros d Hin. inversion Hin.
    + intros d Hin. inversion Hin.
    + intros d Hin. inversion Hin.
  - (* a drop is collected *)
    assert (d ∈ drops (game w)) as Hin by (eapply list_elem_of_lookup_2; eauto).
    assert (∀ d', d' ∈ <[i := markCollected d]> (drops (game w)) →
              d' = markCollected d
              ∨ (d' ∈ drops (game w) ∧ key d' ≠ key d)) as Hcases.
    { intros d' [j Hj]%list_elem_of_lookup.
      apply list_lookup_insert_Some in Hj as [(_ & <- & _)|[Hne Hj]]; [now left|].
      right. split; [eapply list_elem_of_lookup_2; eauto|].
      intros Hkey. apply Hne. symmetry.
      exact (NoDup_key_lookup (drops (game w)) j i d' d Hnodup Hj Hi Hkey). }
    rewrite Hd, key_insert_marked by done. rewrite fmap_app. simpl.
    split_and!; try done.
    + intros d' [->|[Hd' _]]%Hcases; [rewrite key_markCollected|]; auto.
    + intros d' [Hd'| ->%list_elem_of_singleton]%elem_of_app; auto.
    + intros d' [->|[Hd' _]]%Hcases; [rewrite key_markCollected|]; auto.
    + intros d' [->|[Hd' Hne]]%Hcases Hc'; [done|].
      rewrite not_elem_of_app, list_elem_of_singleton. auto.
    + apply NoDup_app. split_and!; [done| |apply NoDup_singleton].
      intros k Hk ->%list_elem_of_singleton. now apply (Hopen d).
    + intros d1 d2 [Hd1| ->%list_elem_of_singleton]%elem_of_app Hd2; [auto|].
      intros Hkey. apply (Hlive d Hin). rewrite Hkey. now apply key_elem_of.
  - (* a drop is spawned *)
    rewrite fmap_app in Hfresh. simpl in Hfresh.
    apply NoDup_app in Hfresh as (_ & Hnew & _).
    assert (key (newDrop env w) ∉ key <$> spawned l) as Hnot.
    { intros Hin. apply (Hnew _ Hin). now left. }
    rewrite Hd, !fmap_app. simpl.
    split_and!; try done.
    + apply NoDup_app. split_and!; [done| |apply NoDup_singleton].
      intros k Hk ->%list_elem_of_singleton.
      apply list_elem_of_fmap in Hk as (d' & Hkey & Hd'). apply Hnot. rewrite Hkey. auto.
    + intros d' [Hd'| ->%list_elem_of_singleton]%elem_of_app; rewrite elem_of_app;
        [left; auto|right; now left].
    + intros d' Hd'. rewrite elem_of_app. left; auto.
    + intros d' Hd'. rewrite elem_of_app. left; auto.
    + intros d' [Hd'| ->%list_elem_of_singleton]%elem_of_app; [auto|].
      intros (d2 & Hkey & Hd2)%list_elem_of_fmap. apply Hnot. rewrite Hkey. auto.
    + intros d' [Hd'| ->%list_elem_of_singleton]%elem_of_app Hc'; [auto|].
      intros (d2 & Hkey & Hd2)%list_elem_of_fmap. apply Hnot. rewrite Hkey. auto.
  - (* drops fall past the game area *)
    assert (∀ d, d ∈ fallen env (drops (game w)) →
              d ∈ drops (game w) ∧ collected d = false
              ∧ areaBottom env < rectTop env (element d)) as Hfallen.
    { intros d Hin. unfold fallen in Hin. apply list_elem_of_filter in Hin. tauto. }
    assert (∀ d, d ∈ drops (game w') →
              d ∈ drops (game w) ∧ collected d = false
              ∧ rectTop env (element d) ≤ areaBottom env) as Hkept.
    { intros d Hin. rewrite Hd in Hin. apply list_elem_of_filter in Hin. tauto. }
    rewrite !fmap_app.
    split_and!; try done.
    + eapply sublist_NoDup; [exact Hnodup|]. rewrite Hd.
      apply fmap_sublist, sublist_filter.
    + intros d Hin. apply Hdrops. now apply Hkept.
    + intros d [Hin|Hin]%elem_of_app; [auto|]. apply Hdrops. now apply Hfallen.
    + intros d Hin. destruct (Hkept d Hin) as (Hin' & _ & Habove).
      rewrite not_elem_of_app. split; [auto|].
      intros (d2 & Hkey & Hd2)%list_elem_of_fmap.
      destruct (Hfallen d2 Hd2) as (Hin2 & _ & Hbelow).
      apply list_elem_of_lookup in Hin' as [i Hi].
      apply list_elem_of_lookup in Hin2 as [j Hj].
      assert (i = j) as ->
        by exact (NoDup_key_lookup (drops (game w)) i j d d2 Hnodup Hi Hj Hkey).
      rewrite Hi in Hj. injection Hj as ->. lia.
    + intros d Hin Hc. apply Hopen; [now apply Hkept|done].
    + intros d1 d2 Hd1 [Hd2|Hd2]%elem_of_app; [auto|].
      destruct (Hfallen d2 Hd2) as (Hin2 & Hc2 & _).
      intros Hkey. apply (Hopen d2 Hin2 Hc2). rewrite <- Hkey. now apply key_elem_of.
  - (* drops are only removed *)
    split_and!; try done.
    + eapply sublist_NoDup; [exact Hnodup|]. now apply fmap_sublist.
    + intros d Hin. apply Hdrops. eapply elem_of_sublist; eauto.
    + intros d Hin. apply Hlive. eapply elem_of_sublist; eauto.
    + intros d Hin. apply Hopen. eapply elem_of_sublist; eauto.
Qed.
End Exclusive.

Lemma counted_effect w w' l l' : Effect w w' l l' → counted w l → counted w' l'.
Proof.
  intros Heffect (Hscore & Hbelow & Hnodup).
  destruct Heffect as [_ Hs Hn ->|i d _ _ _ Hs Hn ->|env _ Hs Hn ->|env _ Hs Hn ->
                      |_ Hs Hn ->]; unfold counted; simpl.
  - rewrite Hs, Hn. done.
  - rewrite Hs, Hscore, length_app. simpl. split; [lia|]. split; [|done].
    intros d' Hd'. specialize (Hbelow d' Hd'). lia.
  - rewrite Hs, Hn. split; [done|]. split.
    + intros d [Hd| ->%list_elem_of_singleton]%elem_of_app; [|simpl; lia].
      specialize (Hbelow d Hd). lia.
    + rewrite fmap_app. apply NoDup_app. split_and!; [done| |apply NoDup_singleton].
      intros n (d & -> & Hd)%list_elem_of_fmap Heq%list_elem_of_singleton.
      specialize (Hbelow d Hd). simpl in Heq. lia.
  - rewrite Hs, Hn. done.
  - rewrite Hs. split; [done|]. split; [|done].
    intros d' Hd'. specialize (Hbelow d' Hd'). lia.
Qed.

Lemma record_spawned w e l : ∃ more, spawned (record w e l) = spawned l ++ more.
Proof.
  assert (∃ more, spawned l = spawned l ++ more) as Hsame
    by (exists []; now rewrite app_nil_r).
  destruct e; simpl; try done.
  - destruct (isPlaying (game w)); done.
  - destruct (isPlaying (game w)); done.
  - destruct (collectOutcome _ _); done.
  - destruct (list_find _ _) as [[k [h' [cb delay]]]|]; [|done].
    destruct (_ && _); [|done].
    destruct cb; try done.
    destruct (settingsOf _); try done; now exists [newDrop env w].
Qed.

Lemma ledger_spawned es w l : ∃ more, spawned (ledger es w l) = spawned l ++ more.
Proof.
  revert w l. induction es as [|e es IH]; intros w l; simpl.
  - exists []. now rewrite app_nil_r.
  - destruct (IH (step w e) (record w e l)) as [more ->].
    destruct (record_spawned w e l) as [more' ->].
    exists (more' ++ more). now rewrite app_assoc.
Qed.

Lemma run_counted es w l :
  counted w l → exclusive element w l →
  counted (run es w) (ledger es w l) ∧ exclusive element (run es w) (ledger es w l).
Proof.
  revert w l. induction es as [|e es IH]; intros w l Hcounted Hexcl; [done|].
  simpl. pose proof (step_effect w e l) as Heffect.
  pose proof (counted_effect _ _ _ _ Heffect Hcounted) as Hcounted'.
  apply IH; [done|].
  eapply (exclusive_effect element); [done|exact Heffect| |done].
  now destruct Hcounted' as (_ & _ & ?).
Qed.

Lemma run_exclusive_id es w l :
  NoDup (id <$> spawned (ledger es w l)) →
  exclusive id w l → exclusive id (run es w) (ledger es w l).
Proof.
  revert w l. induction es as [|e es IH]; intros w l Hfresh Hexcl; [done|].
  simpl in *. apply IH; [done|].
  eapply (exclusive_effect id); [done|apply step_effect| |done].
  destruct (ledger_spawned es (step w e) (record w e l)) as [more Hmore].
  rewrite Hmore, fmap_app in Hfresh. now apply NoDup_app in Hfresh as (? & _).
Qed.

Lemma exclusive_init {K : Type} (key : Drop → K) p : exclusive key (init p) emptyLedger.
Proof.
  assert (drops (game (init p)) = []) as Hdrops.
  { unfold init, updateDifficultyDisplay. destruct (field _ _); reflexivity. }
  unfold exclusive. rewrite Hdrops. simpl.
  split_and!; try constructor; intros d Hd; try inversion Hd.
  intros Hd' _. inversion Hd'.
Qed.

Lemma counted_init p : counted (init p) emptyLedger.
Proof.
  assert (score (game (init p)) = 0) as Hscore.
  { unfold init, updateDifficultyDisplay. destruct (field _ _); reflexivity. }
  unfold counted. rewrite Hscore. simpl.
  split_and!; try constructor. intros d Hd; inversion Hd.
Qed.

(** ** The ledger and the console *)

Lemma omap_quiet {B : Type} (f : Log → option B) (extra : list Log) :
  Forall (λ entry, f entry = None) extra → omap f extra = [].
Proof.
  induction 1 as [|entry extra Hnone _ IH]; [done|]. simpl. now rewrite Hnone.
Qed.

Lemma told_between c extra rest :
  Forall quiet extra →
  spawnedIds (c ++ extra ++ rest) = spawnedIds c ++ spawnedIds rest
  ∧ collectedScores (c ++ extra ++ rest) = collectedScores c ++ collectedScores rest.
Proof.
  intros Hquiet. unfold spawnedIds, collectedScores. rewrite !omap_app.
  rewrite !(omap_quiet _ extra); [done|..];
    (eapply Forall_impl; [exact Hquiet|]); now intros [].
Qed.

(** A step that only adds quiet lines and makes no entry keeps the ledger
    and the console in agreement. *)
Lemma logged_quiet w w' l extra :
  console w' = console w ++ extra → Forall quiet extra → logged w l → logged w' l.
Proof.
  intros Heq Hquiet [Hs Hc].
  destruct (told_between (console w) extra [] Hquiet) as [Hs' Hc'].
  rewrite !app_nil_r in Hs', Hc'. unfold logged. now rewrite Heq, Hs', Hc'.
Qed.

Lemma clearIntervals_console w : console (clearIntervals w) = console w.
Proof.
  unfold clearIntervals, clearStored.
  repeat match goal with |- context [match ?x with _ => _ end] =>
    destruct x as [[|?]|] end; reflexivity.
Qed.

Lemma startGame_console w :
  ∃ extra, console (after (startGame w)) = console w ++ extra ∧ Forall quiet extra.
Proof.
  unfold startGame. destruct (isPlaying (game w)).
  { exists []. now rewrite app_nil_r. }
  match goal with |- context [startGameLoop ?x] => set (w2 := x) end.
  assert (console w2 = console w) as <-.
  { subst w2. unfold resetGame. destruct (hasInstructions _); simpl;
      now rewrite clearIntervals_console. }
  clearbody w2. unfold startGameLoop, startTimer.
  destruct (settingsOf (difficulty (game w2))) eqn:Hsettings; simpl;
    rewrite ?Hsettings; simpl.
  - eexists [_; _]. split; [now rewrite <- app_assoc|]. repeat constructor.
  - eexists [_; _]. split; [now rewrite <- app_assoc|]. repeat constructor.
  - exists []. now rewrite app_nil_r.
Qed.

Lemma endGame_console won w : console (after (endGame won w)) = console w.
Proof.
  unfold endGame.
  match goal with |- context [clearIntervals ?x] => set (w1 := x) end.
  pose proof (clearIntervals_console w1) as Hclear.
  change (console w1) with (console w) in Hclear. rewrite <- Hclear.
  set (w2 := clearIntervals w1) in *. clearbody w2.
  destruct won; unfold showWinModal, showGameOverModal; simpl;
    destruct (settingsOf (difficulty (game w2))); simpl; try reflexivity;
    destruct (hasInstructions (page w2)); reflexivity.
Qed.

Lemma checkWinCondition_console w : console (after (checkWinCondition w)) = console w.
Proof.
  unfold checkWinCondition. destruct (field _ _) as [target| |]; try reflexivity.
  case_bool_decide; [apply endGame_console|reflexivity].
Qed.

(** The lines of a call of [collectDrop]: quiet ones, and on success the
    new score as the last. *)
Lemma collectDrop_console dropId w :
  ∃ extra, Forall quiet extra ∧
    console (collectDrop dropId w)
    = console w ++ extra
      ++ match collectOutcome dropId w with
         | Collected _ _ => [LogCollected (score (game w) + 1)]
         | _ => []
         end.
Proof.
  unfold collectOutcome, collectDrop. cbn.
  destruct (list_find _ _) as [[j e]|]; [destruct (collected e)|].
  - eexists [_; _]. split; [|simpl; now rewrite <- app_assoc]. repeat constructor.
  - match goal with |- context [checkMilestones ?x] => set (w1 := x) end. simpl.
    pose proof (checkMilestones_game w1) as Hgame.
    assert (score (game (checkMilestones w1)) = score (game w) + 1) as ->
      by (rewrite Hgame; reflexivity).
    rewrite (forEach_logged milestones w1 : console (checkMilestones w1) = _).
    subst w1. simpl.
    eexists (_ :: _ :: (LogMilestone <$> _)). split.
    2: { rewrite <- !app_assoc. reflexivity. }
    repeat constructor. apply Forall_fmap, Forall_true. done.
  - eexists [_; _]. split; [|simpl; now rewrite <- app_assoc]. repeat constructor.
Qed.
Lemma logged_same w w' l : console w' = console w → logged w l → logged w' l.
Proof.
  intros Heq. apply (logged_quiet w w' l []); [now rewrite app_nil_r|constructor].
Qed.

Lemma iter_log_console n entry w :
  console (Nat.iter n (log entry) w) = console w ++ replicate n entry.
Proof.
  induction n as [|n IH]; simpl; [now rewrite app_nil_r|].
  rewrite IH, <- app_assoc. f_equal.
  clear IH. induction n as [|n IH]; [done|]. simpl. now rewrite IH.
Qed.

Lemma updateDifficultyDisplay_console w :
  console (after (updateDifficultyDisplay w)) = console w.
Proof. unfold updateDifficultyDisplay. destruct (field _ _); reflexivity. Qed.

Lemma togglePause_console w :
  ∃ extra, console (togglePause w) = console w ++ extra ∧ Forall quiet extra.
Proof.
  unfold togglePause. destruct (isPlaying (game w)) eqn:Hplaying; simpl.
  - destruct (isPaused (game w)) eqn:Hpaused; simpl; rewrite ?Hpaused; simpl;
      eexists [_]; (split; [reflexivity|]); repeat constructor.
  - exists []. now rewrite app_nil_r.
Qed.

Lemma dropCleanup_console dropElement dropId w :
  console (dropCleanup dropElement dropId w) = console w.
Proof.
  unfold dropCleanup.
  destruct (attached dropElement w); destruct (list_find _ _) as [[i d]|]; reflexivity.
Qed.

(** Each event keeps the ledger and the console in agreement. *)
Lemma step_logged w e l : logged w l → logged (step w e) (record w e l).
Proof.
  intros Hlogged.
  destruct e as [| |value| | |onBackdrop| |dropId|h env|h]; unfold step; simpl.
  - (* ClickStart *)
    destruct (startGame_console w) as (extra & Heq & Hquiet).
    assert (logged (after (startGame w)) l) as Hl by (eapply logged_quiet; eauto).
    destruct (isPlaying (game w)); exact Hl.
  - (* ClickPause *)
    destruct (togglePause_console w) as (extra & Heq & Hquiet).
    eapply logged_quiet; eauto.
  - (* ChangeSelect *)
    eapply logged_same; [|exact Hlogged]. now rewrite updateDifficultyDisplay_console.
  - (* ClickPlayAgain *)
    unfold playAgain.
    destruct (startGame_console (hideModal w)) as (extra & Heq & Hquiet).
    assert (logged (after (startGame (hideModal w))) l) as Hl
      by (eapply logged_quiet; eauto).
    destruct (isPlaying (game w)); exact Hl.
  - (* ClickChangeDifficulty *) exact Hlogged.
  - (* ClickModal *) destruct onBackdrop; exact Hlogged.
  - (* ClickGameArea *)
    eapply logged_quiet; [apply iter_log_console| |exact Hlogged].
    apply Forall_replicate. exact I.
  - (* DropGesture *)
    destruct (collectDrop_console dropId (log (LogDropClicked dropId) w))
      as (extra & Hquiet & Heq).
    change (collectOutcome dropId (log (LogDropClicked dropId) w))
      with (collectOutcome dropId w) in Heq.
    change (score (game (log (LogDropClicked dropId) w))) with (score (game w)) in Heq.
    simpl console in Heq at 2. rewrite <- app_assoc in Heq.
    destruct Hlogged as [Hs Hc].
    destruct (told_between (console w) ([LogDropClicked dropId] ++ extra)
                (match collectOutcome dropId w with
                 | Collected _ _ => [LogCollected (score (game w) + 1)]
                 | _ => []
                 end)) as [Hs' Hc'].
    { now constructor. }
    rewrite <- app_assoc in Hs', Hc'.
    unfold logged. rewrite Heq, Hs', Hc', Hs.
    destruct (collectOutcome dropId w) as [| |i d]; simpl; rewrite ?app_nil_r; [done..|].
    rewrite !length_app, Hc. done.
  - (* IntervalFires *)
    destruct (list_find _ _) as [[k [h' [cb delay]]]|]; [|exact Hlogged].
    destruct (negb (isPaused (game w)) && isPlaying (game w)) eqn:Hguard;
      destruct cb; simpl; rewrite ?Hguard; try exact Hlogged.
    + (* spawn *)
      unfold spawnDrop. simpl.
      destruct Hlogged as [Hs Hc].
      destruct (settingsOf _) as [setting| |]; simpl; unfold logged; simpl;
        unfold spawnedIds, collectedScores in *;
        rewrite ?omap_app, ?fmap_app, ?Hs; simpl; rewrite ?app_nil_r; done.
    + (* loop *)
      eapply logged_same; [|exact Hlogged].
      rewrite checkWinCondition_console, updateDrops_spec. reflexivity.
  - (* TimeoutFires *)
    destruct (list_find _ _) as [[k [h' [cb delay]]]|]; [|exact Hlogged].
    destruct cb as [dropElement dropId|message]; simpl.
    + eapply logged_same; [|exact Hlogged]. now rewrite dropCleanup_console.
    + exact Hlogged.
Qed.

Lemma run_logged es w l : logged w l → logged (run es w) (ledger es w l).
Proof.
  revert w l. induction es as [|e es IH]; intros w l Hlogged; [done|].
  simpl. apply IH, step_logged, Hlogged.
Qed.

Lemma logged_init p : logged (init p) emptyLedger.
Proof.
  unfold logged, init. rewrite updateDifficultyDisplay_console. done.
Qed.

(** C4: from the loading of the page, over any sequence of events, the
    drops entered as spawned and the number entered as collected are those
    the console tells of; the score is the number of drops collected since
    the session was last started; no drop is collected twice; no drop is
    both collected and expired, drops being told apart by their elements;
    and the same holds of drop ids as long as the ids of the drops spawned
    are pairwise different. *)
Theorem score_counts_collected_drops (p : Page) (es : list Event) :
  let w := run es (init p) in
  let l := ledger es (init p) emptyLedger in
  spawnedIds (console w) = id <$> spawned l
  ∧ length (collectedScores (console w)) = length (collectedEver l)
  ∧ score (game w) = Z.of_nat (length (collectedNow l))
  ∧ NoDup (element <$> collectedEver l)
  ∧ (∀ d d', d ∈ collectedEver l → d' ∈ expired l → element d ≠ element d')
  ∧ (NoDup (id <$> spawned l) →
     ∀ d d', d ∈ collectedEver l → d' ∈ expired l → id d ≠ id d').
Proof.
  intros w l.
  destruct (run_logged es (init p) emptyLedger (logged_init p)) as [Hspawned Hcollected].
  destruct (run_counted es (init p) emptyLedger (counted_init p)
              (exclusive_init element p)) as [(Hscore & _) Hexcl].
  destruct Hexcl as (_ & _ & _ & _ & _ & _ & Honce & Hdisjoint).
  split_and!; [exact Hspawned|exact Hcollected|exact Hscore|exact Honce|exact Hdisjoint|].
  intros Hfresh.
  destruct (run_exclusive_id es (init p) emptyLedger Hfresh (exclusive_init id p))
    as (_ & _ & _ & _ & _ & _ & _ & Hids).
  exact Hids.
Qed.

Lemma score_counts_collected_drops_witness :
  NoDup (id <$> spawned (ledger twoFates (init blankPage) emptyLedger))
  ∧ collectedEver (ledger twoFates (init blankPage) emptyLedger)
    = [mkDrop "drop_1000_7" 0%nat false]
  ∧ expired (ledger twoFates (init blankPage) emptyLedger)
    = [mkDrop "drop_2000_7" 1%nat false]
  ∧ score (game (run twoFates (init blankPage))) = 1
  ∧ ∀ d d', d ∈ collectedEver (ledger twoFates (init blankPage) emptyLedger) →
            d' ∈ expired (ledger twoFates (init blankPage) emptyLedger) →
            id d ≠ id d'.
Proof.
  assert (NoDup (id <$> spawned (ledger twoFates (init blankPage) emptyLedger)))
    as Hfresh by (apply (bool_decide_unpack _); vm_compute; exact I).
  split; [exact Hfresh|].
  split; [vm_compute; reflexivity|]. split; [vm_compute; reflexivity|].
  split; [vm_compute; reflexivity|].
  exact (proj2 (proj2 (proj2 (proj2 (proj2
           (score_counts_collected_drops blankPage twoFates))))) Hfresh).
Defined.

(** * Further properties *)

(** ** Drop ids *)

Lemma plain_uint d : plain (NilEmpty.string_of_uint d) = true.
Proof. induction d; simpl; try rewrite IHd; reflexivity. Qed.

Lemma plain_dec z : plain (dec z) = true.
Proof.
  unfold dec. destruct (Z.to_int z) as [d|d]; simpl.
  - destruct d; try apply (plain_uint (_ _)); reflexivity.
  - destruct d; try apply (plain_uint (_ _)); reflexivity.
Qed.

(** The decimal numeral tells the number. *)
Lemma dec_inj z z' : dec z = dec z' → z = z'.
Proof.
  unfold dec. intros Heq. apply DecimalZ.to_int_inj.
  assert (∀ n, Z.to_int n ≠ Decimal.Pos Decimal.Nil ∧ Z.to_int n ≠ Decimal.Neg Decimal.Nil)
    as Hnonnil.
  { intros [|q|q]; simpl; split; try discriminate;
      intros [= Hnil]; exact (DecimalPos.Unsigned.to_uint_nonnil q Hnil). }
  destruct (Hnonnil z) as [Hpos Hneg]. destruct (Hnonnil z') as [Hpos' Hneg'].
  pose proof (NilZero.isi _ Hpos Hneg) as Hz.
  pose proof (NilZero.isi _ Hpos' Hneg') as Hz'.
  rewrite Heq in Hz. congruence.
Qed.

(** Two strings joined by an underscore come apart in one way only when the
    first holds none. *)
Lemma joined_inj a a' b b' :
  plain a = true → plain a' = true →
  a +:+ "_" +:+ b = a' +:+ "_" +:+ b' → a = a' ∧ b = b'.
Proof.
  revert a'. induction a as [|c a IH]; intros [|c' a']; simpl;
    intros Ha Ha' Heq.
  - now inversion Heq.
  - inversion Heq; subst c'. simpl in Ha'. discriminate.
  - inversion Heq; subst c. simpl in Ha. discriminate.
  - inversion Heq; subst c'.
    apply andb_prop in Ha as [_ Ha]. apply andb_prop in Ha' as [_ Ha'].
    destruct (IH a' Ha Ha') as [-> ->]; done.
Qed.

(** X1: the id [spawnDrop] builds from the clock and the random number
    tells both: two ids are the same exactly when both the millisecond and
    the random number are. *)
Theorem freshDropId_inj (env env' : Env) :
  freshDropId env = freshDropId env'
  ↔ now env = now env' ∧ random1000 env = random1000 env'.
Proof.
  unfold freshDropId. split.
  - intros Heq. simpl in Heq. inversion Heq as [Hrest].
    apply joined_inj in Hrest as [Hnow Hrandom]; try apply plain_dec.
    split; apply dec_inj; assumption.
  - intros [-> ->]. reflexivity.
Qed.

(** ** Runs *)

Lemma run_preserves (P : World → Prop) :
  (∀ w e, P w → P (step w e)) → ∀ es w, P w → P (run es w).
Proof.
  intros Hstep es. induction es as [|e es IH]; intros w Hw; [exact Hw|].
  simpl. apply IH, Hstep, Hw.
Qed.

(** ** The intervals of a session *)

Lemma clearIntervals_eq w :
  clearIntervals w
  = mkWorld
      (set_timerInterval (cleared (timerInterval (game w)))
         (set_dropSpawnInterval (cleared (dropSpawnInterval (game w)))
            (set_gameInterval (cleared (gameInterval (game w))) (game w))))
      (page w)
      (mkTimers
         (cancel (timerInterval (game w))
            (cancel (dropSpawnInterval (game w))
               (cancel (gameInterval (game w)) (intervals (timers w)))))
         (timeouts (timers w)) (nextHandle (timers w)))
      (console w) (played w).
Proof.
  destruct w as [[playing paused s t ds [[|h1]|] [[|h2]|] [[|h3]|] key achieved]
                   p [ivs touts next] c sounds]; reflexivity.
Qed.











(** ** A start that failed *)





(** ** Milestones over a run *)

Lemma abreast_tally w w' : tally w' = tally w → abreast w → abreast w'.
Proof. unfold tally, abreast. intros [= -> ->]. done. Qed.

Lemma reached_cases s :
  (s < 10 ∧ filter (λ m, m ≤ s) milestones = [])
  ∨ (10 ≤ s < 20 ∧ filter (λ m, m ≤ s) milestones = [10])
  ∨ (20 ≤ s < 30 ∧ filter (λ m, m ≤ s) milestones = [10; 20])
  ∨ (30 ≤ s ∧ filter (λ m, m ≤ s) milestones = [10; 20; 30]).
Proof.
  unfold milestones. rewrite !filter_cons, !filter_nil.
  destruct (decide (10 ≤ s)), (decide (20 ≤ s)), (decide (30 ≤ s)); try lia;
    [do 3 right|do 2 right; left|right; left|left]; (split; [lia|reflexivity]).
Qed.

(** After [checkMilestones] the achieved milestones are the thresholds
    reached, if before they were those reached at a score not above. *)
Lemma checkMilestones_abreast w s :
  achievedMilestones (game w) = filter (λ m, m ≤ s) milestones →
  s ≤ score (game w) →
  abreast (checkMilestones w) ∧ score (game (checkMilestones w)) = score (game w).
Proof.
  intros Hachieved Hle.
  pose proof (checkMilestones_game w) as Hgame.
  assert (score (game (checkMilestones w)) = score (game w)) as Hscore
    by (rewrite Hgame; reflexivity).
  split; [|exact Hscore]. unfold abreast. rewrite Hscore. clear Hgame Hscore.
  unfold checkMilestones, forEach. simpl.
  destruct (checkMilestone_achieved 10 w) as [S1 A1].
  destruct (checkMilestone_achieved 20 (checkMilestone 10 w)) as [S2 A2].
  destruct (checkMilestone_achieved 30 (checkMilestone 20 (checkMilestone 10 w)))
    as [_ A3].
  rewrite A3, S2, S1, A2, S1, A1, Hachieved. clear -Hle.
  revert Hle. generalize (score (game w)) as t. intros t Hle.
  destruct (reached_cases s) as [[? ->]|[[? ->]|[[? ->]|[? ->]]]];
    destruct (reached_cases t) as [[? ->]|[[? ->]|[[? ->]|[? ->]]]]; try lia;
    repeat match goal with
    | |- context [bool_decide (?m ≤ t)] =>
        first [rewrite (bool_decide_eq_true_2 (m ≤ t)) by lia
              |rewrite (bool_decide_eq_false_2 (m ≤ t)) by lia]
    end; reflexivity.
Qed.

Lemma endGame_tally won w : tally (after (endGame won w)) = tally w.
Proof.
  unfold endGame. rewrite clearIntervals_eq. simpl.
  destruct won; unfold showWinModal, showGameOverModal; simpl;
    destruct (settingsOf _); simpl; try destruct (hasInstructions _); done.
Qed.

Lemma collectDrop_abreast dropId w : abreast w → abreast (collectDrop dropId w).
Proof.
  intros Habreast. unfold collectDrop. simpl.
  destruct (list_find _ _) as [[i d]|]; [destruct (collected d)|]; try done.
  match goal with |- context [checkMilestones ?x] =>
    destruct (checkMilestones_abreast x (score (game w))) as [Hnew _] end;
    [exact Habreast|simpl; lia|exact Hnew].
Qed.

Lemma step_abreast w e : abreast w → abreast (step w e).
Proof.
  intros Habreast.
  assert (∀ w0, isPlaying (game w0) = false → abreast (after (startGame w0))) as Hstart.
  { intros w0 Hplaying.
    destruct (startGame_core w0 Hplaying) as [[= _ _ Hs _ _ _ Ha] _].
    unfold abreast. now rewrite Hs, Ha. }
  destruct e as [| |value| | |onBackdrop| |dropId|h env|h]; unfold step; simpl.
  - (* ClickStart *)
    destruct (isPlaying (game w)) eqn:Hplaying; [|now apply Hstart].
    unfold startGame. now rewrite Hplaying.
  - (* ClickPause *)
    eapply abreast_tally; [|exact Habreast]. unfold togglePause.
    destruct (isPlaying (game w)); simpl; [|done]. destruct (isPaused (game w)); done.
  - (* ChangeSelect *)
    eapply abreast_tally; [|exact Habreast]. unfold updateDifficultyDisplay. simpl.
    destruct (field _ _); done.
  - (* ClickPlayAgain *)
    unfold playAgain. destruct (isPlaying (game w)) eqn:Hplaying; [|now apply Hstart].
    unfold startGame. simpl. now rewrite Hplaying.
  - (* ClickChangeDifficulty *) done.
  - (* ClickModal *) destruct onBackdrop; done.
  - (* ClickGameArea *) induction (areaListeners (page w)) as [|n IH]; simpl; done.
  - (* DropGesture *) now apply collectDrop_abreast.
  - (* IntervalFires *)
    destruct (list_find _ _) as [[k [h' [cb delay]]]|]; [|done].
    destruct (negb (isPaused (game w)) && isPlaying (game w)) eqn:Hguard;
      destruct cb; simpl; rewrite ?Hguard; try done.
    + (* spawn *)
      eapply abreast_tally; [|exact Habreast]. unfold spawnDrop. simpl.
      destruct (field _ _); done.
    + (* loop *)
      eapply abreast_tally; [|exact Habreast]. unfold checkWinCondition.
      destruct (field _ _) as [target| |]; try (rewrite updateDrops_spec; done).
      case_bool_decide; [|rewrite updateDrops_spec; done].
      rewrite endGame_tally, updateDrops_spec. done.
  - (* TimeoutFires *)
    destruct (list_find _ _) as [[k [h' [cb delay]]]|]; [|done]. simpl.
    eapply abreast_tally; [|exact Habreast].
    destruct cb as [dropElement dropId|message]; simpl; [|done].
    unfold dropCleanup. destruct (attached _ _); destruct (list_find _ _) as [[i d]|]; done.
Qed.

Lemma abreast_init p : abreast (init p).
Proof. unfold init, updateDifficultyDisplay. destruct (field _ _); reflexivity. Qed.

(** X4: from the loading of the page, over any sequence of events, the
    achieved milestones are exactly the thresholds the score has reached, in
    ascending order. *)
Theorem achieved_milestones_follow_score (p : Page) (es : list Event) :
  let w := run es (init p) in
  achievedMilestones (game w) = filter (λ m, m ≤ score (game w)) milestones.
Proof. apply (run_preserves abreast step_abreast), abreast_init. Qed.

(** ** The milestone message *)

(** Taking one entry out of a list leaves every different entry in. *)
Lemma elem_of_delete_other {A : Type} (l : list A) k x y :
  l !! k = Some y → x ∈ l → x ≠ y → x ∈ delete k l.
Proof.
  intros Hk [j Hj]%list_elem_of_lookup Hne. apply list_elem_of_lookup.
  destruct (decide (j < k)%nat); [exists j; now rewrite list_lookup_delete_lt|].
  assert (j ≠ k) by congruence.
  exists (pred j). rewrite list_lookup_delete_ge by lia.
  replace (S (pred j)) with j by lia. done.
Qed.

Lemma shown_notice w w' : notice w' = notice w → shown w → shown w'.
Proof. unfold notice, shown. intros [= -> -> ->]. done. Qed.

Lemma checkMilestone_shown m w : shown w → shown (checkMilestone m w).
Proof.
  intros Hshown. unfold checkMilestone. destruct (_ && _); [|done].
  right. exists (nextElem (page w)), m, (nextHandle (timers w)). simpl.
  split_and!; [done|apply last_snoc|set_solver].
Qed.

Lemma checkMilestones_shown w : shown w → shown (checkMilestones w).
Proof.
  unfold checkMilestones, forEach. generalize milestones as l. intros l. revert w.
  induction l as [|m l IH]; intros w Hshown; [done|].
  simpl. apply IH, checkMilestone_shown, Hshown.
Qed.

(** More timeouts do not unsettle the message. *)
Lemma shown_more w w' extra :
  milestoneDisplay (page w') = milestoneDisplay (page w) →
  achievedMilestones (game w') = achievedMilestones (game w) →
  timeouts (timers w') = timeouts (timers w) ++ extra →
  shown w → shown w'.
Proof.
  unfold shown. intros -> -> -> [Hnone|(message & m & h & Hd & Hl & Hin)]; [now left|].
  right. exists message, m, h. split_and!; [done..|set_solver].
Qed.

Lemma collectDrop_shown dropId w : shown w → shown (collectDrop dropId w).
Proof.
  intros Hshown. unfold collectDrop.
  assert (shown (log (LogAttempt dropId) w)) as H0 by exact Hshown.
  revert H0. generalize (log (LogAttempt dropId) w) as w0. intros w0 H0. simpl.
  destruct (list_find _ _) as [[i d]|]; [destruct (collected d)|]; try exact H0.
  match goal with |- context [checkMilestones ?x] =>
    assert (shown (checkMilestones x)) as H1 by (apply checkMilestones_shown; exact H0);
    revert H1; generalize (checkMilestones x) as w1 end.
  intros w1 H1. eapply (shown_more w1); [..|exact H1]; reflexivity.
Qed.

Lemma step_shown w e : shown w → shown (step w e).
Proof.
  intros Hshown.
  assert (∀ w0, isPlaying (game w0) = false → shown (after (startGame w0))) as Hstart.
  { intros w0 Hplaying. left.
    destruct (resetGame_core w0) as (_ & _ & Hnone).
    unfold startGame. rewrite Hplaying.
    match goal with |- context [startGameLoop ?x] => set (w2 := x) end.
    assert (milestoneDisplay (page w2) = []) as G.
    { subst w2. destruct (hasInstructions _); simpl; exact Hnone. }
    clearbody w2. unfold startGameLoop, startTimer.
    destruct (settingsOf (difficulty (game w2))) eqn:Hsettings; simpl;
      rewrite ?Hsettings; simpl; exact G. }
  destruct e as [| |value| | |onBackdrop| |dropId|h env|h]; unfold step; simpl.
  - (* ClickStart *)
    destruct (isPlaying (game w)) eqn:Hplaying; [|now apply Hstart].
    unfold startGame. now rewrite Hplaying.
  - (* ClickPause *)
    eapply shown_notice; [|exact Hshown]. unfold togglePause.
    destruct (isPlaying (game w)); simpl; [|done]. destruct (isPaused (game w)); done.
  - (* ChangeSelect *)
    eapply shown_notice; [|exact Hshown]. unfold updateDifficultyDisplay. simpl.
    destruct (field _ _); done.
  - (* ClickPlayAgain *)
    unfold playAgain. destruct (isPlaying (game w)) eqn:Hplaying; [|now apply Hstart].
    unfold startGame. simpl. now rewrite Hplaying.
  - (* ClickChangeDifficulty *) done.
  - (* ClickModal *) destruct onBackdrop; done.
  - (* ClickGameArea *) induction (areaListeners (page w)) as [|n IH]; simpl; done.
  - (* DropGesture *) now apply collectDrop_shown.
  - (* IntervalFires *)
    destruct (list_find _ _) as [[k [h' [cb delay]]]|]; [|done].
    destruct (negb (isPaused (game w)) && isPlaying (game w)) eqn:Hguard;
      destruct cb; simpl; rewrite ?Hguard; try done.
    + (* spawn *)
      eapply shown_notice; [|exact Hshown]. unfold spawnDrop. simpl.
      destruct (field _ _); done.
    + (* loop *)
      eapply shown_notice; [|exact Hshown]. unfold checkWinCondition.
      destruct (field _ _) as [target| |]; try (rewrite updateDrops_spec; done).
      case_bool_decide; [|rewrite updateDrops_spec; done].
      unfold endGame. rewrite clearIntervals_eq, updateDrops_spec. simpl.
      unfold showWinModal. simpl.
      destruct (settingsOf _); simpl; try destruct (hasInstructions _); done.
  - (* TimeoutFires *)
    destruct (list_find _ _) as [[k [h' [cb delay]]]|] eqn:Hfind; [|done]. simpl.
    apply list_find_Some in Hfind as (Hk & _ & _).
    destruct Hshown as [Hnone|(message & m & h0 & Hd & Hl & Hin)].
    { left. destruct cb as [dropElement dropId|message]; simpl.
      - unfold dropCleanup. destruct (attached _ _);
          destruct (list_find _ _) as [[i d]|]; simpl; exact Hnone.
      - unfold messageRemoval. simpl. rewrite Hnone. done. }
    destruct cb as [dropElement dropId|message']; simpl.
    + right. exists message, m, h0.
      unfold dropCleanup. destruct (attached _ _);
        destruct (list_find _ _) as [[i d]|]; simpl; (split_and!; [done..|]).
      all: eapply elem_of_delete_other; [exact Hk|exact Hin|congruence].
    + destruct (decide (message' = message)) as [->|Hne].
      * left. unfold messageRemoval. simpl. rewrite Hd.
        rewrite filter_cons_False by (simpl; tauto). done.
      * right. exists message, m, h0. unfold messageRemoval. simpl. rewrite Hd.
        rewrite filter_cons_True by (simpl; congruence). split_and!; [done..|].
        eapply elem_of_delete_other; [exact Hk|exact Hin|congruence].
Qed.

(** X5: on a page whose milestone display starts empty, over any sequence of
    events, the display holds at most one message; a message it holds is
    that of the milestone achieved last, and the timeout that removes it
    after 3000 ms is pending. *)
Theorem one_milestone_message_at_a_time (p : Page) (es : list Event) :
  milestoneDisplay p = [] →
  let w := run es (init p) in
  milestoneDisplay (page w) = []
  ∨ ∃ message m h,
      milestoneDisplay (page w) = [(message, m)]
      ∧ last (achievedMilestones (game w)) = Some m
      ∧ (h, (MessageRemoval message, 3000)) ∈ timeouts (timers w).
Proof.
  intros Hnone. apply (run_preserves shown step_shown).
  left. unfold init, updateDifficultyDisplay. destruct (field _ _); exact Hnone.
Qed.

Lemma one_milestone_message_at_a_time_witness :
  milestoneDisplay blankPage = []
  ∧ (milestoneDisplay (page (run twoFates (init blankPage))) = []
     ∨ ∃ message m h,
         milestoneDisplay (page (run twoFates (init blankPage))) = [(message, m)]
         ∧ last (achievedMilestones (game (run twoFates (init blankPage)))) = Some m
         ∧ (h, (MessageRemoval message, 3000))
           ∈ timeouts (timers (run twoFates (init blankPage)))).
Proof.
  split; [reflexivity|].
  exact (one_milestone_message_at_a_time blankPage twoFates eq_refl).
Defined.

(** ** What the page shows *)

Lemma startGame_props w :
  isPlaying (game w) = false →
  props (page (after (startGame w)))
  = startAssignments (hasInstructions (page w)) ++ props (page w).
Proof.
  intros Hplaying. unfold startGame. rewrite Hplaying.
  match goal with |- context [startGameLoop ?x] => set (w2 := x) end.
  assert (props (page w2) = startAssignments (hasInstructions (page w)) ++ props (page w)) as <-.
  { subst w2. unfold resetGame. rewrite clearIntervals_eq. simpl.
    destruct (hasInstructions (page w)); reflexivity. }
  clearbody w2. unfold startGameLoop, startTimer.
  destruct (settingsOf (difficulty (game w2))) eqn:Hsettings; simpl;
    rewrite ?Hsettings; reflexivity.
Qed.

Lemma checkMilestones_props w : props (page (checkMilestones w)) = props (page w).
Proof.
  pose proof (checkMilestones_besides w) as H. unfold besidesMilestones in H.
  inversion H. congruence.
Qed.

Lemma collectDrop_props dropId w :
  props (page (collectDrop dropId w))
  = match collectOutcome dropId w with
    | Collected _ _ => [("score", "textContent", Num (score (game w) + 1))]
    | _ => []
    end ++ props (page w).
Proof.
  unfold collectDrop, collectOutcome. simpl.
  destruct (list_find _ _) as [[i d]|]; [destruct (collected d)|]; try reflexivity.
  match goal with |- context [checkMilestones ?x] =>
    pose proof (checkMilestones_props x) as Hprops end.
  simpl in *. exact Hprops.
Qed.

(** A winning pass of the game loop. *)
Lemma checkWinCondition_won w d :
  settingsOf (difficulty (game w)) = Own d → targetScore d ≤ score (game w) →
  core (game (after (checkWinCondition w)))
  = (false, isPaused (game w), score (game w), gameTime (game w), drops (game w),
     difficulty (game w), achievedMilestones (game w))
  ∧ props (page (after (checkWinCondition w)))
    = winAssignments (hasInstructions (page w)) ++ props (page w).
Proof.
  intros Hsettings Hle. unfold checkWinCondition. rewrite Hsettings. simpl.
  rewrite bool_decide_eq_true_2 by done.
  unfold endGame. rewrite clearIntervals_eq. simpl.
  unfold showWinModal. simpl. rewrite Hsettings. simpl.
  destruct (hasInstructions (page w)); split; reflexivity.
Qed.

Lemma checkWinCondition_idle w :
  (∀ d, settingsOf (difficulty (game w)) = Own d → score (game w) < targetScore d) →
  after (checkWinCondition w) = w.
Proof.
  intros Hbelow. unfold checkWinCondition.
  destruct (settingsOf (difficulty (game w))) as [d| |] eqn:Hsettings; simpl; try done.
  rewrite bool_decide_eq_false_2; [done|]. specialize (Hbelow d eq_refl). lia.
Qed.

(** Evaluation of a lookup among assignments with known keys. *)
Ltac props_known :=
  unfold propOf; simpl;
  repeat first [rewrite filter_cons_True by reflexivity
               |rewrite filter_cons_False by (simpl; discriminate)];
  simpl.

Lemma mirrored_same w w' :
  props (page w') = props (page w) → figures w' = figures w →
  mirrored w → mirrored w'.
Proof.
  unfold mirrored, propOf, figures. intros -> [= -> -> ->]. done.
Qed.

Lemma step_mirrored w e : mirrored w → mirrored (step w e).
Proof.
  intros Hm.
  assert (∀ w0, mirrored w0 → isPlaying (game w0) = false →
                mirrored (after (startGame w0))) as Hstart.
  { intros w0 (_ & _ & Htarget) Hplaying.
    destruct (startGame_core w0 Hplaying) as [[= _ _ Hs Ht _ Hk _] _].
    pose proof (startGame_props w0 Hplaying) as Hprops.
    unfold mirrored, propOf in *. rewrite Hprops, Hs, Ht, Hk. clear Hprops.
    unfold startAssignments.
    destruct (hasInstructions (page w0)); props_known; auto. }
  destruct e as [| |value| | |onBackdrop| |dropId|h env|h]; unfold step; simpl.
  - (* ClickStart *)
    destruct (isPlaying (game w)) eqn:Hplaying; [|now apply Hstart].
    unfold startGame. now rewrite Hplaying.
  - (* ClickPause *)
    destruct Hm as (Hscore & Htimer & Htarget).
    unfold togglePause.
    destruct (isPlaying (game w)); simpl; [|done].
    unfold mirrored, propOf in *.
    destruct (isPaused (game w)); props_known; done.
  - (* ChangeSelect *)
    destruct Hm as (Hscore & Htimer & Htarget).
    unfold updateDifficultyDisplay. simpl.
    unfold mirrored, propOf in *.
    destruct (settingsOf value) as [d'| |] eqn:Hsettings; props_known;
      (split; [exact Hscore|split; [exact Htimer|]]); intros d Hd;
      rewrite Hsettings in Hd; inversion Hd; subst.
    props_known. done.
  - (* ClickPlayAgain *)
    unfold playAgain.
    assert (mirrored (hideModal w)) as Hm'.
    { destruct Hm as (Hscore & Htimer & Htarget).
      unfold mirrored, propOf in *. props_known. done. }
    destruct (isPlaying (game w)) eqn:Hplaying; [|now apply Hstart].
    unfold startGame. simpl. now rewrite Hplaying.
  - (* ClickChangeDifficulty *)
    destruct Hm as (Hscore & Htimer & Htarget).
    unfold mirrored, propOf in *. props_known. done.
  - (* ClickModal *)
    destruct onBackdrop; [|done].
    destruct Hm as (Hscore & Htimer & Htarget).
    unfold mirrored, propOf in *. props_known. done.
  - (* ClickGameArea *)
    eapply mirrored_same; [..|exact Hm];
      induction (areaListeners (page w)) as [|n IH]; simpl; done.
  - (* DropGesture *)
    pose proof (collectDrop_props dropId (log (LogDropClicked dropId) w)) as Hprops.
    change (collectOutcome dropId (log (LogDropClicked dropId) w))
      with (collectOutcome dropId w) in Hprops.
    simpl in Hprops.
    destruct (collectOutcome dropId w) as [| |i d] eqn:Houtcome.
    + rewrite collectDrop_not_found by exact Houtcome. exact Hm.
    + rewrite collectDrop_already by exact Houtcome. exact Hm.
    + destruct (collectDrop_collected dropId (log (LogDropClicked dropId) w) i d Houtcome)
        as [Hgame _].
      destruct Hm as (Hscore & Htimer & Htarget).
      unfold mirrored, propOf in *. rewrite Hprops, Hgame. props_known. auto.
  - (* IntervalFires *)
    destruct (list_find _ _) as [[k [h' [cb delay]]]|]; [|done].
    destruct (negb (isPaused (game w)) && isPlaying (game w)) eqn:Hguard;
      destruct cb; simpl; rewrite ?Hguard; try done.
    + (* spawn *)
      eapply mirrored_same; [..|exact Hm]; unfold spawnDrop; simpl;
        destruct (field _ _); done.
    + (* loop *)
      assert (mirrored (updateDrops env w)) as Hm'.
      { eapply mirrored_same; [..|exact Hm]; rewrite updateDrops_spec; done. }
      revert Hm'. generalize (updateDrops env w) as w1. intros w1 Hm'.
      destruct (settingsOf (difficulty (game w1))) as [d| |] eqn:Hsettings.
      2,3: rewrite checkWinCondition_idle; [done|intros d; congruence].
      destruct (decide (targetScore d ≤ score (game w1))) as [Hle|Hlt].
      2: { rewrite checkWinCondition_idle; [done|].
           intros d' Hd'. assert (d' = d) as -> by congruence. lia. }
      destruct (checkWinCondition_won w1 d Hsettings Hle) as [[= _ _ Hs Ht _ Hk _] Hprops].
      destruct Hm' as (Hscore & Htimer & Htarget).
      unfold mirrored, propOf in *. rewrite Hprops, Hs, Ht, Hk. unfold winAssignments.
      destruct (hasInstructions (page w1)); props_known; done.
    + (* timer *)
      destruct Hm as (Hscore & Htimer & Htarget).
      unfold mirrored, propOf in *. props_known. done.
  - (* TimeoutFires *)
    destruct (list_find _ _) as [[k [h' [cb delay]]]|]; [|done]. simpl.
    eapply mirrored_same; [..|exact Hm];
      destruct cb as [dropElement dropId|message]; simpl; try done;
      unfold dropCleanup; destruct (attached _ _);
      destruct (list_find _ _) as [[i d]|]; done.
Qed.

Lemma init_eq p :
  init p
  = mkWorld newGame (set_props (("target", "textContent", Num 25) :: props p) p)
      (mkTimers [] [] 1%nat) [LogInitialized; LogGoal; LogClickDrops] [].
Proof.
  unfold init, updateDifficultyDisplay. simpl.
  replace (settingsOf "normal") with (Own normal) by (vm_compute; reflexivity).
  reflexivity.
Qed.

(** X6: on a page to which the script has assigned nothing yet, over any
    sequence of events, what the script has written into the score, timer
    and target elements agrees with the game object: the score element holds
    the score (or the string '0' of a reset, at score 0), the timer element
    the elapsed seconds followed by 's', and the target element the target
    score of the selected difficulty whenever the table has it; an element
    not written yet goes with a score or a time of 0. *)
Theorem page_shows_score_timer_target (p : Page) (es : list Event) :
  props p = [] →
  let w := run es (init p) in
  match propOf "score" "textContent" w with
  | None => score (game w) = 0
  | Some v => v = Num (score (game w)) ∨ (v = Str "0" ∧ score (game w) = 0)
  end
  ∧ match propOf "timer" "textContent" w with
    | None => gameTime (game w) = 0
    | Some v => v = Str (dec (gameTime (game w)) +:+ "s")
    end
  ∧ ∀ d, settingsOf (difficulty (game w)) = Own d →
         propOf "target" "textContent" w = Some (Num (targetScore d)).
Proof.
  intros Hnone. apply (run_preserves mirrored step_mirrored).
  rewrite init_eq. unfold mirrored, propOf. simpl. rewrite Hnone.
  split_and!; try reflexivity. intros d Hd. vm_compute in Hd. injection Hd as <-.
  reflexivity.
Qed.

Lemma page_shows_score_timer_target_witness :
  props blankPage = []
  ∧ settingsOf (difficulty (game (run twoFates (init blankPage)))) = Own normal
  ∧ propOf "target" "textContent" (run twoFates (init blankPage))
    = Some (Num (targetScore normal)).
Proof.
  assert (settingsOf (difficulty (game (run twoFates (init blankPage)))) = Own normal)
    as H1 by (vm_compute; reflexivity).
  destruct (page_shows_score_timer_target blankPage twoFates eq_refl)
    as (_ & _ & Htarget).
  split; [reflexivity|]. split; [exact H1|]. exact (Htarget normal H1).
Defined.

(** ** The controls *)

Lemma controls_same w w' :
  props (page w') = props (page w) →
  isPlaying (game w') = isPlaying (game w) → isPaused (game w') = isPaused (game w) →
  controls w → controls w'.
Proof. unfold controls, propOf. intros -> -> ->. done. Qed.

Ltac settled :=
  split_and!; first [done | solve [constructor] | solve [constructor; constructor]].

Lemma step_controls w e : controls w → controls (step w e).
Proof.
  intros Hc.
  assert (∀ w0, controls w0 → isPlaying (game w0) = false →
                controls (after (startGame w0))) as Hstart.
  { intros w0 (Hpaused & _ & Hlabel) Hplaying.
    destruct (startGame_core w0 Hplaying) as [[= Hp Hq _ _ _ _ _] _].
    pose proof (startGame_props w0 Hplaying) as Hprops.
    destruct (isPaused (game w0)) eqn:Hq0; [specialize (Hpaused eq_refl); congruence|].
    unfold controls, propOf in *. rewrite Hprops, Hp, Hq. clear Hprops.
    unfold startAssignments.
    destruct (hasInstructions (page w0)); props_known; settled. }
  destruct e as [| |value| | |onBackdrop| |dropId|h env|h]; unfold step; simpl.
  - (* ClickStart *)
    destruct (isPlaying (game w)) eqn:Hplaying; [|now apply Hstart].
    unfold startGame. now rewrite Hplaying.
  - (* ClickPause *)
    destruct Hc as (Hpaused & Hbuttons & Hlabel).
    unfold togglePause.
    destruct (isPlaying (game w)) eqn:Hplaying; simpl.
    2: { unfold controls. rewrite Hplaying. done. }
    unfold controls, propOf in *.
    destruct (isPaused (game w)) eqn:Hq; simpl; rewrite ?Hplaying, ?Hq; props_known;
      destruct Hbuttons as (? & ? & ?); settled.
  - (* ChangeSelect *)
    destruct Hc as (Hpaused & Hbuttons & Hlabel).
    unfold updateDifficultyDisplay. simpl.
    unfold controls, propOf in *.
    destruct (field _ _); simpl; destruct (isPlaying (game w)), (isPaused (game w));
      props_known; done.
  - (* ClickPlayAgain *)
    unfold playAgain.
    assert (controls (hideModal w)) as Hc'.
    { destruct Hc as (Hpaused & Hbuttons & Hlabel).
      unfold controls, propOf in *. simpl.
      destruct (isPlaying (game w)), (isPaused (game w)); props_known; done. }
    destruct (isPlaying (game w)) eqn:Hplaying; [|now apply Hstart].
    unfold startGame. simpl. now rewrite Hplaying.
  - (* ClickChangeDifficulty *)
    destruct Hc as (Hpaused & Hbuttons & Hlabel).
    unfold controls, propOf in *. simpl.
    destruct (isPlaying (game w)), (isPaused (game w)); props_known; done.
  - (* ClickModal *)
    destruct onBackdrop; [|done].
    destruct Hc as (Hpaused & Hbuttons & Hlabel).
    unfold controls, propOf in *. simpl.
    destruct (isPlaying (game w)), (isPaused (game w)); props_known; done.
  - (* ClickGameArea *)
    eapply controls_same; [..|exact Hc];
      induction (areaListeners (page w)) as [|n IH]; simpl; done.
  - (* DropGesture *)
    pose proof (collectDrop_props dropId (log (LogDropClicked dropId) w)) as Hprops.
    pose proof (collectDrop_control dropId (log (LogDropClicked dropId) w))
      as [= Hp Hq _ _ _].
    simpl in Hprops, Hp, Hq.
    destruct Hc as (Hpaused & Hbuttons & Hlabel).
    unfold controls, propOf in *. rewrite Hprops, Hp, Hq.
    destruct (collectOutcome _ _); simpl;
      destruct (isPlaying (game w)), (isPaused (game w)); props_known; done.
  - (* IntervalFires *)
    destruct (list_find _ _) as [[k [h' [cb delay]]]|]; [|done].
    destruct (negb (isPaused (game w)) && isPlaying (game w)) eqn:Hguard;
      destruct cb; simpl; rewrite ?Hguard; try done.
    + (* spawn *)
      eapply controls_same; [..|exact Hc]; unfold spawnDrop; simpl;
        destruct (field _ _); done.
    + (* loop *)
      apply guard_running in Hguard as [Hp Hq].
      assert (controls (updateDrops env w) ∧ isPaused (game (updateDrops env w)) = false)
        as [Hc' Hq'].
      { split; [|rewrite updateDrops_spec; exact Hq].
        eapply controls_same; [..|exact Hc]; rewrite updateDrops_spec; done. }
      revert Hc' Hq'. generalize (updateDrops env w) as w1. intros w1 Hc' Hq'.
      destruct (settingsOf (difficulty (game w1))) as [d| |] eqn:Hsettings.
      2,3: rewrite checkWinCondition_idle; [done|intros d; congruence].
      destruct (decide (targetScore d ≤ score (game w1))) as [Hle|Hlt].
      2: { rewrite checkWinCondition_idle; [done|].
           intros d' Hd'. assert (d' = d) as -> by congruence. lia. }
      destruct (checkWinCondition_won w1 d Hsettings Hle) as [[= Hp' Hq'' _ _ _ _ _] Hprops].
      destruct Hc' as (Hpaused & Hbuttons & Hlabel).
      unfold controls, propOf in *. rewrite Hprops, Hp', Hq'', Hq' in *.
      unfold winAssignments.
      destruct (hasInstructions (page w1)); props_known; settled.
  - (* TimeoutFires *)
    destruct (list_find _ _) as [[k [h' [cb delay]]]|]; [|done]. simpl.
    eapply controls_same; [..|exact Hc];
      destruct cb as [dropElement dropId|message]; simpl; try done;
      unfold dropCleanup; destruct (attached _ _);
      destruct (list_find _ _) as [[i d]|]; done.
Qed.

(** X7: on a page to which the script has assigned nothing yet, over any
    sequence of events, the controls follow the session: it is paused only
    while it is being played; while it is being played the start button is
    hidden, the pause button shown and the difficulty select disabled, and
    otherwise they are as the page came or the start button is shown, the
    pause button hidden and the select enabled; the pause button reads
    'Resume' while the session is paused and 'Pause' (or what the page came
    with) while it is not. *)
Theorem controls_follow_session (p : Page) (es : list Event) :
  props p = [] →
  let w := run es (init p) in
  (isPaused (game w) = true → isPlaying (game w) = true)
  ∧ (if isPlaying (game w)
     then propOf "startBtn" "style.display" w = Some (Str "none")
          ∧ propOf "pauseBtn" "style.display" w = Some (Str "inline-block")
          ∧ propOf "difficultySelect" "disabled" w = Some (Flag true)
     else propOf "startBtn" "style.display" w ∈ [None; Some (Str "inline-block")]
          ∧ propOf "pauseBtn" "style.display" w ∈ [None; Some (Str "none")]
          ∧ propOf "difficultySelect" "disabled" w ∈ [None; Some (Flag false)])
  ∧ (if isPaused (game w)
     then propOf "pauseBtn" "textContent" w = Some (Str "Resume")
     else propOf "pauseBtn" "textContent" w ∈ [None; Some (Str "Pause")]).
Proof.
  intros Hnone. apply (run_preserves controls step_controls).
  rewrite init_eq. unfold controls, propOf. simpl. rewrite Hnone.
  split_and!; try done; set_solver.
Qed.

Lemma controls_follow_session_witness :
  props blankPage = []
  ∧ isPaused (game (run pausedWithDrop (init blankPage))) = true
  ∧ isPlaying (game (run pausedWithDrop (init blankPage))) = true.
Proof.
  assert (isPaused (game (run pausedWithDrop (init blankPage))) = true) as H1
    by (vm_compute; reflexivity).
  split; [reflexivity|]. split; [exact H1|].
  exact (proj1 (controls_follow_session blankPage pausedWithDrop eq_refl) H1).
Defined.

(** ** Sounds and listeners *)

Lemma startGame_played w :
  isPlaying (game w) = false →
  played (after (startGame w)) = played w ++ ["gameStart"]
  ∧ areaListeners (page (after (startGame w))) = S (areaListeners (page w)).
Proof.
  intros Hplaying. unfold startGame. rewrite Hplaying.
  match goal with |- context [startGameLoop ?x] => set (w2 := x) end.
  assert (played w2 = played w ++ ["gameStart"]
          ∧ areaListeners (page w2) = S (areaListeners (page w))) as [<- <-].
  { subst w2. unfold resetGame. rewrite clearIntervals_eq. simpl.
    destruct (hasInstructions (page w)); split; reflexivity. }
  clearbody w2. unfold startGameLoop, startTimer.
  destruct (settingsOf (difficulty (game w2))) eqn:Hsettings; simpl;
    rewrite ?Hsettings; split; reflexivity.
Qed.

Lemma checkMilestones_played w :
  played (checkMilestones w) = played w
  ∧ areaListeners (page (checkMilestones w)) = areaListeners (page w).
Proof.
  pose proof (checkMilestones_besides w) as H. unfold besidesMilestones in H.
  inversion H. split; congruence.
Qed.

Lemma collectDrop_played dropId w :
  played (collectDrop dropId w)
  = played w ++ match collectOutcome dropId w with
                | Collected _ _ => ["collect"]
                | _ => []
                end
  ∧ areaListeners (page (collectDrop dropId w)) = areaListeners (page w).
Proof.
  unfold collectDrop, collectOutcome. simpl.
  destruct (list_find _ _) as [[i d]|]; [destruct (collected d)|];
    rewrite ?app_nil_r; try done.
  match goal with |- context [checkMilestones ?x] =>
    destruct (checkMilestones_played x) as [Hplayed Hlisteners] end.
  simpl in *. split; [exact Hplayed|exact Hlisteners].
Qed.

Lemma checkWinCondition_played w :
  (∃ extra, played (after (checkWinCondition w)) = played w ++ extra
            ∧ Forall (λ s, s = "gameOver") extra)
  ∧ areaListeners (page (after (checkWinCondition w))) = areaListeners (page w).
Proof.
  assert (∃ extra, played w = played w ++ extra ∧ Forall (λ s, s = "gameOver") extra)
    as Hsame by (exists []; rewrite app_nil_r; split; [done|constructor]).
  unfold checkWinCondition. destruct (field _ _) as [target| |]; try done.
  case_bool_decide; [|done].
  unfold endGame. rewrite clearIntervals_eq. simpl. unfold showWinModal. simpl.
  destruct (settingsOf _); simpl; try destruct (hasInstructions _); simpl;
    (split; [|done]); exists ["gameOver"]; (split; [done|repeat constructor]).
Qed.

Lemma iter_log_played n entry w :
  played (Nat.iter n (log entry) w) = played w
  ∧ areaListeners (page (Nat.iter n (log entry) w)) = areaListeners (page w).
Proof. induction n as [|n IH]; [done|]. simpl. exact IH. Qed.

(** What each event adds to the sounds played and to the listeners of the
    game area. *)
Lemma step_played w e :
  (∃ extra, played (step w e) = played w ++ extra
     ∧ (sounds "gameStart" (step w e) + areaListeners (page w)
        = sounds "gameStart" w + areaListeners (page (step w e)))%nat)
  ∧ ((∃ dropId i d, e = DropGesture dropId ∧ collectOutcome dropId w = Collected i d
        ∧ played (step w e) = played w ++ ["collect"])
     ∨ ((∀ dropId i d, e = DropGesture dropId → collectOutcome dropId w ≠ Collected i d)
        ∧ sounds "collect" (step w e) = sounds "collect" w)).
Proof.
  assert (∀ w', played w' = played w → areaListeners (page w') = areaListeners (page w) →
    ∃ extra, played w' = played w ++ extra
      ∧ (sounds "gameStart" w' + areaListeners (page w)
         = sounds "gameStart" w + areaListeners (page w'))%nat) as Hsame.
  { intros w' Hp Ha. exists []. unfold sounds. rewrite Hp, Ha, app_nil_r. done. }
  assert (∀ w0, played w0 = played w → areaListeners (page w0) = areaListeners (page w) →
    (∃ extra, played (after (startGame w0)) = played w ++ extra
       ∧ (sounds "gameStart" (after (startGame w0)) + areaListeners (page w)
          = sounds "gameStart" w + areaListeners (page (after (startGame w0))))%nat)
    ∧ sounds "collect" (after (startGame w0)) = sounds "collect" w) as Hstart.
  { intros w0 Hp Ha. destruct (isPlaying (game w0)) eqn:Hplaying.
    - unfold startGame. rewrite Hplaying. simpl. split; [now apply Hsame|].
      unfold sounds. now rewrite Hp.
    - destruct (startGame_played w0 Hplaying) as [Hp' Ha'].
      unfold sounds. rewrite Hp', Ha', Hp, Ha, !filter_app, !length_app. simpl.
      split; [|lia]. exists ["gameStart"]. split; [done|]. simpl. lia. }
  destruct e as [| |value| | |onBackdrop| |dropId|h env|h]; unfold step; simpl.
  - (* ClickStart *)
    destruct (Hstart w eq_refl eq_refl) as [Hs Hc]. split; [exact Hs|]. right. done.
  - (* ClickPause *)
    assert (played (togglePause w) = played w
            ∧ areaListeners (page (togglePause w)) = areaListeners (page w)) as [Hp Ha].
    { unfold togglePause. destruct (isPlaying (game w)); simpl; [|done].
      destruct (isPaused (game w)); done. }
    split; [now apply Hsame|]. right. unfold sounds. now rewrite Hp.
  - (* ChangeSelect *)
    assert (played (after (updateDifficultyDisplay (withGame (set_difficulty value) w)))
            = played w
            ∧ areaListeners (page (after (updateDifficultyDisplay
                                            (withGame (set_difficulty value) w))))
              = areaListeners (page w)) as [Hp Ha].
    { unfold updateDifficultyDisplay. simpl. destruct (field _ _); done. }
    split; [now apply Hsame|]. right. unfold sounds. now rewrite Hp.
  - (* ClickPlayAgain *)
    destruct (Hstart (hideModal w) eq_refl eq_refl) as [Hs Hc].
    split; [exact Hs|]. right. done.
  - (* ClickChangeDifficulty *)
    split; [apply (Hsame (changeDifficulty w)); done|]. right. done.
  - (* ClickModal *)
    destruct onBackdrop; (split; [|right; done]);
      [apply (Hsame (hideModal w)); done|apply (Hsame w); done].
  - (* ClickGameArea *)
    destruct (iter_log_played (areaListeners (page w)) LogAreaClicked w) as [Hp Ha].
    split; [now apply Hsame|]. right. unfold sounds. now rewrite Hp.
  - (* DropGesture *)
    destruct (collectDrop_played dropId (log (LogDropClicked dropId) w)) as [Hp Ha].
    change (collectOutcome dropId (log (LogDropClicked dropId) w))
      with (collectOutcome dropId w) in Hp.
    simpl in Hp, Ha.
    destruct (collectOutcome dropId w) as [| |i d] eqn:Houtcome.
    + rewrite app_nil_r in Hp. split; [now apply Hsame|]. right.
      split; [intros ? ? ? [= <-]; congruence|]. unfold sounds. now rewrite Hp.
    + rewrite app_nil_r in Hp. split; [now apply Hsame|]. right.
      split; [intros ? ? ? [= <-]; congruence|]. unfold sounds. now rewrite Hp.
    + split; [|left; eauto 6].
      exists ["collect"]. split; [done|]. unfold sounds.
      rewrite Hp, Ha, filter_app, length_app. simpl. lia.
  - (* IntervalFires *)
    destruct (list_find _ _) as [[k [h' [cb delay]]]|];
      [|split; [now apply Hsame|right; done]].
    destruct (negb (isPaused (game w)) && isPlaying (game w)) eqn:Hguard;
      destruct cb; simpl; rewrite ?Hguard;
      try (split; [now apply Hsame|right; done]).
    + (* spawn *)
      assert (played (after (spawnDrop env w)) = played w
              ∧ areaListeners (page (after (spawnDrop env w))) = areaListeners (page w))
        as [Hp Ha] by (unfold spawnDrop; simpl; destruct (field _ _); done).
      split; [now apply Hsame|]. right. unfold sounds. now rewrite Hp.
    + (* loop *)
      destruct (checkWinCondition_played (updateDrops env w))
        as [(extra & Hp & Hover) Ha].
      rewrite updateDrops_spec in Hp, Ha. simpl in Hp, Ha.
      rewrite <- updateDrops_spec in Hp, Ha.
      assert (∀ soundName, soundName ≠ "gameOver" →
                filter (λ s, s = soundName) extra = []) as Hnone.
      { intros soundName Hne. clear Hp. induction Hover as [|s extra -> _ IH]; [done|].
        rewrite filter_cons_False by congruence. exact IH. }
      split; [|right; split; [done|]].
      * exists extra. split; [done|]. unfold sounds.
        rewrite Hp, Ha, filter_app, Hnone, app_nil_r by done. done.
      * unfold sounds. rewrite Hp, filter_app, Hnone, app_nil_r by done. done.
  - (* TimeoutFires *)
    destruct (list_find _ _) as [[k [h' [cb delay]]]|];
      [|split; [now apply Hsame|right; done]]. simpl.
    match goal with |- context [runTimeout cb ?x] =>
      assert (played (runTimeout cb x) = played w
              ∧ areaListeners (page (runTimeout cb x)) = areaListeners (page w))
        as [Hp Ha] end.
    { destruct cb as [dropElement dropId|message]; simpl; try done.
      unfold dropCleanup. destruct (attached _ _);
        destruct (list_find _ _) as [[i d]|]; done. }
    split; [now apply Hsame|]. right. unfold sounds. now rewrite Hp.
Qed.

Lemma run_listeners es w :
  (sounds "gameStart" (run es w) + areaListeners (page w)
   = sounds "gameStart" w + areaListeners (page (run es w)))%nat.
Proof.
  revert w. induction es as [|e es IH]; intros w; [done|].
  simpl. specialize (IH (step w e)).
  destruct (step_played w e) as [(extra & _ & Hstep) _]. lia.
Qed.

Lemma step_applauded w e l :
  sounds "collect" w = length (collectedEver l) →
  sounds "collect" (step w e) = length (collectedEver (record w e l)).
Proof.
  intros Hw.
  destruct (step_played w e) as [_ [(dropId & i & d & -> & Houtcome & Hplayed)
                                   |[Hnot Hsame]]].
  - simpl. rewrite Houtcome. simpl. unfold sounds in *.
    rewrite Hplayed, filter_app, !length_app, Hw. done.
  - rewrite Hsame, Hw. f_equal.
    destruct e as [| |value| | |onBackdrop| |dropId|h env|h]; simpl; try done.
    + destruct (isPlaying (game w)); done.
    + destruct (isPlaying (game w)); done.
    + destruct (collectOutcome dropId w) as [| |i d] eqn:Houtcome; try done.
      exfalso. exact (Hnot dropId i d eq_refl Houtcome).
    + destruct (list_find _ _) as [[k [h' [cb delay]]]|]; [|done].
      destruct (_ && _); [|done]. destruct cb; try done.
      destruct (settingsOf _); done.
Qed.

Lemma run_applauded es w l :
  sounds "collect" w = length (collectedEver l) →
  sounds "collect" (run es w) = length (collectedEver (ledger es w l)).
Proof.
  revert w l. induction es as [|e es IH]; intros w l Hw; [done|].
  simpl. apply IH, step_applauded, Hw.
Qed.

(** X8: every start of a session adds one more click listener to the game
    area and none is ever removed: over any sequence of events the listeners
    are those the page came with and one for every time the start sound was
    played; a click on the game area is then logged once by each. *)
Theorem game_area_listeners_pile_up (p : Page) (es : list Event) :
  let w := run es (init p) in
  areaListeners (page w) = (areaListeners p + sounds "gameStart" w)%nat
  ∧ console (step w ClickGameArea)
    = console w ++ replicate (areaListeners (page w)) LogAreaClicked.
Proof.
  intros w. split; [|apply iter_log_console].
  pose proof (run_listeners es (init p)) as Hrun. fold w in Hrun.
  assert (sounds "gameStart" (init p) = 0%nat ∧ areaListeners (page (init p))
          = areaListeners p) as [H0 Ha].
  { unfold init, updateDifficultyDisplay. destruct (field _ _); done. }
  lia.
Qed.

(** X10: over any sequence of events the collect sound has been played
    once for every drop collected, that is once for every 'collected
    successfully' line on the console: an attempt that finds no drop, or a
    drop already collected, plays nothing. *)
Theorem one_collect_sound_per_drop (p : Page) (es : list Event) :
  let w := run es (init p) in
  sounds "collect" w = length (collectedScores (console w)).
Proof.
  intros w.
  destruct (run_logged es (init p) emptyLedger (logged_init p)) as [_ Hlogged].
  fold w in Hlogged. rewrite Hlogged.
  apply run_applauded. unfold init, updateDifficultyDisplay.
  destruct (field _ _); reflexivity.
Qed.

(** ** Drop elements while paused *)

Lemma frozen_stage w w' : stage w' = stage w → frozen w → frozen w'.
Proof. unfold stage, frozen. intros [= -> -> ->]. done. Qed.

(** Fewer elements, or elements changed in other respects, stay as frozen
    as they were. *)
Lemma frozen_elements w w' :
  isPlaying (game w') = isPlaying (game w) → isPaused (game w') = isPaused (game w) →
  (∀ e', e' ∈ waterDrops (page w') →
     ∃ e, e ∈ waterDrops (page w) ∧ animationPlayState e' = animationPlayState e) →
  frozen w → frozen w'.
Proof.
  unfold frozen. intros -> -> Hfrom [Hpaused Hall]. split; [done|].
  intros e' (e & He & ->)%Hfrom. now apply Hall.
Qed.

Lemma checkMilestones_stage w : stage (checkMilestones w) = stage w.
Proof.
  pose proof (checkMilestones_besides w) as H. unfold besidesMilestones in H.
  unfold stage. inversion H. congruence.
Qed.

Lemma collectDrop_frozen dropId w : frozen w → frozen (collectDrop dropId w).
Proof.
  intros Hfrozen. unfold collectDrop. simpl.
  destruct (list_find _ _) as [[i d]|]; [destruct (collected d)|]; try exact Hfrozen.
  match goal with |- context [checkMilestones ?x] =>
    pose proof (checkMilestones_stage x) as [= Hp Hq He] end.
  simpl in Hp, Hq, He.
  eapply frozen_elements; [exact Hp|exact Hq| |exact Hfrozen].
  simpl. rewrite He. intros e' (e & -> & He')%list_elem_of_fmap.
  exists e. split; [done|]. case_bool_decide; reflexivity.
Qed.

Lemma step_frozen w ev : frozen w → frozen (step w ev).
Proof.
  intros Hfrozen.
  assert (∀ w0, isPlaying (game w0) = false → frozen (after (startGame w0))) as Hstart.
  { intros w0 Hplaying.
    destruct (startGame_core w0 Hplaying) as [[= Hp Hq _ _ _ _ _] Hnone].
    unfold frozen. rewrite Hp, Hq, Hnone. split; [done|]. intros e He. inversion He. }
  destruct ev as [| |value| | |onBackdrop| |dropId|h env|h]; unfold step; simpl.
  - (* ClickStart *)
    destruct (isPlaying (game w)) eqn:Hplaying; [|now apply Hstart].
    unfold startGame. now rewrite Hplaying.
  - (* ClickPause *)
    unfold togglePause. destruct (isPlaying (game w)) eqn:Hplaying; simpl; [|done].
    unfold frozen.
    destruct (isPaused (game w)) eqn:Hpaused; simpl; rewrite ?Hplaying, ?Hpaused;
      (split; [done|]); intros e' (e & -> & _)%list_elem_of_fmap; simpl; done.
  - (* ChangeSelect *)
    eapply frozen_stage; [|exact Hfrozen]. unfold updateDifficultyDisplay. simpl.
    destruct (field _ _); done.
  - (* ClickPlayAgain *)
    unfold playAgain. destruct (isPlaying (game w)) eqn:Hplaying; [|now apply Hstart].
    unfold startGame. simpl. now rewrite Hplaying.
  - (* ClickChangeDifficulty *) done.
  - (* ClickModal *) destruct onBackdrop; done.
  - (* ClickGameArea *)
    eapply frozen_stage; [|exact Hfrozen].
    induction (areaListeners (page w)) as [|n IH]; simpl; done.
  - (* DropGesture *) now apply collectDrop_frozen.
  - (* IntervalFires *)
    destruct (list_find _ _) as [[k [h' [cb delay]]]|]; [|done].
    destruct (negb (isPaused (game w)) && isPlaying (game w)) eqn:Hguard;
      destruct cb; simpl; rewrite ?Hguard; try done.
    + (* spawn *)
      apply guard_running in Hguard as [Hp Hq]. destruct Hfrozen as [Hpaused Hall].
      unfold spawnDrop, frozen. simpl.
      destruct (field _ _); simpl; rewrite ?Hq in *; (split; [done|]); try done.
      all: intros e [He| ->%list_elem_of_singleton]%elem_of_app; [now apply Hall|done].
    + (* loop *)
      apply guard_running in Hguard as [Hp Hq].
      assert (frozen (updateDrops env w)) as Hfrozen'.
      { eapply frozen_elements; [..|exact Hfrozen]; rewrite updateDrops_spec; try done.
        simpl. intros e' [_ He']%list_elem_of_filter. eauto. }
      assert (isPaused (game (updateDrops env w)) = false) as Hq'
        by (rewrite updateDrops_spec; exact Hq).
      revert Hfrozen' Hq'. generalize (updateDrops env w) as w1. intros w1 Hfrozen' Hq'.
      unfold checkWinCondition. destruct (field _ _) as [target| |]; try exact Hfrozen'.
      case_bool_decide; [|exact Hfrozen'].
      destruct Hfrozen' as [_ Hall].
      unfold endGame. rewrite clearIntervals_eq. simpl. unfold showWinModal. simpl.
      unfold frozen.
      destruct (settingsOf _); simpl; try destruct (hasInstructions _); simpl;
        rewrite ?Hq' in *; (split; [done|exact Hall]).
  - (* TimeoutFires *)
    destruct (list_find _ _) as [[k [h' [cb delay]]]|]; [|done]. simpl.
    destruct cb as [dropElement dropId|message]; simpl; [|done].
    eapply frozen_elements; [..|exact Hfrozen]; unfold dropCleanup;
      destruct (attached _ _); destruct (list_find _ _) as [[i d]|]; simpl; try done.
    all: intros e' He'; try apply list_elem_of_filter in He' as [_ He']; eauto.
Qed.

(** X9: on a page that starts with no drop element, over any sequence of
    events, the drop elements are frozen exactly while the session is
    paused: every one has [animationPlayState] 'paused' while it is, none
    has while it is not. *)
Theorem animations_frozen_while_paused (p : Page) (es : list Event) :
  waterDrops p = [] →
  let w := run es (init p) in
  ∀ e, e ∈ waterDrops (page w) →
    if isPaused (game w) then animationPlayState e = Some "paused"
    else animationPlayState e ≠ Some "paused".
Proof.
  intros Hnone w. apply (run_preserves frozen step_frozen).
  unfold init, updateDifficultyDisplay, frozen.
  destruct (field _ _); simpl; rewrite Hnone; (split; [done|]);
    intros e He; inversion He.
Qed.

Lemma animations_frozen_while_paused_witness :
  waterDrops blankPage = []
  ∧ mkDropElement 0%nat "drop_1000_7" "2000ms" false None (Some "paused")
    ∈ waterDrops (page (run pausedWithDrop (init blankPage)))
  ∧ (if isPaused (game (run pausedWithDrop (init blankPage)))
     then animationPlayState
            (mkDropElement 0%nat "drop_1000_7" "2000ms" false None (Some "paused"))
          = Some "paused"
     else animationPlayState
            (mkDropElement 0%nat "drop_1000_7" "2000ms" false None (Some "paused"))
          ≠ Some "paused").
Proof.
  assert (waterDrops (page (run pausedWithDrop (init blankPage)))
          = [mkDropElement 0%nat "drop_1000_7" "2000ms" false None (Some "paused")])
    as Heq by (vm_compute; reflexivity).
  assert (mkDropElement 0%nat "drop_1000_7" "2000ms" false None (Some "paused")
          ∈ waterDrops (page (run pausedWithDrop (init blankPage)))) as H1
    by (rewrite Heq; left).
  split; [reflexivity|]. split; [exact H1|].
  exact (animations_frozen_while_paused blankPage pausedWithDrop eq_refl _ H1).
Defined.

(** ** Drops and their elements *)

Lemma checkMilestones_timeouts w :
  ∀ t, t ∈ timeouts (timers (checkMilestones w)) →
       t ∈ timeouts (timers w) ∨ ∃ message, t.2.1 = MessageRemoval message.
Proof.
  unfold checkMilestones, forEach. generalize milestones as l. intros l. revert w.
  induction l as [|m l IH]; intros w t Ht; simpl in *; [now left|].
  apply IH in Ht as [Ht|Ht]; [|now right].
  unfold checkMilestone in Ht. destruct (_ && _); [|now left]. simpl in Ht.
  apply elem_of_app in Ht as [Ht| ->%list_elem_of_singleton]; [now left|].
  right. eauto.
Qed.

Lemma same_change w w' l :
  drops (game w') = drops (game w) → waterDrops (page w') = waterDrops (page w) →
  timeouts (timers w') = timeouts (timers w) → Change w w' l l.
Proof.
  intros Hd He Ht. apply (Restyled _ _ _ _ (λ e, e)); [done|done| | |done].
  - now rewrite list_fmap_id.
  - now rewrite Ht.
Qed.

Lemma startGame_change w l :
  isPlaying (game w) = false →
  Change w (after (startGame w)) l
    (mkLedger (spawned l) [] (collectedEver l) (expired l)).
Proof.
  intros Hplaying.
  destruct (startGame_core w Hplaying) as [[= _ _ _ _ Hd _ _] He].
  apply Cleared; [done|done| |done].
  unfold startGame. rewrite Hplaying.
  match goal with |- context [startGameLoop ?x] => set (w2 := x) end.
  assert (timeouts (timers w2) = timeouts (timers w)) as <-.
  { subst w2. unfold resetGame. rewrite clearIntervals_eq. simpl.
    destruct (hasInstructions (page w)); reflexivity. }
  clearbody w2. unfold startGameLoop, startTimer.
  destruct (settingsOf (difficulty (game w2))) eqn:Hsettings; simpl;
    rewrite ?Hsettings; reflexivity.
Qed.

Lemma collectDrop_change dropId w l :
  Change w (collectDrop dropId w) l (record w (DropGesture dropId) l).
Proof.
  simpl. destruct (collectOutcome dropId w) as [| |i d] eqn:Houtcome.
  - rewrite collectDrop_not_found by done. now apply same_change.
  - rewrite collectDrop_already by done. now apply same_change.
  - destruct (collectOutcome_found dropId w i d Houtcome) as (Hi & Hid & Hc & _).
    destruct (collectDrop_collected dropId w i d Houtcome) as [Hgame _].
    apply (Marked _ _ _ _ i d); [done|done|now rewrite Hgame| | |done].
    + unfold collectDrop, collectOutcome in *. simpl in *.
      destruct (list_find _ _) as [[j e]|]; [destruct (collected e)|]; try done.
      injection Houtcome as -> ->.
      match goal with |- context [checkMilestones ?x] =>
        pose proof (checkMilestones_stage x) as [= _ _ He] end.
      simpl in *. exact He.
    + intros t Ht. unfold collectDrop, collectOutcome in *. simpl in *.
      destruct (list_find _ _) as [[j e]|]; [destruct (collected e)|]; try done.
      injection Houtcome as -> ->. simpl in Ht.
      apply elem_of_app in Ht as [Ht| ->%list_elem_of_singleton].
      * apply checkMilestones_timeouts in Ht as [Ht|Ht]; [now left|now right; left].
      * right; right. simpl. now rewrite Hid.
Qed.

Lemma endGame_same won w :
  drops (game (after (endGame won w))) = drops (game w)
  ∧ waterDrops (page (after (endGame won w))) = waterDrops (page w)
  ∧ timeouts (timers (after (endGame won w))) = timeouts (timers w).
Proof.
  unfold endGame. rewrite clearIntervals_eq. simpl.
  destruct won; unfold showWinModal, showGameOverModal; simpl;
    destruct (settingsOf _); simpl; try destruct (hasInstructions _); done.
Qed.

(** [Change] looks at the drops, the drop elements, the timeouts and the
    element counter only. *)
Lemma change_to w w' w'' l l' :
  drops (game w'') = drops (game w') → waterDrops (page w'') = waterDrops (page w') →
  timeouts (timers w'') = timeouts (timers w') →
  Change w w' l l' → Change w w'' l l'.
Proof.
  intros Hd He Ht Hchange.
  destruct Hchange as [H1 H2 H3 Hl|i d Hi Hc H1 H2 H3 Hl|env duration H1 H2 H3 Hl
                      |env H1 H2 H3 Hl|h n dropId delay Hin H1 H2 H3 Hl|f Hf H1 H2 H3 Hl];
    [apply Cleared|apply (Marked _ _ _ _ i d)|apply (Added _ _ _ _ env duration)
    |apply (Fell _ _ _ _ env)|apply (Cleaned _ _ _ _ h n dropId delay)
    |apply (Restyled _ _ _ _ f)]; rewrite ?Hd, ?He, ?Ht; done.
Qed.

Lemma change_from w0 w w' l l' :
  drops (game w0) = drops (game w) → waterDrops (page w0) = waterDrops (page w) →
  nextElem (page w0) = nextElem (page w) →
  timeouts (timers w0) = timeouts (timers w) →
  Change w0 w' l l' → Change w w' l l'.
Proof.
  intros Hd He Hn Ht Hchange.
  destruct Hchange as [H1 H2 H3 Hl|i d Hi Hc H1 H2 H3 Hl|env duration H1 H2 H3 Hl
                      |env H1 H2 H3 Hl|h n dropId delay Hin H1 H2 H3 Hl|f Hf H1 H2 H3 Hl];
    unfold newDrop, newElement in *; rewrite ?Hd, ?He, ?Hn, ?Ht in *.
  - now apply Cleared.
  - now apply (Marked _ _ _ _ i d).
  - now apply (Added _ _ _ _ env duration).
  - now apply (Fell _ _ _ _ env).
  - now apply (Cleaned _ _ _ _ h n dropId delay).
  - now apply (Restyled _ _ _ _ f).
Qed.

Lemma step_change w e l : Change w (step w e) l (record w e l).
Proof.
  destruct e as [| |value| | |onBackdrop| |dropId|h env|h]; unfold step.
  - (* ClickStart *)
    simpl. destruct (isPlaying (game w)) eqn:Hplaying; [|now apply startGame_change].
    unfold startGame. rewrite Hplaying. now apply same_change.
  - (* ClickPause *)
    simpl. unfold togglePause. destruct (isPlaying (game w)); simpl;
      [|now apply same_change].
    destruct (isPaused (game w)); simpl.
    + now apply (Restyled _ _ _ _ (setPlayState "running")).
    + now apply (Restyled _ _ _ _ (setPlayState "paused")).
  - (* ChangeSelect *)
    simpl. unfold updateDifficultyDisplay. simpl.
    destruct (field _ _); now apply same_change.
  - (* ClickPlayAgain *)
    simpl. unfold playAgain. destruct (isPlaying (game w)) eqn:Hplaying.
    + unfold startGame. simpl. rewrite Hplaying. now apply same_change.
    + apply (change_from (hideModal w)); [done..|]. now apply startGame_change.
  - (* ClickChangeDifficulty *) now apply same_change.
  - (* ClickModal *) destruct onBackdrop; now apply same_change.
  - (* ClickGameArea *)
    simpl. apply same_change;
      induction (areaListeners (page w)) as [|n IH]; simpl; done.
  - (* DropGesture *)
    apply (change_from (log (LogDropClicked dropId) w)); [done..|].
    apply (collectDrop_change dropId (log (LogDropClicked dropId) w) l).
  - (* IntervalFires *)
    simpl. destruct (list_find _ _) as [[k [h' [cb delay]]]|]; [|now apply same_change].
    destruct (negb (isPaused (game w)) && isPlaying (game w)) eqn:Hguard;
      destruct cb; simpl; rewrite ?Hguard; try now apply same_change.
    + (* spawn *)
      unfold spawnDrop. simpl.
      destruct (settingsOf (difficulty (game w))) as [d| |]; simpl.
      * now apply (Added _ _ _ _ env (dec (dropSpeed d) +:+ "ms")).
      * now apply (Added _ _ _ _ env ("undefined" +:+ "ms")).
      * now apply same_change.
    + (* loop *)
      apply (change_to w (updateDrops env w)).
      1-3: unfold checkWinCondition; destruct (field _ _) as [target| |]; try done;
        case_bool_decide; try done; apply endGame_same.
      apply (Fell _ _ _ _ env); rewrite ?updateDrops_spec; done.
  - (* TimeoutFires *)
    simpl. destruct (list_find _ _) as [[k [h' [cb delay]]]|] eqn:Hfind;
      [|now apply same_change].
    apply list_find_Some in Hfind as (Hk & _ & _). simpl.
    assert (∀ t, t ∈ delete k (timeouts (timers w)) → t ∈ timeouts (timers w)) as Hsub.
    { intros t Ht. eapply elem_of_sublist; [exact Ht|apply sublist_delete]. }
    destruct cb as [dropElement dropId|message]; simpl.
    + apply (Cleaned _ _ _ _ h' dropElement dropId delay);
        [eapply list_elem_of_lookup_2; exact Hk| | | |done];
        unfold dropCleanup, attached, removeElement; simpl.
      * case_bool_decide; simpl; destruct (list_find _ _) as [[i d]|]; done.
      * case_bool_decide as Hin; simpl; destruct (list_find _ _) as [[i d]|]; simpl;
          try done; symmetry; apply filter_all; intros e He Heq;
          apply Hin, list_elem_of_fmap; eauto.
      * case_bool_decide; simpl; destruct (list_find _ _) as [[i d]|]; done.
    + apply (Restyled _ _ _ _ (λ e, e)); [done|done|now rewrite list_fmap_id|done|done].
Qed.

Lemma unmarked_eta d : collected d = false → mkDrop (id d) (element d) false = d.
Proof. intros <-. reflexivity. Qed.

Lemma placed_change w w' l l' :
  Change w w' l l' → exclusive element w l → placed w l → placed w' l'.
Proof.
  intros Hchange (Hnodup & _ & _ & _ & _ & Hopen & _) (Hknown & Hsub & Hpending & Hplaced).
  destruct Hchange as [Hd He Ht ->|i d Hi Hc Hd He Ht ->|env duration Hd He Ht ->
                      |env Hd He Ht ->|h n dropId delay Hin Hd He Ht ->|f Hf Hd He Ht ->];
    unfold placed; simpl.
  - (* a new session *)
    rewrite Hd, Ht. split_and!; try done.
    + intros d Hin. inversion Hin.
    + intros d Hin. inversion Hin.
  - (* a drop is collected *)
    assert (d ∈ drops (game w)) as Hin by (eapply list_elem_of_lookup_2; eauto).
    assert (∀ d', d' ∈ drops (game w') →
              d' = markCollected d ∨ (d' ∈ drops (game w) ∧ element d' ≠ element d))
      as Hcases.
    { rewrite Hd. intros d' [j Hj]%list_elem_of_lookup.
      apply list_lookup_insert_Some in Hj as [(_ & <- & _)|[Hne Hj]]; [now left|].
      right. split; [eapply list_elem_of_lookup_2; eauto|].
      intros Hkey. apply Hne. symmetry.
      exact (NoDup_key_lookup element (drops (game w)) j i d' d Hnodup Hj Hi Hkey). }
    split_and!.
    + intros d' [->|[Hd' _]]%Hcases; [apply (Hknown d Hin)|auto].
    + intros d' [Hd'| ->%list_elem_of_singleton]%elem_of_app; [auto|].
      rewrite <- (unmarked_eta d Hc). auto.
    + intros h n dropId delay [Hold|[[message Hm]|Hnew]]%Ht; simpl in *.
      * apply elem_of_app. left. eauto.
      * discriminate.
      * injection Hnew as -> ->. apply elem_of_app. right.
        rewrite (unmarked_eta d Hc). now left.
    + intros d' [->|[Hd' Hne]]%Hcases Hc'; [done|].
      destruct (Hplaced d' Hd' Hc') as (e & He' & Hnode & Hid & Hclicked).
      exists e. rewrite He. split; [|done].
      apply list_elem_of_fmap. exists e. split; [|done].
      rewrite bool_decide_eq_false_2; [done|congruence].
  - (* a drop is spawned *)
    rewrite Hd, He, Ht. split_and!; try done.
    + intros d [Hin| ->%list_elem_of_singleton]%elem_of_app; apply elem_of_app;
        [left; auto|right; now left].
    + intros d Hin. apply elem_of_app. left. auto.
    + intros d [Hin| ->%list_elem_of_singleton]%elem_of_app Hc.
      * destruct (Hplaced d Hin Hc) as (e & He' & Hrest).
        exists e. split; [|done]. apply elem_of_app. now left.
      * exists (newElement env w duration). split; [|done].
        apply elem_of_app. right. now left.
  - (* drops fall past the game area *)
    rewrite Hd, He, Ht. split_and!; try done.
    + intros d [_ Hin]%list_elem_of_filter. auto.
    + intros d [[_ Habove] Hin]%list_elem_of_filter Hc.
      destruct (Hplaced d Hin Hc) as (e & He' & Hnode & Hrest).
      exists e. split; [|done]. apply list_elem_of_filter. split; [|done].
      intros (d2 & Hkey & Hd2)%list_elem_of_fmap.
      apply list_elem_of_filter in Hd2 as [[_ Hbelow] _]. cbv beta in Hbelow.
      assert (element d2 = element d) as Heq by congruence.
      rewrite Heq in Hbelow. lia.
  - (* a clean-up runs *)
    assert (drops (game w') `sublist_of` drops (game w)) as Hsublist.
    { rewrite Hd. destruct (list_find _ _) as [[j d]|]; [apply sublist_delete|done]. }
    split_and!; try done.
    + intros d Hd'. apply Hknown. eapply elem_of_sublist; eauto.
    + intros h' n' dropId' delay' Hin'%Ht. eauto.
    + intros d Hd' Hc.
      assert (d ∈ drops (game w)) as Hin' by (eapply elem_of_sublist; eauto).
      destruct (Hplaced d Hin' Hc) as (e & He' & Hnode & Hrest).
      exists e. rewrite He. split; [|done]. apply list_elem_of_filter. split; [|done].
      intros Heq. apply (Hopen d Hin' Hc).
      assert (n ∈ element <$> collectedEver l) as Hn
        by (apply (list_elem_of_fmap_2 element _ (mkDrop dropId n false)); eauto).
      assert (element d = n) as Heq' by congruence.
      congruence.
  - (* other events *)
    rewrite Hd, He. split_and!; try done.
    + intros h n dropId delay Hin%Ht. eauto.
    + intros d Hin Hc. destruct (Hplaced d Hin Hc) as (e & He' & Hnode & Hid & Hclicked).
      exists (f e). destruct (Hf e) as (-> & -> & ->).
      split; [now apply list_elem_of_fmap_2|done].
Qed.

Lemma clickable_change w w' l l' :
  Change w w' l l' → NoDup (id <$> spawned l') →
  placed w l → clickable w → clickable w'.
Proof.
  intros Hchange Hfresh (Hknown & Hsub & Hpending & _) Hclickable.
  destruct Hchange as [Hd He Ht ->|i d Hi Hc Hd He Ht ->|env duration Hd He Ht ->
                      |env Hd He Ht ->|h n dropId delay Hin Hd He Ht ->|f Hf Hd He Ht ->];
    unfold clickable; rewrite He; simpl in *.
  - (* a new session *) intros e Hin. inversion Hin.
  - (* a drop is collected *)
    intros e' (e & -> & Hin)%list_elem_of_fmap Hclicked.
    case_bool_decide as Hnode; [discriminate|].
    destruct (Hclickable e Hin Hclicked) as (d' & Hd' & Hc' & Helem & Hid).
    exists d'. split; [|done]. rewrite Hd.
    apply list_elem_of_lookup in Hd' as [j Hj]. apply list_elem_of_lookup.
    exists j. rewrite list_lookup_insert_ne; [done|].
    intros <-. rewrite Hi in Hj. injection Hj as ->. congruence.
  - (* a drop is spawned *)
    intros e [Hin| ->%list_elem_of_singleton]%elem_of_app Hclicked.
    + destruct (Hclickable e Hin Hclicked) as (d' & Hd' & Hrest).
      exists d'. split; [|done]. rewrite Hd. apply elem_of_app. now left.
    + exists (newDrop env w). split; [|done]. rewrite Hd. apply elem_of_app.
      right. now left.
  - (* drops fall past the game area *)
    intros e [Hnot Hin]%list_elem_of_filter Hclicked.
    destruct (Hclickable e Hin Hclicked) as (d' & Hd' & Hc' & Helem & Hid).
    exists d'. split; [|done]. rewrite Hd. apply list_elem_of_filter.
    split; [|done]. split; [done|].
    destruct (decide (rectTop env (element d') ≤ areaBottom env)) as [|Hbelow]; [done|].
    exfalso. apply Hnot. rewrite <- Helem.
    apply list_elem_of_fmap_2, list_elem_of_filter. split; [|done]. split; [done|lia].
  - (* a clean-up runs *)
    intros e [Hnode Hin']%list_elem_of_filter Hclicked.
    destruct (Hclickable e Hin' Hclicked) as (d' & Hd' & Hc' & Helem & Hid).
    exists d'. split; [|done]. rewrite Hd.
    destruct (list_find _ _) as [[j dj]|] eqn:Hfind; [|done].
    apply list_find_Some in Hfind as (Hj & Hidj & _).
    eapply elem_of_delete_other; [exact Hj|exact Hd'|].
    intros ->. apply Hnode. rewrite <- Helem.
    pose proof (Hknown dj Hd') as H1.
    pose proof (Hsub _ (Hpending h n dropId delay Hin)) as H2.
    apply list_elem_of_lookup in H1 as [k1 H1]. apply list_elem_of_lookup in H2 as [k2 H2].
    assert (k1 = k2) as ->.
    { apply (NoDup_lookup (id <$> spawned l) k1 k2 dropId Hfresh);
        rewrite list_lookup_fmap; [rewrite H1|rewrite H2]; simpl; congruence. }
    rewrite H1 in H2. now injection H2.
  - (* other events *)
    intros e' (e & -> & Hin)%list_elem_of_fmap Hclicked.
    destruct (Hf e) as (Hnode & Hid & Hcl). rewrite Hcl in Hclicked.
    destruct (Hclickable e Hin Hclicked) as (d' & Hd' & Hc' & Helem & Hid').
    exists d'. rewrite Hd, Hnode, Hid. done.
Qed.

Lemma run_placed es w l :
  counted w l → exclusive element w l → placed w l →
  placed (run es w) (ledger es w l).
Proof.
  revert w l. induction es as [|e es IH]; intros w l Hcounted Hexcl Hplaced; [done|].
  simpl. pose proof (step_effect w e l) as Heffect.
  pose proof (counted_effect _ _ _ _ Heffect Hcounted) as Hcounted'.
  apply IH; [done| |].
  - eapply (exclusive_effect element); [done|exact Heffect| |done].
    now destruct Hcounted' as (_ & _ & ?).
  - eapply placed_change; [apply step_change|done|done].
Qed.

Lemma run_clickable es w l :
  NoDup (id <$> spawned (ledger es w l)) →
  counted w l → exclusive element w l → placed w l → clickable w →
  clickable (run es w).
Proof.
  revert w l. induction es as [|e es IH]; intros w l Hfresh Hcounted Hexcl Hplaced Hclick;
    [done|].
  simpl in *. pose proof (step_effect w e l) as Heffect.
  pose proof (counted_effect _ _ _ _ Heffect Hcounted) as Hcounted'.
  apply (IH _ (record w e l)); [done|done| | |].
  - eapply (exclusive_effect element); [done|exact Heffect| |done].
    now destruct Hcounted' as (_ & _ & ?).
  - eapply placed_change; [apply step_change|done|done].
  - eapply clickable_change; [apply step_change| |done|done].
    destruct (ledger_spawned es (step w e) (record w e l)) as [more Hmore].
    rewrite Hmore, fmap_app in Hfresh. now apply NoDup_app in Hfresh as (? & _).
Qed.

Lemma placed_init p : placed (init p) emptyLedger.
Proof.
  assert (drops (game (init p)) = [] ∧ timeouts (timers (init p)) = []) as [Hd Ht].
  { unfold init, updateDifficultyDisplay. destruct (field _ _); done. }
  unfold placed. rewrite Hd, Ht. simpl.
  split_and!; intros; match goal with H : _ ∈ [] |- _ => inversion H end.
Qed.

Lemma clickable_init p : waterDrops p = [] → clickable (init p).
Proof.
  intros Hnone.
  assert (waterDrops (page (init p)) = []) as He.
  { unfold init, updateDifficultyDisplay. destruct (field _ _); done. }
  unfold clickable. rewrite He. intros e Hin. inversion Hin.
Qed.

(** With ids that do not repeat, the drop [collectDrop] finds for an id is
    the drop that has it. *)
Lemma collectOutcome_unique w d :
  NoDup (id <$> drops (game w)) → d ∈ drops (game w) → collected d = false →
  ∃ i, collectOutcome (id d) w = Collected i d.
Proof.
  intros Hnodup [j Hj]%list_elem_of_lookup Hc. unfold collectOutcome.
  destruct (list_find _ _) as [[i d0]|] eqn:Hfind.
  - apply list_find_Some in Hfind as (Hi & Hid & _).
    assert (i = j) as -> by exact (NoDup_key_lookup id _ i j d0 d Hnodup Hi Hj Hid).
    rewrite Hi in Hj. injection Hj as ->. rewrite Hc. eauto.
  - apply list_find_None in Hfind. rewrite Forall_forall in Hfind.
    exfalso. apply (Hfind d); [eapply list_elem_of_lookup_2; eauto|done].
Qed.

(** X11: from the loading of the page, over any sequence of events, every
    drop in [this.drops] that is not collected has its element in the game
    area, not clicked and carrying the drop's id. *)
Theorem uncollected_drops_are_on_the_page (p : Page) (es : list Event) :
  let w := run es (init p) in
  ∀ d, d ∈ drops (game w) → collected d = false →
    ∃ e, e ∈ waterDrops (page w) ∧ node e = element d ∧ dataId e = id d
         ∧ clicked e = false.
Proof.
  intros w.
  destruct (run_placed es (init p) emptyLedger (counted_init p)
              (exclusive_init element p) (placed_init p)) as (_ & _ & _ & Hplaced).
  exact Hplaced.
Qed.

Lemma uncollected_drops_are_on_the_page_witness :
  mkDrop "drop_2000_7" 1%nat false ∈ drops (game (run twoDrops (init blankPage)))
  ∧ ∃ e, e ∈ waterDrops (page (run twoDrops (init blankPage)))
         ∧ node e = element (mkDrop "drop_2000_7" 1%nat false)
         ∧ dataId e = id (mkDrop "drop_2000_7" 1%nat false)
         ∧ clicked e = false.
Proof.
  assert (drops (game (run twoDrops (init blankPage)))
          = [mkDrop "drop_1000_7" 0%nat false; mkDrop "drop_2000_7" 1%nat false])
    as Heq by (vm_compute; reflexivity).
  assert (mkDrop "drop_2000_7" 1%nat false
          ∈ drops (game (run twoDrops (init blankPage)))) as H1
    by (rewrite Heq; right; left).
  split; [exact H1|].
  exact (uncollected_drops_are_on_the_page blankPage twoDrops _ H1 eq_refl).
Defined.

(** X12: on a page that starts with no drop element, over any sequence of
    events in which the ids of the drops spawned, as the console tells
    them, are pairwise different, every drop element in the game area that
    is not clicked can be collected: [collectDrop] with the id the element
    carries finds a drop that is not collected, and it is the drop of that
    element. *)
Theorem visible_drops_are_collectable (p : Page) (es : list Event) :
  waterDrops p = [] →
  NoDup (spawnedIds (console (run es (init p)))) →
  let w := run es (init p) in
  ∀ e, e ∈ waterDrops (page w) → clicked e = false →
    ∃ i d, collectOutcome (dataId e) w = Collected i d ∧ element d = node e.
Proof.
  intros Hnone Hlogged w e He Hclicked.
  assert (NoDup (id <$> spawned (ledger es (init p) emptyLedger))) as Hfresh.
  { destruct (run_logged es (init p) emptyLedger (logged_init p)) as [<- _].
    exact Hlogged. }
  destruct (run_clickable es (init p) emptyLedger Hfresh (counted_init p)
              (exclusive_init element p) (placed_init p) (clickable_init p Hnone)
              e He Hclicked) as (d & Hd & Hc & Helem & Hid).
  destruct (run_exclusive_id es (init p) emptyLedger Hfresh (exclusive_init id p))
    as (Hnodup & _).
  destruct (collectOutcome_unique w d Hnodup Hd Hc) as [i Hi].
  exists i, d. rewrite <- Hid. done.
Qed.

Lemma visible_drops_are_collectable_witness :
  waterDrops blankPage = []
  ∧ NoDup (spawnedIds (console (run twoDrops (init blankPage))))
  ∧ mkDropElement 1%nat "drop_2000_7" "2000ms" false None None
    ∈ waterDrops (page (run twoDrops (init blankPage)))
  ∧ ∃ i d, collectOutcome
             (dataId (mkDropElement 1%nat "drop_2000_7" "2000ms" false None None))
             (run twoDrops (init blankPage)) = Collected i d
           ∧ element d = node (mkDropElement 1%nat "drop_2000_7" "2000ms" false None None).
Proof.
  assert (NoDup (spawnedIds (console (run twoDrops (init blankPage))))) as H1
    by (apply (bool_decide_unpack _); vm_compute; exact I).
  assert (waterDrops (page (run twoDrops (init blankPage)))
          = [mkDropElement 0%nat "drop_1000_7" "2000ms" false None None;
             mkDropElement 1%nat "drop_2000_7" "2000ms" false None None])
    as Heq by (vm_compute; reflexivity).
  assert (mkDropElement 1%nat "drop_2000_7" "2000ms" false None None
          ∈ waterDrops (page (run twoDrops (init blankPage)))) as H2
    by (rewrite Heq; right; left).
  split; [reflexivity|]. split; [exact H1|]. split; [exact H2|].
  exact (visible_drops_are_collectable blankPage twoDrops eq_refl H1 _ H2 eq_refl).
Defined.

(** ** The clean-up after a collection *)

Lemma delete_insert_same {A : Type} (l : list A) i x :
  delete i (<[i := x]> l) = delete i l.
Proof.
  revert i. induction l as [|y l IH]; intros [|i]; simpl; try done.
  now rewrite IH.
Qed.

(** Marking the first drop with an id leaves it the first with that id. *)
Lemma list_find_marked dropId (l : list Drop) i d :
  list_find (λ drop, id drop = dropId) l = Some (i, d) →
  list_find (λ drop, id drop = dropId) (<[i := markCollected d]> l)
  = Some (i, markCollected d).
Proof.
  intros (Hi & Hid & Hfirst)%list_find_Some. apply list_find_Some.
  split_and!.
  - apply list_lookup_insert_eq. eapply lookup_lt_Some; eauto.
  - done.
  - intros j e Hj Hlt. rewrite list_lookup_insert_ne in Hj by lia. eauto.
Qed.

Lemma collectDrop_elements dropId w i d :
  collectOutcome dropId w = Collected i d →
  waterDrops (page (collectDrop dropId w))
  = (λ e, if bool_decide (node e = element d) then markClicked e else e)
      <$> waterDrops (page w).
Proof.
  intros Houtcome. unfold collectDrop, collectOutcome in *. simpl in *.
  destruct (list_find _ _) as [[j e]|]; [destruct (collected e)|]; try done.
  injection Houtcome as -> ->.
  match goal with |- context [checkMilestones ?x] =>
    pose proof (checkMilestones_stage x) as [= _ _ He] end.
  simpl in *. exact He.
Qed.

Lemma filter_clicked n (l : list DropElement) :
  filter (λ e, node e ≠ n)
    ((λ e, if bool_decide (node e = n) then markClicked e else e) <$> l)
  = filter (λ e, node e ≠ n) l.
Proof.
  induction l as [|e l IH]; [done|]. rewrite fmap_cons, !filter_cons.
  case_bool_decide as Hnode; simpl.
  - rewrite !decide_False by (simpl; tauto). exact IH.
  - rewrite !decide_True by done. now rewrite IH.
Qed.

Lemma collect_then_cleanup dropId w i d :
  collectOutcome dropId w = Collected i d →
  drops (game (dropCleanup (element d) dropId (collectDrop dropId w)))
  = delete i (drops (game w))
  ∧ waterDrops (page (dropCleanup (element d) dropId (collectDrop dropId w)))
    = filter (λ e, node e ≠ element d) (waterDrops (page w))
  ∧ score (game (dropCleanup (element d) dropId (collectDrop dropId w)))
    = score (game w) + 1.
Proof.
  intros Houtcome.
  destruct (collectDrop_collected dropId w i d Houtcome) as [Hgame _].
  pose proof (collectDrop_elements dropId w i d Houtcome) as Helements.
  assert (list_find (λ drop, id drop = dropId) (drops (game (collectDrop dropId w)))
          = Some (i, markCollected d)) as Hfind.
  { rewrite Hgame. simpl. apply list_find_marked.
    unfold collectOutcome in Houtcome.
    destruct (list_find _ _) as [[j e]|]; [destruct (collected e)|]; congruence. }
  revert Hgame Helements Hfind. generalize (collectDrop dropId w) as w1.
  intros w1 Hgame Helements Hfind.
  unfold dropCleanup, attached, removeElement.
  case_bool_decide as Hattached; simpl; rewrite Hfind; simpl;
    rewrite Hgame, Helements; simpl; rewrite delete_insert_same; split_and!; try done.
  - apply filter_clicked.
  - rewrite <- filter_clicked. symmetry. apply filter_all.
    intros e He Hnode. apply Hattached. rewrite Helements.
    apply list_elem_of_fmap. eauto.
Qed.

(** X13: when [collectDrop] has collected a drop, the clean-up it scheduled
    removes exactly that drop from [this.drops] and its element from the
    game area, and leaves the score one up; if no other drop has the same
    id, a later call of [collectDrop] with the id finds none and leaves the
    game object as it is. *)
Theorem cleanup_removes_the_collected_drop (dropId : string) (w : World) (i : nat)
    (d : Drop) :
  collectOutcome dropId w = Collected i d →
  let w1 := collectDrop dropId w in
  let w2 := dropCleanup (element d) dropId w1 in
  (∃ h, last (timeouts (timers w1)) = Some (h, (DropCleanup (element d) dropId, 300)))
  ∧ drops (game w2) = delete i (drops (game w))
  ∧ waterDrops (page w2) = filter (λ e, node e ≠ element d) (waterDrops (page w))
  ∧ score (game w2) = score (game w) + 1
  ∧ ((∀ j e, drops (game w) !! j = Some e → id e = dropId → j = i) →
     collectOutcome dropId w2 = NotFound
     ∧ game (collectDrop dropId w2) = game w2).
Proof.
  intros Houtcome w1 w2.
  destruct (collect_then_cleanup dropId w i d Houtcome) as (Hdrops & Helements & Hscore).
  fold w1 in Hdrops, Helements, Hscore. fold w2 in Hdrops, Helements, Hscore.
  split_and!; try done.
  - subst w1. unfold collectDrop, collectOutcome in *. simpl in *.
    destruct (list_find _ _) as [[j e]|]; [destruct (collected e)|]; try done.
    injection Houtcome as -> ->. simpl. rewrite last_snoc. eauto.
  - intros Honly.
    assert (collectOutcome dropId w2 = NotFound) as Hnone.
    { unfold collectOutcome. rewrite Hdrops.
      destruct (list_find _ _) as [[j e]|] eqn:Hfind; [|done].
      apply list_find_Some in Hfind as (Hj & Hid & _).
      rewrite list_lookup_delete in Hj.
      destruct (decide (j < i)%nat) as [Hlt|Hge];
        specialize (Honly _ _ Hj Hid); lia. }
    split; [exact Hnone|]. now rewrite collectDrop_not_found.
Qed.

Lemma cleanup_removes_the_collected_drop_witness :
  collectOutcome "drop_1000_7" oneDrop
  = Collected 0%nat (mkDrop "drop_1000_7" 0%nat false)
  ∧ drops (game (dropCleanup (element (mkDrop "drop_1000_7" 0%nat false)) "drop_1000_7"
                   (collectDrop "drop_1000_7" oneDrop)))
    = delete 0%nat (drops (game oneDrop)).
Proof.
  assert (collectOutcome "drop_1000_7" oneDrop
          = Collected 0%nat (mkDrop "drop_1000_7" 0%nat false)) as H1
    by (vm_compute; reflexivity).
  split; [exact H1|].
  exact (proj1 (proj2 (cleanup_removes_the_collected_drop "drop_1000_7" oneDrop 0%nat
                         (mkDrop "drop_1000_7" 0%nat false) H1))).
Defined.

(** ** What the dialog tells *)

Lemma checkMilestones_message w :
  gameOverMessage (page (checkMilestones w)) = gameOverMessage (page w).
Proof.
  pose proof (checkMilestones_besides w) as H. unfold besidesMilestones in H.
  inversion H. congruence.
Qed.

Lemma startGame_message w :
  gameOverMessage (page (after (startGame w))) = gameOverMessage (page w).
Proof.
  unfold startGame. destruct (isPlaying (game w)); [done|].
  match goal with |- context [startGameLoop ?x] => set (w2 := x) end.
  assert (gameOverMessage (page w2) = gameOverMessage (page w)) as <-.
  { subst w2. unfold resetGame. rewrite clearIntervals_eq. simpl.
    destruct (hasInstructions (page w)); reflexivity. }
  clearbody w2. unfold startGameLoop, startTimer.
  destruct (settingsOf (difficulty (game w2))) eqn:Hsettings; simpl;
    rewrite ?Hsettings; reflexivity.
Qed.

Lemma step_honest w ev : honest w → honest (step w ev).
Proof.
  intros Hhonest.
  assert (∀ w', gameOverMessage (page w') = gameOverMessage (page w) → honest w')
    as Hsame by (unfold honest; intros w' ->; exact Hhonest).
  destruct ev as [| |value| | |onBackdrop| |dropId|h env|h]; unfold step; simpl.
  - (* ClickStart *) apply Hsame, startGame_message.
  - (* ClickPause *)
    apply Hsame. unfold togglePause. destruct (isPlaying (game w)); simpl; [|done].
    destruct (isPaused (game w)); done.
  - (* ChangeSelect *)
    apply Hsame. unfold updateDifficultyDisplay. simpl. destruct (field _ _); done.
  - (* ClickPlayAgain *)
    apply Hsame. unfold playAgain. now rewrite startGame_message.
  - (* ClickChangeDifficulty *) now apply Hsame.
  - (* ClickModal *) apply Hsame. destruct onBackdrop; done.
  - (* ClickGameArea *)
    apply Hsame. induction (areaListeners (page w)) as [|n IH]; simpl; done.
  - (* DropGesture *)
    apply Hsame. unfold collectDrop. simpl.
    destruct (list_find _ _) as [[i d]|]; [destruct (collected d)|]; try done.
    simpl. match goal with |- context [checkMilestones ?x] =>
      rewrite (checkMilestones_message x) end. done.
  - (* IntervalFires *)
    destruct (list_find _ _) as [[k [h' [cb delay]]]|]; [|done].
    destruct (negb (isPaused (game w)) && isPlaying (game w)) eqn:Hguard;
      destruct cb; simpl; rewrite ?Hguard; try done.
    + (* spawn *)
      apply Hsame. unfold spawnDrop. simpl. destruct (field _ _); done.
    + (* loop *)
      assert (honest (updateDrops env w)) as Hhonest'
        by (apply Hsame; rewrite updateDrops_spec; done).
      revert Hhonest'. generalize (updateDrops env w) as w1. intros w1 Hhonest'.
      unfold checkWinCondition.
      destruct (settingsOf (difficulty (game w1))) as [d| |] eqn:Hsettings; simpl;
        try exact Hhonest'.
      case_bool_decide as Hle; [|exact Hhonest'].
      unfold endGame. rewrite clearIntervals_eq. simpl. unfold showWinModal. simpl.
      rewrite Hsettings. simpl. unfold honest.
      destruct (hasInstructions (page w1)); simpl; eauto.
  - (* TimeoutFires *)
    destruct (list_find _ _) as [[k [h' [cb delay]]]|]; [|done]. simpl.
    apply Hsame. destruct cb as [dropElement dropId|message]; simpl; [|done].
    unfold dropCleanup. destruct (attached _ _);
      destruct (list_find _ _) as [[i d]|]; done.
Qed.

(** X15: on a page whose game-over dialog starts empty, over any sequence of
    events, the dialog is empty or holds the text of a win that names a
    difficulty of the table and a final score that has reached its target:
    the text of a loss never appears. *)
Theorem win_dialog_is_honest (p : Page) (es : list Event) :
  gameOverMessage p = None →
  let w := run es (init p) in
  gameOverMessage (page w) = None
  ∨ ∃ key d finalScore time,
      gameOverMessage (page w) = Some (WonMessage key finalScore time)
      ∧ settingsOf key = Own d ∧ targetScore d ≤ finalScore.
Proof.
  intros Hnone w.
  assert (honest w) as Hhonest.
  { apply (run_preserves honest step_honest).
    unfold init, updateDifficultyDisplay, honest.
    destruct (field _ _); simpl; now rewrite Hnone. }
  unfold honest in Hhonest.
  destruct (gameOverMessage (page w)) as [[key s t|key s t]|]; [|done|now left].
  destruct Hhonest as (d & Hd & Hle). right. eauto 10.
Qed.

Lemma win_dialog_is_honest_witness :
  gameOverMessage blankPage = None
  ∧ (gameOverMessage (page (run [] finished)) = Some (WonMessage "normal" 25 24))
  ∧ (gameOverMessage (page (run twoFates (init blankPage))) = None
     ∨ ∃ key d finalScore time,
         gameOverMessage (page (run twoFates (init blankPage)))
         = Some (WonMessage key finalScore time)
         ∧ settingsOf key = Own d ∧ targetScore d ≤ finalScore).
Proof.
  split; [reflexivity|]. split; [vm_compute; reflexivity|].
  exact (win_dialog_is_honest blankPage twoFates eq_refl).
Defined.

(** X14: the ways out of the game-over dialog.  [playAgain] hides the dialog
    and then does what [startGame] does to the game object and the timers;
    [changeDifficulty] hides the dialog and touches nothing else of the game
    object, the timers, the console or the sounds; [startGame] itself
    leaves the dialog as it is, shown if it was shown. *)
Theorem dialog_closes_by_its_buttons (w : World) :
  propOf "gameOverModal" "style.display" (after (playAgain w)) = Some (Str "none")
  ∧ game (after (playAgain w)) = game (after (startGame w))
  ∧ timers (after (playAgain w)) = timers (after (startGame w))
  ∧ propOf "gameOverModal" "style.display" (changeDifficulty w) = Some (Str "none")
  ∧ (game (changeDifficulty w), timers (changeDifficulty w),
     console (changeDifficulty w), played (changeDifficulty w))
    = (game w, timers w, console w, played w)
  ∧ propOf "gameOverModal" "style.display" (after (startGame w))
    = propOf "gameOverModal" "style.display" w.
Proof.
  assert (∀ w0, propOf "gameOverModal" "style.display" (after (startGame w0))
                = propOf "gameOverModal" "style.display" w0) as Hkeeps.
  { intros w0. destruct (isPlaying (game w0)) eqn:Hplaying.
    - unfold startGame. now rewrite Hplaying.
    - unfold propOf. rewrite (startGame_props w0 Hplaying). unfold startAssignments.
      destruct (hasInstructions (page w0)); props_known; reflexivity. }
  split_and!; try done.
  - unfold playAgain. rewrite Hkeeps. props_known. reflexivity.
  - unfold playAgain, startGame. simpl. destruct (isPlaying (game w)); [done|].
    unfold resetGame. rewrite !clearIntervals_eq. simpl.
    unfold startGameLoop, startTimer. simpl.
    destruct (hasInstructions (page w)); simpl;
      destruct (settingsOf (difficulty (game w))) eqn:Hsettings; simpl;
      rewrite ?Hsettings; reflexivity.
  - unfold playAgain, startGame. simpl. destruct (isPlaying (game w)); [done|].
    unfold resetGame. rewrite !clearIntervals_eq. simpl.
    unfold startGameLoop, startTimer. simpl.
    destruct (hasInstructions (page w)); simpl;
      destruct (settingsOf (difficulty (game w))) eqn:Hsettings; simpl;
      rewrite ?Hsettings; reflexivity.
Qed.

(** ** Collecting and the flags *)

Lemma checkMilestone_flags playing paused m w :
  checkMilestone m (withFlags playing paused w)
  = withFlags playing paused (checkMilestone m w).
Proof. unfold checkMilestone. simpl. destruct (_ && _); reflexivity. Qed.

Lemma checkMilestones_flags playing paused w :
  checkMilestones (withFlags playing paused w)
  = withFlags playing paused (checkMilestones w).
Proof.
  unfold checkMilestones, forEach. generalize milestones as l. intros l. revert w.
  induction l as [|m l IH]; intros w; [done|].
  simpl. rewrite checkMilestone_flags. apply IH.
Qed.

(** X16: [collectDrop] takes no notice of whether the session is being
    played or paused: with the two flags set in any way it does what it does
    otherwise, and leaves the flags as set.  So a drop on the page is
    collected, and the score raised, by a gesture in a paused session or
    after the session has ended as well. *)
Theorem collectDrop_ignores_the_flags (dropId : string) (playing paused : bool)
    (w : World) :
  collectDrop dropId (withFlags playing paused w)
  = withFlags playing paused (collectDrop dropId w)
  ∧ collectOutcome dropId (withFlags playing paused w) = collectOutcome dropId w.
Proof.
  split; [|reflexivity]. unfold collectDrop. simpl.
  destruct (list_find _ _) as [[i d]|]; [destruct (collected d)|]; try reflexivity.
  match goal with |- context [withFlags _ _ (log _ (setTimeout _ _ (checkMilestones ?x)))] =>
    pose proof (checkMilestones_flags playing paused x) as Hflags end.
  simpl in *.
  match type of Hflags with checkMilestones ?y = _ =>
    match goal with |- context [checkMilestones ?z] =>
      change z with y end end.
  rewrite Hflags. reflexivity.
Qed.
